(** * C-Data-Structures: hash table over sentinel doubly-linked lists, plain
      doubly-linked list, and 26-way trie.

    The development embeds [hash_table.c], the list functions of
    [doubly-linked-list.c] and the insertion, search and removal of [trie.c].

    - A C string is the list of its characters up to, and not including, the
      terminating NUL.  A character is the [int] value that reading a [char]
      yields (so where plain [char] is signed, a byte above 0x7f is a negative
      number).
    - [unsigned long] is 64 bits wide; every operation on it wraps.
    - The linked structures live in an explicit memory: a finite map from
      addresses to blocks, threaded through a small state monad whose
      computations may return, fault (undefined behaviour) or run out of the
      fuel that bounds a [while] loop. *)

From Stdlib Require Import ZArith Lia List.
From stdpp Require Import base option list gmap strings.

#[local] Set Warnings "-clear-no-such-hyp".

Local Open Scope Z_scope.

(** ** Characters and strings *)

Definition cstr := list Z.

(** The characters of a string literal. *)
Definition lit (s : string) : cstr :=
  map (fun a => Z.of_N (Ascii.N_of_ascii a)) (String.list_ascii_of_string s).

(** [strcmp]: zero exactly on equal strings; the sign follows the first
    position where they differ.  The programs only test the result against 0. *)
Fixpoint strcmp (a b : cstr) : Z :=
  match a, b with
  | [], [] => 0
  | [], _ :: _ => -1
  | _ :: _, [] => 1
  | x :: a', y :: b' =>
      if x =? y then strcmp a' b' else if x <? y then -1 else 1
  end.

(** ** Memory

    Addresses are positive numbers and a pointer is an optional address, the
    null pointer being [None].  The memory maps the live addresses to blocks.
    [allocs] lists what the coming calls of [malloc] return: [None] when the
    allocation fails, an address otherwise; [freed] logs the addresses released
    by [free], and [output] what the program has printed. *)

Definition loc := positive.
Abbreviation ptr := (option loc).
Abbreviation NULL := (@None loc).

Record state {B O : Type} := mk_state {
  heap : gmap loc B;
  allocs : list ptr;
  freed : list loc;
  output : list O
}.
Arguments state : clear implicits.
Arguments mk_state {B O} _ _ _ _.

Inductive result (S A : Type) :=
  | Ret (a : A) (s : S)
  | Fault
  | OutOfFuel.
Arguments Ret {S A} _ _.
Arguments Fault {S A}.
Arguments OutOfFuel {S A}.

Section Memory.
Context {B O : Type}.

Definition M (A : Type) : Type := state B O → result (state B O) A.

Definition ret {A} (a : A) : M A := λ s, Ret a s.

Definition bind {A A'} (m : M A) (k : A → M A') : M A' :=
  λ s, match m s with
       | Ret a s' => k a s'
       | Fault => Fault
       | OutOfFuel => OutOfFuel
       end.

Definition fault {A} : M A := λ _, Fault.
Definition out_of_fuel {A} : M A := λ _, OutOfFuel.

Definition set_heap (s : state B O) (h : gmap loc B) : state B O :=
  mk_state h (allocs s) (freed s) (output s).

(** [printf]/[fprintf] of one item. *)
Definition print (o : O) : M unit :=
  λ s, Ret tt (mk_state (heap s) (allocs s) (freed s) (output s ++ [o])).

(** Reading through a pointer: a fault when it is null or dangling. *)
Definition load (p : ptr) : M B :=
  λ s, match p with
       | None => Fault
       | Some l => match heap s !! l with
                   | Some b => Ret b s
                   | None => Fault
                   end
       end.

(** Writing through a pointer: a fault when it is null or dangling. *)
Definition store (p : ptr) (b : B) : M unit :=
  λ s, match p with
       | None => Fault
       | Some l => match heap s !! l with
                   | Some _ => Ret tt (set_heap s (<[l := b]> (heap s)))
                   | None => Fault
                   end
       end.

(** [malloc]: the next entry of [allocs] when it is an address that is not
    live, the null pointer otherwise.  The new block holds [uninit]. *)
Definition malloc (uninit : B) : M ptr :=
  λ s, match allocs s with
       | Some l :: rest =>
           match heap s !! l with
           | None => Ret (Some l)
                       (mk_state (<[l := uninit]> (heap s)) rest (freed s) (output s))
           | Some _ => Ret NULL (mk_state (heap s) rest (freed s) (output s))
           end
       | None :: rest => Ret NULL (mk_state (heap s) rest (freed s) (output s))
       | [] => Ret NULL s
       end.

(** [free]: nothing for the null pointer, a fault for an address that is not
    live (double free), the release of the block otherwise. *)
Definition free (p : ptr) : M unit :=
  λ s, match p with
       | None => Ret tt s
       | Some l => match heap s !! l with
                   | Some _ => Ret tt (mk_state (delete l (heap s)) (allocs s)
                                         (freed s ++ [l]) (output s))
                   | None => Fault
                   end
       end.
End Memory.

Arguments M : clear implicits.

Notation "x <- m ;; k" := (bind m (λ x, k))
  (at level 100, m at next level, right associativity).
Notation "m ;;; k" := (bind m (λ _, k))
  (at level 100, right associativity).

(** Computations that neither allocate nor release a block. *)
Definition keeps_blocks {B O A : Type} (m : M B O A) : Prop :=
  ∀ s a s', m s = Ret a s' →
    dom (heap s') = dom (heap s) ∧ freed s' = freed s.

(** ** hash_table.c *)

Module HashTable.

Definition TABLE_SIZE : Z := 5.

Definition ULONG_WIDTH : Z := 64.

(** Conversion to [unsigned long]. *)
Definition ulong (z : Z) : Z := z mod 2 ^ ULONG_WIDTH.

(** One turn of the loop body: [hash = ((hash << 5) + hash) + c]. *)
Definition hash_step (hash c : Z) : Z :=
  ulong (ulong (ulong (Z.shiftl hash 5) + hash) + ulong c).

(** [while ((c = *str++)) hash = ...;] from the accumulator [hash]. *)
Fixpoint hash_loop (str : cstr) (hash : Z) : Z :=
  match str with
  | [] => hash
  | c :: str' => hash_loop str' (hash_step hash c)
  end.

Definition hash (str : cstr) : Z := hash_loop str 5381 mod TABLE_SIZE.

(** The reference definition in the words of the specification: a fixed-width
    unsigned accumulator seeded at 5381, updated to accumulator*33 + c with
    wraparound, reduced modulo the table size. *)
Definition djb2_spec (key : cstr) : Z :=
  fold_left (fun acc c => (acc * 33 + c) mod 2 ^ 64) key 5381 mod 5.

(** The bytes of a key, each from 0 to 255, as they lie in memory. *)
Definition bytes := list Z.

(** [c = *str++]: the [char] behind [str] converted to the [int c].  Plain
    [char] is signed, as it is on x86-64, so a byte from 0x80 up is read as
    the negative number [b - 256]. *)
Definition char_value (b : Z) : Z := if b <? 128 then b else b - 256.

(** The key as the loop of [hash] reads it. *)
Definition chars_of (key : bytes) : cstr := map char_value key.

(** [struct node]. *)
Record node := mk_node { value : ptr; prev : ptr; next : ptr }.

(** What an address holds: fresh memory from [malloc], a [struct node], or an
    array of characters (a string). *)
Inductive block :=
  | Uninit
  | Node (n : node)
  | Chars (s : cstr).

(** What the functions print. *)
Inductive message :=
  | Failed_list_allocation
  | Cannot_insert_sentinel
  | Failed_node_allocation
  | Cannot_locate_sentinel
  | Cannot_remove_sentinel
  | Empty_list
  | Printed (s : cstr)
  | Newline
  | Failed_create_at (i : Z)
  | Bucket_label (i : Z)
  | Could_not_remove
  | No_such_entry.

Abbreviation St := (state block message).
Abbreviation Cmd := (M block message).

(** [char *SENTINEL = "SENTINEL";]: the literal sits at a fixed address of the
    static storage, which the memory holds like any other block. *)
Definition SENTINEL_chars : cstr := lit "SENTINEL".
Definition SENTINEL_addr : loc := 1%positive.
Definition SENTINEL : ptr := Some SENTINEL_addr.

(** The memory at program start, given the future behaviour of [malloc]. *)
Definition initial (future : list ptr) : St :=
  mk_state {[ SENTINEL_addr := Chars SENTINEL_chars ]} future [] [].

Definition load_node (p : ptr) : Cmd node :=
  b <- load p ;;
  match b with Node n => ret n | _ => fault end.

Definition load_chars (p : ptr) : Cmd cstr :=
  b <- load p ;;
  match b with Chars s => ret s | _ => fault end.

(** [p->value], [p->prev], [p->next]. *)
Definition get_value (p : ptr) : Cmd ptr := n <- load_node p ;; ret (value n).
Definition get_prev (p : ptr) : Cmd ptr := n <- load_node p ;; ret (prev n).
Definition get_next (p : ptr) : Cmd ptr := n <- load_node p ;; ret (next n).

(** [p->value = v], [p->prev = v], [p->next = v]. *)
Definition set_value (p v : ptr) : Cmd unit :=
  n <- load_node p ;; store p (Node (mk_node v (prev n) (next n))).
Definition set_prev (p v : ptr) : Cmd unit :=
  n <- load_node p ;; store p (Node (mk_node (value n) v (next n))).
Definition set_next (p v : ptr) : Cmd unit :=
  n <- load_node p ;; store p (Node (mk_node (value n) (prev n) v)).

(** [strcmp(p, b)] for the string stored at [p]. *)
Definition strcmp_at (p : ptr) (b : cstr) : Cmd Z :=
  a <- load_chars p ;; ret (strcmp a b).

(** A new list: one node whose value is the marker. *)
Definition create_list : Cmd ptr :=
  new_list <- malloc Uninit ;;
  match new_list with
  | None => print Failed_list_allocation ;;; ret NULL
  | Some _ =>
      store new_list (Node (mk_node SENTINEL NULL NULL)) ;;;
      ret new_list
  end.

(** Insertion behind [list_head].  The result of the second [malloc], for the
    copy of the string, is not checked: when it is null, [strcpy] faults. *)
Definition insert_entry (list_head : ptr) (value : cstr) : Cmd bool :=
  sentinel <- load_chars SENTINEL ;;
  if strcmp value sentinel =? 0 then
    print Cannot_insert_sentinel ;;; ret false
  else
    new_entry <- malloc Uninit ;;
    match new_entry with
    | None => print Failed_node_allocation ;;; ret false
    | Some _ =>
        new_string <- malloc Uninit ;;
        store new_string (Chars value) ;;;
        head_next <- get_next list_head ;;
        store new_entry (Node (mk_node new_string list_head head_next)) ;;;
        entry_next <- get_next new_entry ;;
        (match entry_next with
         | Some _ => set_prev entry_next new_entry
         | None => ret tt
         end) ;;;
        set_next list_head new_entry ;;;
        ret true
    end.

(** The [while (list_head != NULL)] loop of [find_entry]; [fuel] bounds the
    number of nodes visited. *)
Fixpoint find_loop (fuel : nat) (list_head : ptr) (value : cstr) : Cmd ptr :=
  match list_head with
  | None => ret NULL
  | Some _ =>
      match fuel with
      | O => out_of_fuel
      | S fuel' =>
          v <- get_value list_head ;;
          c <- strcmp_at v value ;;
          if c =? 0 then ret list_head
          else
            nx <- get_next list_head ;;
            find_loop fuel' nx value
      end
  end.

(** The first node from [list_head] on whose string equals [value], or a null
    pointer. *)
Definition find_entry (fuel : nat) (list_head : ptr) (value : cstr) : Cmd ptr :=
  sentinel <- load_chars SENTINEL ;;
  if strcmp value sentinel =? 0 then
    print Cannot_locate_sentinel ;;; ret NULL
  else find_loop fuel list_head value.

(** Unlinks [entry], then [free(entry->value); entry->value = NULL;
    free(entry);]. *)
Definition remove_entry (entry : ptr) : Cmd bool :=
  v <- get_value entry ;;
  sentinel <- load_chars SENTINEL ;;
  c <- strcmp_at v sentinel ;;
  if c =? 0 then
    print Cannot_remove_sentinel ;;; ret false
  else
    entry_prev <- get_prev entry ;;
    entry_next <- get_next entry ;;
    set_next entry_prev entry_next ;;;
    entry_next <- get_next entry ;;
    (match entry_next with
     | Some _ => entry_prev <- get_prev entry ;; set_prev entry_next entry_prev
     | None => ret tt
     end) ;;;
    v <- get_value entry ;;
    free v ;;;
    set_value entry NULL ;;;
    free entry ;;;
    ret true.

(** The second [while] loop of [print_list]. *)
Fixpoint print_loop (fuel : nat) (list_head : ptr) : Cmd unit :=
  match list_head with
  | None => ret tt
  | Some _ =>
      match fuel with
      | O => out_of_fuel
      | S fuel' =>
          v <- get_value list_head ;;
          s <- load_chars v ;;
          sentinel <- load_chars SENTINEL ;;
          (if negb (strcmp s sentinel =? 0) then print (Printed s) else ret tt) ;;;
          nx <- get_next list_head ;;
          print_loop fuel' nx
      end
  end.

Definition print_list (fuel : nat) (list_head : ptr) : Cmd unit :=
  nx <- get_next list_head ;;
  match nx with
  | None => print Empty_list
  | Some _ => print_loop fuel list_head ;;; print Newline
  end.

(** *** The table, as [main] drives it *)

(** [table[index]]. *)
Definition table_at (table : list ptr) (index : Z) : Cmd ptr :=
  if index <? 0 then fault
  else match table !! Z.to_nat index with
       | Some p => ret p
       | None => fault
       end.

(** The first loop of [main]: [n] more lists from index [i] on; [None] when
    [main] gives up with [return 1]. *)
Fixpoint create_lists (n : nat) (i : Z) : Cmd (option (list ptr)) :=
  match n with
  | O => ret (Some [])
  | S n' =>
      p <- create_list ;;
      match p with
      | None => print (Failed_create_at i) ;;; ret None
      | Some _ =>
          rest <- create_lists n' (i + 1) ;;
          ret (option_map (cons p) rest)
      end
  end.

Definition create_table : Cmd (option (list ptr)) :=
  create_lists (Z.to_nat TABLE_SIZE) 0.

(** Body of the insertion loop: [index = hash(name); insert_entry(table[index], name)]. *)
Definition table_insert (table : list ptr) (name : cstr) : Cmd bool :=
  let index := hash name in
  list_head <- table_at table index ;;
  insert_entry list_head name.

(** [find_entry(table[hash(name)], name)]. *)
Definition table_find (fuel : nat) (table : list ptr) (name : cstr) : Cmd ptr :=
  let index := hash name in
  list_head <- table_at table index ;;
  find_entry fuel list_head name.

(** Body of the removal loop; the result tells whether an entry was removed. *)
Definition table_remove (fuel : nat) (table : list ptr) (name : cstr) : Cmd bool :=
  element <- table_find fuel table name ;;
  match element with
  | Some _ =>
      ok <- remove_entry element ;;
      (if negb ok then print Could_not_remove else ret tt) ;;;
      ret ok
  | None => print No_such_entry ;;; ret false
  end.

(** What the removal loop prints for a name it does not find. *)
Definition not_found_messages (name : cstr) : list message :=
  (if bool_decide (name = SENTINEL_chars) then [Cannot_locate_sentinel] else [])
  ++ [No_such_entry].

(** The printing loops of [main]. *)
Fixpoint print_lists (fuel : nat) (table : list ptr) (i : Z) : Cmd unit :=
  match table with
  | [] => ret tt
  | p :: rest =>
      print (Bucket_label i) ;;;
      print_list fuel p ;;;
      print_lists fuel rest (i + 1)
  end.

Definition table_print (fuel : nat) (table : list ptr) : Cmd unit :=
  print_lists fuel table 0.

(** [delete_list]: the string of a node is released unless the node's value
    is the pointer [SENTINEL] itself, then the rest of the list, then the
    node.  [fuel] bounds the depth of the recursion. *)
Fixpoint delete_list (fuel : nat) (list_head : ptr) : Cmd unit :=
  match list_head with
  | None => ret tt
  | Some _ =>
      match fuel with
      | O => out_of_fuel
      | S fuel' =>
          v <- get_value list_head ;;
          (if bool_decide (v ≠ SENTINEL) then free v else ret tt) ;;;
          nx <- get_next list_head ;;
          delete_list fuel' nx ;;;
          free list_head
      end
  end.

(** The last loop of [main]: [delete_list(table[i])] for every index. *)
Fixpoint delete_lists (fuel : nat) (table : list ptr) : Cmd unit :=
  match table with
  | [] => ret tt
  | p :: rest => delete_list fuel p ;;; delete_lists fuel rest
  end.

(** The operations that a run applies to the table. *)
Inductive op :=
  | Insert (name : cstr)
  | Find (name : cstr)
  | Remove (name : cstr)
  | Display.

Definition run_op (fuel : nat) (table : list ptr) (o : op) : Cmd unit :=
  match o with
  | Insert name => table_insert table name ;;; ret tt
  | Find name => table_find fuel table name ;;; ret tt
  | Remove name => table_remove fuel table name ;;; ret tt
  | Display => table_print fuel table
  end.

(** Each operation comes with the fuel for its loops. *)
Fixpoint run_ops (table : list ptr) (os : list (nat * op)) : Cmd unit :=
  match os with
  | [] => ret tt
  | (fuel, o) :: os' => run_op fuel table o ;;; run_ops table os'
  end.

(** The insertion loop of [main] over the names read; the result tells
    whether every insertion returned [true]. *)
Fixpoint insert_all (table : list ptr) (names : list cstr) : Cmd bool :=
  match names with
  | [] => ret true
  | name :: names' =>
      ok <- table_insert table name ;;
      oks <- insert_all table names' ;;
      ret (ok && oks)
  end.

(** *** Observing a list

    [contents] walks a list like the loops of [find_entry] and [print_list]
    do and returns the strings of its nodes in list order; [bucket_values]
    skips the first node, the sentinel. *)

Fixpoint contents (fuel : nat) (list_head : ptr) : Cmd (list cstr) :=
  match list_head with
  | None => ret []
  | Some _ =>
      match fuel with
      | O => out_of_fuel
      | S fuel' =>
          v <- get_value list_head ;;
          s <- load_chars v ;;
          nx <- get_next list_head ;;
          rest <- contents fuel' nx ;;
          ret (s :: rest)
      end
  end.

Definition bucket_values (fuel : nat) (list_head : ptr) : Cmd (list cstr) :=
  nx <- get_next list_head ;;
  contents fuel nx.

(** What [print_list] is to print for a list with the values [vs]. *)
Definition rendering (vs : list cstr) : list message :=
  match vs with
  | [] => [Empty_list]
  | _ :: _ => map Printed vs ++ [Newline]
  end.

(** The values of all the buckets, in the order of the table. *)
Fixpoint table_values (fuel : nat) (table : list ptr) : Cmd (list (list cstr)) :=
  match table with
  | [] => ret []
  | p :: rest =>
      vs <- bucket_values fuel p ;;
      vss <- table_values fuel rest ;;
      ret (vs :: vss)
  end.

(** A string list without the first occurrence of [v]. *)
Fixpoint without_first (v : cstr) (vs : list cstr) : list cstr :=
  match vs with
  | [] => []
  | x :: vs' => if bool_decide (x = v) then vs' else x :: without_first v vs'
  end.

(** *** Representation of a bucket list in memory

    A bucket is described by the address of its sentinel node and the
    list of its cells in list order: for each node after the sentinel, its
    address, the address of its string and the characters stored there. *)

Record cell := mk_cell { c_node : loc; c_str : loc; c_val : cstr }.

Definition first (cs : list cell) : ptr :=
  match cs with
  | [] => NULL
  | c :: _ => Some (c_node c)
  end.

(** The nodes of [cs] are linked in this order after the node [pv]. *)
Fixpoint chain (h : gmap loc block) (pv : ptr) (cs : list cell) : Prop :=
  match cs with
  | [] => True
  | c :: cs' =>
      h !! c_node c = Some (Node (mk_node (Some (c_str c)) pv (first cs')))
      ∧ h !! c_str c = Some (Chars (c_val c))
      ∧ chain h (Some (c_node c)) cs'
  end.

Definition addrs (cs : list cell) : list loc :=
  flat_map (λ c, [c_node c; c_str c]) cs.

Definition bucket (h : gmap loc block) (head : loc) (cs : list cell) : Prop :=
  h !! head = Some (Node (mk_node SENTINEL NULL (first cs)))
  ∧ chain h (Some head) cs.

Definition values (cs : list cell) : list cstr := map c_val cs.

(** The first cell holding [v], as [find_entry] meets it. *)
Definition first_match (v : cstr) (cs : list cell) : option cell :=
  List.find (λ c, bool_decide (c_val c = v)) cs.

(** [cs] without its first cell holding [v]. *)
Fixpoint remove_first (v : cstr) (cs : list cell) : list cell :=
  match cs with
  | [] => []
  | c :: cs' => if bool_decide (c_val c = v) then cs' else c :: remove_first v cs'
  end.

(** The memory after [insert_entry] has linked the cell [c] behind [head],
    in front of the cells [cs]. *)
Definition linked (h : gmap loc block) (head : loc) (c : cell) (cs : list cell)
  : gmap loc block :=
  let h1 := <[c_node c := Node (mk_node (Some (c_str c)) (Some head) (first cs))]>
              (<[c_str c := Chars (c_val c)]>
                 (<[c_str c := Uninit]> (<[c_node c := Uninit]> h))) in
  let h2 := match cs with
            | [] => h1
            | c1 :: cs' =>
                <[c_node c1 :=
                    Node (mk_node (Some (c_str c1)) (Some (c_node c)) (first cs'))]> h1
            end in
  <[head := Node (mk_node SENTINEL NULL (Some (c_node c)))]> h2.

(** The memory after [remove_entry] has unlinked the cell [c], whose
    predecessor is the node [np] at [p], from before the cells [post]. *)
Definition unlinked (h : gmap loc block) (p : loc) (np : node) (c : cell)
    (post : list cell) : gmap loc block :=
  let h1 := <[p := Node (mk_node (value np) (prev np) (first post))]> h in
  let h2 := match post with
            | [] => h1
            | c1 :: post' =>
                <[c_node c1 := Node (mk_node (Some (c_str c1)) (Some p) (first post'))]> h1
            end in
  let h3 := delete (c_str c) h2 in
  let h4 := <[c_node c := Node (mk_node NULL (Some p) (first post))]> h3 in
  delete (c_node c) h4.

(** The node before the cell that follows [pre], in a chain after [q]. *)
Definition last_node (q : loc) (pre : list cell) : loc :=
  default q (c_node <$> last pre).

(** Computations that leave the memory, the allocator and the log of
    releases as they are. *)
Definition reads_only {A} (m : Cmd A) : Prop :=
  ∀ s a s', m s = Ret a s' →
    heap s' = heap s ∧ allocs s' = allocs s ∧ freed s' = freed s.

(** Every address the table occupies: the literal, the sentinels, and the
    nodes and strings of the buckets. *)
Definition footprint (heads : list loc) (css : list (list cell)) : list loc :=
  SENTINEL_addr :: heads ++ concat (map addrs css).

(** The table [table] is laid out in the memory [h] with the sentinels
    [heads] and the bucket contents [css]: the blocks are pairwise distinct,
    no stored string is the marker, every string sits in the bucket of its
    hash, and nothing else is live. *)
Record table_rep (h : gmap loc block) (table : list ptr)
    (heads : list loc) (css : list (list cell)) : Prop := mk_table_rep {
  rep_table : table = map Some heads;
  rep_size : length heads = Z.to_nat TABLE_SIZE;
  rep_marker : h !! SENTINEL_addr = Some (Chars SENTINEL_chars);
  rep_buckets : Forall2 (bucket h) heads css;
  rep_separate : NoDup (footprint heads css);
  rep_user : ∀ i cs c, css !! i = Some cs → c ∈ cs → c_val c ≠ SENTINEL_chars;
  rep_hash : ∀ i cs c, css !! i = Some cs → c ∈ cs → hash (c_val c) = Z.of_nat i;
  rep_live : ∀ l, is_Some (h !! l) ↔ l ∈ footprint heads css
}.

(** A state in which [table] is a well-formed table. *)
Definition valid (s : St) (table : list ptr) : Prop :=
  ∃ heads css, table_rep (heap s) table heads css.

(** The states that a run of the program can be in: after the creation of the
    table and any sequence of operations. *)
Definition reachable (table : list ptr) (s : St) : Prop :=
  ∃ future os s0,
    create_table (initial future) = Ret (Some table) s0
    ∧ run_ops table os s0 = Ret tt s.

(** *** Concrete runs

    A run of the program in which [malloc] hands out the addresses 2, 3, ...
    in turn: the five sentinels sit at 2 to 6. *)

Definition demo_future : list ptr :=
  map Some [2; 3; 4; 5; 6; 7; 8; 9; 10; 11; 12; 13; 14; 15; 16; 17]%positive.

Definition demo_table : list ptr := map Some [2; 3; 4; 5; 6]%positive.

Definition state_of {A} (r : result St A) : St :=
  match r with
  | Ret _ s => s
  | _ => initial []
  end.

Definition demo_fuel : nat := 8.

(** The state after the creation of the table and the operations [os]. *)
Definition demo_state (os : list op) : St :=
  state_of (run_ops demo_table (map (pair demo_fuel) os)
              (state_of (create_table (initial demo_future)))).

(** Insert "dup" twice, then find, remove, find, remove, find; the result
    lists the outcomes in this order. *)
Definition dup_scenario : Cmd (list bool) :=
  t <- create_table ;;
  match t with
  | None => fault
  | Some table =>
      i1 <- table_insert table (lit "dup") ;;
      i2 <- table_insert table (lit "dup") ;;
      f1 <- table_find demo_fuel table (lit "dup") ;;
      r1 <- table_remove demo_fuel table (lit "dup") ;;
      f2 <- table_find demo_fuel table (lit "dup") ;;
      r2 <- table_remove demo_fuel table (lit "dup") ;;
      f3 <- table_find demo_fuel table (lit "dup") ;;
      ret [i1; i2; bool_decide (f1 ≠ NULL); r1; bool_decide (f2 ≠ NULL); r2;
           bool_decide (f3 ≠ NULL)]
  end.

(** The memory after [delete_list] has gone through the cells [cs], and the
    order in which it released their blocks. *)
Fixpoint released (cs : list cell) (h : gmap loc block) : gmap loc block :=
  match cs with
  | [] => h
  | c :: cs' => delete (c_node c) (released cs' (delete (c_str c) h))
  end.

Fixpoint release_order (cs : list cell) : list loc :=
  match cs with
  | [] => []
  | c :: cs' => c_str c :: release_order cs' ++ [c_node c]
  end.

(** The same for the lists of a whole table. *)
Fixpoint released_table (heads : list loc) (css : list (list cell))
    (h : gmap loc block) : gmap loc block :=
  match heads, css with
  | head :: heads', cs :: css' =>
      released_table heads' css' (delete head (released cs h))
  | _, _ => h
  end.

Fixpoint table_release_order (heads : list loc) (css : list (list cell)) : list loc :=
  match heads, css with
  | head :: heads', cs :: css' =>
      (release_order cs ++ [head]) ++ table_release_order heads' css'
  | _, _ => []
  end.

(** What the printing loop of [main] is to print for a table whose buckets
    hold [vss], from the index [i] on. *)
Fixpoint table_rendering (i : Z) (vss : list (list cstr)) : list message :=
  match vss with
  | [] => []
  | vs :: vss' => Bucket_label i :: rendering vs ++ table_rendering (i + 1) vss'
  end.

(** A run in which [malloc] fails after the creation of the table, succeeds
    once, and fails again. *)
Definition failing_future : list ptr :=
  map Some [2; 3; 4; 5; 6]%positive ++ [None; Some 7%positive; None].

Definition failing_state (os : list op) : St :=
  state_of (run_ops demo_table (map (pair demo_fuel) os)
              (state_of (create_table (initial failing_future)))).

(** A run in which the third list of the table cannot be allocated. *)
Definition short_future : list ptr := [Some 2%positive; Some 3%positive; None].

End HashTable.

(** ** doubly-linked-list.c *)

Module DoublyLinkedList.

Definition INT_MAX : Z := 2147483647.

(** [const int SENTINEL = INT_MAX;] *)
Definition SENTINEL : Z := INT_MAX.

(** [struct node], with an [int] value. *)
Record node := mk_node { value : Z; prev : ptr; next : ptr }.

Inductive block :=
  | Uninit
  | Node (n : node).

Inductive message :=
  | Failed_list_allocation
  | Cannot_insert_sentinel
  | Failed_node_allocation
  | Cannot_locate_sentinel
  | Cannot_remove_sentinel.

Abbreviation St := (state block message).
Abbreviation Cmd := (M block message).

Definition initial (future : list ptr) : St := mk_state ∅ future [] [].

Definition load_node (p : ptr) : Cmd node :=
  b <- load p ;;
  match b with Node n => ret n | _ => fault end.

Definition get_value (p : ptr) : Cmd Z := n <- load_node p ;; ret (value n).
Definition get_prev (p : ptr) : Cmd ptr := n <- load_node p ;; ret (prev n).
Definition get_next (p : ptr) : Cmd ptr := n <- load_node p ;; ret (next n).

Definition set_prev (p v : ptr) : Cmd unit :=
  n <- load_node p ;; store p (Node (mk_node (value n) v (next n))).
Definition set_next (p v : ptr) : Cmd unit :=
  n <- load_node p ;; store p (Node (mk_node (value n) (prev n) v)).

Definition create_list : Cmd ptr :=
  new_list <- malloc Uninit ;;
  match new_list with
  | None => print Failed_list_allocation ;;; ret NULL
  | Some _ =>
      store new_list (Node (mk_node SENTINEL NULL NULL)) ;;;
      ret new_list
  end.

Definition insert_entry (list_head : ptr) (value : Z) : Cmd bool :=
  if value =? SENTINEL then
    print Cannot_insert_sentinel ;;; ret false
  else
    new_entry <- malloc Uninit ;;
    match new_entry with
    | None => print Failed_node_allocation ;;; ret false
    | Some _ =>
        head_next <- get_next list_head ;;
        store new_entry (Node (mk_node value list_head head_next)) ;;;
        entry_next <- get_next new_entry ;;
        (match entry_next with
         | Some _ => set_prev entry_next new_entry
         | None => ret tt
         end) ;;;
        set_next list_head new_entry ;;;
        ret true
    end.

Fixpoint find_loop (fuel : nat) (list_head : ptr) (value : Z) : Cmd ptr :=
  match list_head with
  | None => ret NULL
  | Some _ =>
      match fuel with
      | O => out_of_fuel
      | S fuel' =>
          v <- get_value list_head ;;
          if v =? value then ret list_head
          else
            nx <- get_next list_head ;;
            find_loop fuel' nx value
      end
  end.

Definition find_entry (fuel : nat) (list_head : ptr) (value : Z) : Cmd ptr :=
  if value =? SENTINEL then
    print Cannot_locate_sentinel ;;; ret NULL
  else find_loop fuel list_head value.

(** The last two statements are [entry = NULL; free(entry);], in this
    order: [free] receives the null pointer. *)
Definition remove_entry (entry : ptr) : Cmd bool :=
  v <- get_value entry ;;
  if v =? SENTINEL then
    print Cannot_remove_sentinel ;;; ret false
  else
    entry_prev <- get_prev entry ;;
    entry_next <- get_next entry ;;
    set_next entry_prev entry_next ;;;
    entry_next <- get_next entry ;;
    (match entry_next with
     | Some _ => entry_prev <- get_prev entry ;; set_prev entry_next entry_prev
     | None => ret tt
     end) ;;;
    let entry := NULL in
    free entry ;;;
    ret true.

(** The list made of the sentinel and one entry holding 7, whose entry is
    searched and removed; [malloc] hands out the addresses it is given. *)
Definition dll_demo : Cmd (ptr * ptr * bool) :=
  list_head <- create_list ;;
  insert_entry list_head 7 ;;;
  entry <- find_entry 4 list_head 7 ;;
  ok <- remove_entry entry ;;
  ret (list_head, entry, ok).

(** [delete_list]: the rest of the list is released first, then the node.
    [fuel] bounds the depth of the recursion. *)
Fixpoint delete_list (fuel : nat) (list_head : ptr) : Cmd unit :=
  match list_head with
  | None => ret tt
  | Some _ =>
      match fuel with
      | O => out_of_fuel
      | S fuel' =>
          nx <- get_next list_head ;;
          delete_list fuel' nx ;;;
          free list_head
      end
  end.

(** *** Observing a list

    [contents] walks the list like the loops of [find_entry] and
    [print_list] do and returns the values of the nodes in list order;
    [list_values] skips the first node, the sentinel. *)

Fixpoint contents (fuel : nat) (list_head : ptr) : Cmd (list Z) :=
  match list_head with
  | None => ret []
  | Some _ =>
      match fuel with
      | O => out_of_fuel
      | S fuel' =>
          v <- get_value list_head ;;
          nx <- get_next list_head ;;
          rest <- contents fuel' nx ;;
          ret (v :: rest)
      end
  end.

Definition list_values (fuel : nat) (list_head : ptr) : Cmd (list Z) :=
  nx <- get_next list_head ;;
  contents fuel nx.

(** A list of values without the first occurrence of [v]. *)
Fixpoint without_first (v : Z) (vs : list Z) : list Z :=
  match vs with
  | [] => []
  | x :: vs' => if x =? v then vs' else x :: without_first v vs'
  end.

(** *** The list, as a client drives it

    The operations on a list: an insertion, a search, and the removal of the
    entry that a search finds, which is how the second loop of [main] calls
    [remove_entry] (the messages that [main] itself prints are left out). *)
Inductive op :=
  | Insert (value : Z)
  | Find (value : Z)
  | Remove (value : Z).

Definition run_op (fuel : nat) (list_head : ptr) (o : op) : Cmd unit :=
  match o with
  | Insert value => insert_entry list_head value ;;; ret tt
  | Find value => find_entry fuel list_head value ;;; ret tt
  | Remove value =>
      entry <- find_entry fuel list_head value ;;
      match entry with
      | Some _ => remove_entry entry ;;; ret tt
      | None => ret tt
      end
  end.

(** Each operation comes with the fuel for its loop. *)
Fixpoint run_ops (list_head : ptr) (os : list (nat * op)) : Cmd unit :=
  match os with
  | [] => ret tt
  | (fuel, o) :: os' => run_op fuel list_head o ;;; run_ops list_head os'
  end.

(** The states that a client can bring a list to: after [create_list] has
    returned a list and any sequence of operations. *)
Definition reachable (list_head : ptr) (s : St) : Prop :=
  ∃ future os s0,
    create_list (initial future) = Ret list_head s0
    ∧ list_head ≠ NULL
    ∧ run_ops list_head os s0 = Ret tt s.

(** *** Representation of a list in memory

    A list is described by the address of its sentinel node and the list of
    its cells in list order: for each node after the sentinel, its address
    and its value. *)

Record cell := mk_cell { c_node : loc; c_val : Z }.

Definition first (cs : list cell) : ptr :=
  match cs with
  | [] => NULL
  | c :: _ => Some (c_node c)
  end.

(** The nodes of [cs] are linked in this order after the node [pv]. *)
Fixpoint chain (h : gmap loc block) (pv : ptr) (cs : list cell) : Prop :=
  match cs with
  | [] => True
  | c :: cs' =>
      h !! c_node c = Some (Node (mk_node (c_val c) pv (first cs')))
      ∧ chain h (Some (c_node c)) cs'
  end.

Definition nodes (cs : list cell) : list loc := map c_node cs.

Definition values (cs : list cell) : list Z := map c_val cs.

Definition is_list (h : gmap loc block) (head : loc) (cs : list cell) : Prop :=
  h !! head = Some (Node (mk_node SENTINEL NULL (first cs)))
  ∧ chain h (Some head) cs.

(** The first cell holding [v], as [find_entry] meets it. *)
Definition first_match (v : Z) (cs : list cell) : option cell :=
  List.find (λ c, c_val c =? v) cs.

(** The memory after [insert_entry] has linked the cell [c] behind [head],
    in front of the cells [cs]. *)
Definition linked (h : gmap loc block) (head : loc) (c : cell) (cs : list cell)
  : gmap loc block :=
  let h1 := <[c_node c := Node (mk_node (c_val c) (Some head) (first cs))]>
              (<[c_node c := Uninit]> h) in
  let h2 := match cs with
            | [] => h1
            | c1 :: cs' =>
                <[c_node c1 := Node (mk_node (c_val c1) (Some (c_node c)) (first cs'))]> h1
            end in
  <[head := Node (mk_node SENTINEL NULL (Some (c_node c)))]> h2.

(** The memory after [remove_entry] has unlinked a cell, whose predecessor
    is the node [np] at [p], from before the cells [post]: the cell itself
    is left as it is. *)
Definition unlinked (h : gmap loc block) (p : loc) (np : node) (post : list cell)
  : gmap loc block :=
  let h1 := <[p := Node (mk_node (value np) (prev np) (first post))]> h in
  match post with
  | [] => h1
  | c1 :: post' =>
      <[c_node c1 := Node (mk_node (c_val c1) (Some p) (first post'))]> h1
  end.

(** The node before the cell that follows [pre], in a chain after [q]. *)
Definition last_node (q : loc) (pre : list cell) : loc :=
  default q (c_node <$> last pre).

(** The list at [head] is laid out in the memory [h] with the cells [cs],
    next to the nodes [lost] that were unlinked from it: the blocks are
    pairwise distinct, no cell holds the sentinel value, and nothing else is
    live. *)
Record list_rep (h : gmap loc block) (head : loc) (cs : list cell)
    (lost : list loc) : Prop := mk_list_rep {
  rep_list : is_list h head cs;
  rep_separate : NoDup (head :: nodes cs ++ lost);
  rep_user : ∀ c, c ∈ cs → c_val c ≠ SENTINEL;
  rep_live : ∀ l, is_Some (h !! l) ↔ l ∈ head :: nodes cs ++ lost
}.

(** A state in which [list_head] is a well-formed list and nothing was
    released. *)
Definition valid (s : St) (list_head : ptr) : Prop :=
  ∃ head cs lost,
    list_head = Some head ∧ list_rep (heap s) head cs lost ∧ freed s = [].

(** The memory after [delete_list] has released the list at [head]. *)
Definition released (head : loc) (cs : list cell) (h : gmap loc block)
  : gmap loc block :=
  foldr delete h (head :: nodes cs).

(** *** Concrete runs

    A run in which [malloc] hands out the addresses 1, 2, ... in turn: the
    sentinel sits at 1. *)

Definition dll_future : list ptr :=
  map Some [1; 2; 3; 4; 5; 6; 7; 8]%positive.

Definition state_of {A} (r : result St A) : St :=
  match r with
  | Ret _ s => s
  | _ => initial []
  end.

Definition dll_fuel : nat := 8.

(** The state after the creation of the list and the operations [os]. *)
Definition dll_state (os : list op) : St :=
  state_of (run_ops (Some 1%positive) (map (pair dll_fuel) os)
              (state_of (create_list (initial dll_future)))).

(** The nodes of a list in list order, from [list_head] along the [next]
    pointers, as the recursion of [delete_list] meets them. *)
Fixpoint list_nodes (fuel : nat) (list_head : ptr) : Cmd (list loc) :=
  match list_head with
  | None => ret []
  | Some l =>
      match fuel with
      | O => out_of_fuel
      | S fuel' =>
          nx <- get_next list_head ;;
          rest <- list_nodes fuel' nx ;;
          ret (l :: rest)
      end
  end.

(** [entry] is a node that a removal has unlinked on the way to the state
    [s]: in a reachable state a search returned [entry], [remove_entry] on
    it returned [true], and the operations [os] then led to [s]. *)
Definition removed_node (list_head : ptr) (entry : loc) (s : St) : Prop :=
  ∃ (s0 s1 : St) (fuel : nat) (value : Z) (os : list (nat * op)),
    reachable list_head s0
    ∧ find_entry fuel list_head value s0 = Ret (Some entry) s0
    ∧ remove_entry (Some entry) s0 = Ret true s1
    ∧ run_ops list_head os s1 = Ret tt s.

End DoublyLinkedList.

(** ** trie.c

    A trie owns its sub-tries, so it is a tree: the in-place updates of
    [insert_entry] become the updated trie that the function returns next to
    its result.  [allocs] tells which of the coming calls of [malloc] succeed.
    An array access out of bounds yields [None]. *)

Module Trie.

Definition TRIE_PATHS : nat := 26.

(** [struct trie]: [paths] holds [TRIE_PATHS] pointers, [None] for a null
    one. *)
#[warnings="-register-all"]
Inductive trie := mk_trie (is_data : bool) (paths : list (option trie)).

Definition is_data (t : trie) : bool := let 'mk_trie d _ := t in d.
Definition paths (t : trie) : list (option trie) := let 'mk_trie _ ps := t in ps.

(** [isalpha], [isupper], [tolower] of the "C" locale. *)
Definition isupper (c : Z) : bool := (65 <=? c) && (c <=? 90).
Definition islower (c : Z) : bool := (97 <=? c) && (c <=? 122).
Definition isalpha (c : Z) : bool := isupper c || islower c.
Definition tolower (c : Z) : Z := if isupper c then c + 32 else c.

(** [malloc] followed by the initialisation of the new trie. *)
Definition create_trie (allocs : list bool) : option trie * list bool :=
  match allocs with
  | true :: rest => (Some (mk_trie false (replicate TRIE_PATHS None)), rest)
  | false :: rest => (None, rest)
  | [] => (None, [])
  end.

(** ['a'] is 97 and [%] truncates. *)
Definition get_alphabetical_index (c : Z) : Z :=
  if isalpha c then
    let c := if isupper c then tolower c else c in
    Z.rem c 97
  else -1.

Fixpoint insert_entry (allocs : list bool) (trie_root : trie) (value : cstr)
  : option (bool * trie * list bool) :=
  match value with
  | [] => Some (true, mk_trie true (paths trie_root), allocs)
  | c :: value' =>
      let index := get_alphabetical_index c in
      if index <? 0 then Some (false, trie_root, allocs)
      else
        match paths trie_root !! Z.to_nat index with
        | None => None
        | Some None =>
            match create_trie allocs with
            | (None, allocs) => Some (false, trie_root, allocs)
            | (Some new_trie, allocs) =>
                match insert_entry allocs new_trie value' with
                | Some (ok, sub, allocs) =>
                    Some (ok,
                          mk_trie (is_data trie_root)
                            (<[Z.to_nat index := Some sub]> (paths trie_root)),
                          allocs)
                | None => None
                end
            end
        | Some (Some next) =>
            match insert_entry allocs next value' with
            | Some (ok, sub, allocs) =>
                Some (ok,
                      mk_trie (is_data trie_root)
                        (<[Z.to_nat index := Some sub]> (paths trie_root)),
                      allocs)
            | None => None
            end
        end
  end.

(** The result is the trie element that marks the data, or a null pointer. *)
Fixpoint find_entry (trie_root : trie) (value : cstr) : option (option trie) :=
  match value with
  | [] => Some (if is_data trie_root then Some trie_root else None)
  | c :: value' =>
      let index := get_alphabetical_index c in
      if index <? 0 then Some None
      else
        match paths trie_root !! Z.to_nat index with
        | None => None
        | Some None => Some None
        | Some (Some next) => find_entry next value'
        end
  end.

(** The lower-case form of a string. *)
Definition lowercase (value : cstr) : cstr := map tolower value.

(** Every element of the trie has its [TRIE_PATHS] paths. *)
Inductive well_formed : trie → Prop :=
  | wf_trie d ps :
      length ps = TRIE_PATHS →
      (∀ i t, ps !! i = Some (Some t) → well_formed t) →
      well_formed (mk_trie d ps).

(** The trie that [create_trie] returns. *)
Definition empty_trie : trie := mk_trie false (replicate TRIE_PATHS None).

(** The test of [main], [find_entry(trie_root, value) != NULL]: whether the
    search finds [value]. *)
Definition contains (trie_root : trie) (value : cstr) : bool :=
  match find_entry trie_root value with
  | Some (Some _) => true
  | _ => false
  end.

(** The trie after [is_data = false] was written through the pointer that
    [find_entry (trie_root, value)] returns, the element at the end of the
    path of [value]. *)
Fixpoint clear_entry (trie_root : trie) (value : cstr) : trie :=
  match value with
  | [] => mk_trie false (paths trie_root)
  | c :: value' =>
      let index := get_alphabetical_index c in
      match paths trie_root !! Z.to_nat index with
      | Some (Some next) =>
          mk_trie (is_data trie_root)
            (<[Z.to_nat index := Some (clear_entry next value')]> (paths trie_root))
      | _ => trie_root
      end
  end.

(** [remove_entry]: the search, then the flag of the element found is
    cleared; no element is released. *)
Definition remove_entry (trie_root : trie) (value : cstr) : option (bool * trie) :=
  match find_entry trie_root value with
  | None => None
  | Some None => Some (false, trie_root)
  | Some (Some _) => Some (true, clear_entry trie_root value)
  end.

(** The first loop of [main]: the words read are inserted in turn; the
    result lists the outcomes of the insertions. *)
Fixpoint insert_words (allocs : list bool) (trie_root : trie) (words : list cstr)
  : option (list bool * trie * list bool) :=
  match words with
  | [] => Some ([], trie_root, allocs)
  | value :: words' =>
      match insert_entry allocs trie_root value with
      | None => None
      | Some (ok, trie_root, allocs) =>
          match insert_words allocs trie_root words' with
          | None => None
          | Some (oks, trie_root, allocs) => Some (ok :: oks, trie_root, allocs)
          end
      end
  end.

(** The words whose insertion returned [true]. *)
Fixpoint accepted (words : list cstr) (oks : list bool) : list cstr :=
  match words, oks with
  | value :: words', ok :: oks' =>
      if ok then value :: accepted words' oks' else accepted words' oks'
  | _, _ => []
  end.

(** The number of elements of a trie, the root included. *)
Fixpoint elements (t : trie) : nat :=
  let 'mk_trie _ ps := t in
  S (list_sum (map (λ o, match o with Some sub => elements sub | None => O end) ps)).

(** The number of elements that the path of [value] lacks in the trie: the
    calls of [create_trie] that [insert_entry (trie_root, value)] makes when
    none of them fails. *)
Fixpoint missing (trie_root : trie) (value : cstr) : nat :=
  match value with
  | [] => 0
  | c :: value' =>
      match paths trie_root !! Z.to_nat (get_alphabetical_index c) with
      | Some (Some next) => missing next value'
      | _ => length value
      end
  end.

(** The trie that holds [words]: they are inserted in turn in the trie that
    [create_trie] returns, and every allocation succeeds. *)
Definition trie_of (words : list cstr) : trie :=
  match insert_words (replicate (length (concat words)) true) empty_trie words with
  | Some (_, trie_root, _) => trie_root
  | None => empty_trie
  end.

End Trie.

(** * Proofs *)

(** ** Properties of the hash function *)

Lemma strcmp_refl (a : cstr) : strcmp a a = 0.
Proof. induction a as [|x a IH]; simpl; [done|]. by rewrite Z.eqb_refl. Qed.

Lemma strcmp_eq (a b : cstr) : strcmp a b = 0 ↔ a = b.
Proof.
  split; [|intros ->; apply strcmp_refl].
  revert b; induction a as [|x a IH]; intros [|y b]; simpl; try done.
  destruct (Z.eqb_spec x y) as [->|].
  - intros H. f_equal. by apply IH.
  - destruct (x <? y); done.
Qed.

Lemma strcmp_eqb (a b : cstr) : (strcmp a b =? 0) = bool_decide (a = b).
Proof.
  destruct (Z.eqb_spec (strcmp a b) 0) as [H|H].
  - symmetry. apply bool_decide_eq_true. by apply strcmp_eq.
  - symmetry. apply bool_decide_eq_false. intros E. by apply H, strcmp_eq.
Qed.

Lemma hash_step_spec (h c : Z) :
  HashTable.hash_step h c = (h * 33 + c) mod 2 ^ 64.
Proof.
  unfold HashTable.hash_step, HashTable.ulong, HashTable.ULONG_WIDTH.
  rewrite Z.shiftl_mul_pow2 by lia.
  rewrite <- Z.add_mod by lia.
  rewrite <- Z.add_assoc, Z.add_mod_idemp_l by lia.
  f_equal. lia.
Qed.

Lemma hash_loop_spec (str : cstr) (h : Z) :
  HashTable.hash_loop str h =
  fold_left (fun acc c => (acc * 33 + c) mod 2 ^ 64) str h.
Proof.
  revert h; induction str as [|c str IH]; intros h; simpl; [done|].
  by rewrite IH, hash_step_spec.
Qed.

Lemma hash_range (str : cstr) : 0 <= HashTable.hash str < HashTable.TABLE_SIZE.
Proof. unfold HashTable.hash, HashTable.TABLE_SIZE. apply Z.mod_pos_bound. lia. Qed.

Lemma chars_of_ascii (key : HashTable.bytes) :
  Forall (λ b, b < 128) key → HashTable.chars_of key = key.
Proof.
  induction 1 as [|b key Hb _ IH]; [done|].
  unfold HashTable.chars_of in *. cbn [map]. rewrite IH. f_equal.
  unfold HashTable.char_value. destruct (Z.ltb_spec b 128); [done|lia].
Qed.

(** C2, as the code has it: [hash] is the djb2 function (seed 5381,
    accumulator*33 + c wrapping at the 64 bits of the accumulator, reduced
    modulo the table size 5) over the values [c] that the loop reads, which
    are those of signed characters: a byte below 0x80 enters with its own
    value, a byte from 0x80 up with its value less 256.  On a key of bytes
    below 0x80 [hash] is therefore the byte-wise reference.  It is a
    function of the key alone, and its result is a valid bucket index. *)
Theorem hash_is_djb2_of_chars (key : HashTable.bytes) :
  HashTable.hash (HashTable.chars_of key)
  = fold_left (λ acc b, (acc * 33 + HashTable.char_value b) mod 2 ^ 64) key 5381 mod 5
  ∧ (Forall (λ b, b < 128) key →
     HashTable.hash (HashTable.chars_of key) = HashTable.djb2_spec key)
  ∧ (∀ key' : HashTable.bytes, key' = key →
       HashTable.hash (HashTable.chars_of key') = HashTable.hash (HashTable.chars_of key))
  ∧ 0 <= HashTable.hash (HashTable.chars_of key) < 5.
Proof.
  split; [|split; [|split]].
  - unfold HashTable.hash, HashTable.TABLE_SIZE. rewrite hash_loop_spec. f_equal.
    unfold HashTable.chars_of. generalize 5381.
    induction key as [|b key IH]; intros acc; [done|]. cbn [map fold_left]. apply IH.
  - intros Hkey. rewrite (chars_of_ascii key Hkey).
    unfold HashTable.hash, HashTable.djb2_spec, HashTable.TABLE_SIZE.
    by rewrite hash_loop_spec.
  - by intros key' ->.
  - apply hash_range.
Qed.

Lemma hash_is_djb2_of_chars_witness :
  HashTable.hash (HashTable.chars_of (lit "alice")) = HashTable.djb2_spec (lit "alice")
  ∧ HashTable.hash (HashTable.chars_of [99; 97; 102; 233])
    = fold_left (λ acc b, (acc * 33 + HashTable.char_value b) mod 2 ^ 64)
        [99; 97; 102; 233] 5381 mod 5.
Proof.
  destruct (hash_is_djb2_of_chars (lit "alice")) as (_ & H & _).
  destruct (hash_is_djb2_of_chars [99; 97; 102; 233]) as (H' & _).
  split; [apply H; vm_compute; repeat constructor|exact H'].
Defined.

(** The key of the one byte 0xe9: [hash] reads -23 and returns 0, the
    byte-wise reference adds 233 and gives 1. *)
Lemma hash_not_bytewise :
  HashTable.chars_of [233] = [-23]
  ∧ HashTable.hash (HashTable.chars_of [233]) = 0
  ∧ HashTable.djb2_spec [233] = 1
  ∧ HashTable.hash (HashTable.chars_of [233]) ≠ HashTable.djb2_spec [233].
Proof. split_and!; [reflexivity|reflexivity|reflexivity|]. vm_compute. discriminate. Qed.

(** ** The monad *)

Section MonadFacts.
Context {B O : Type}.
Implicit Types s : state B O.

Lemma bind_Ret {A A'} (m : M B O A) (k : A → M B O A') s a s' r :
  m s = Ret a s' → k a s' = r → bind m k s = r.
Proof. unfold bind. by intros -> ->. Qed.

Lemma bind_Ret_eq {A A'} (m : M B O A) (k : A → M B O A') s a s' :
  m s = Ret a s' → bind m k s = k a s'.
Proof. unfold bind. by intros ->. Qed.

Lemma bind_inv {A A'} (m : M B O A) (k : A → M B O A') s b s'' :
  bind m k s = Ret b s'' → ∃ a s', m s = Ret a s' ∧ k a s' = Ret b s''.
Proof. unfold bind. destruct (m s) as [a s'| |]; [eauto|done|done]. Qed.

Lemma bind_bind {A A' A''} (m : M B O A) (f : A → M B O A') (k : A' → M B O A'') s :
  bind (bind m f) k s = bind m (λ x, bind (f x) k) s.
Proof. unfold bind. by destruct (m s). Qed.

Lemma load_live (l : loc) (b : B) s :
  heap s !! l = Some b → load (O:=O) (Some l) s = Ret b s.
Proof. unfold load. by intros ->. Qed.

Lemma store_live (l : loc) (b b0 : B) s :
  heap s !! l = Some b0 →
  store (Some l) b s = Ret tt (set_heap s (<[l := b]> (heap s))).
Proof. unfold store. by intros ->. Qed.

Lemma malloc_fresh (u : B) (l : loc) rest s :
  allocs s = Some l :: rest → heap s !! l = None →
  malloc u s = Ret (Some l) (mk_state (<[l := u]> (heap s)) rest (freed s) (output s)).
Proof. unfold malloc. by intros -> ->. Qed.

Lemma free_live (l : loc) (b : B) s :
  heap s !! l = Some b →
  free (Some l) s
  = Ret tt (mk_state (delete l (heap s)) (allocs s) (freed s ++ [l]) (output s)).
Proof. unfold free. by intros ->. Qed.
End MonadFacts.

(** ** hash_table.c: the list and the table *)

Section HashTableFacts.
Import HashTable.

Lemma load_node_live (l : loc) (n : node) (s : St) :
  heap s !! l = Some (Node n) → load_node (Some l) s = Ret n s.
Proof. intros H. unfold load_node. eapply bind_Ret; [by apply load_live|done]. Qed.

Lemma load_chars_live (l : loc) (v : cstr) (s : St) :
  heap s !! l = Some (Chars v) → load_chars (Some l) s = Ret v s.
Proof. intros H. unfold load_chars. eapply bind_Ret; [by apply load_live|done]. Qed.

Lemma get_value_live (l : loc) (n : node) (s : St) :
  heap s !! l = Some (Node n) → get_value (Some l) s = Ret (value n) s.
Proof. intros H. unfold get_value. eapply bind_Ret; [by apply load_node_live|done]. Qed.

Lemma get_prev_live (l : loc) (n : node) (s : St) :
  heap s !! l = Some (Node n) → get_prev (Some l) s = Ret (prev n) s.
Proof. intros H. unfold get_prev. eapply bind_Ret; [by apply load_node_live|done]. Qed.

Lemma get_next_live (l : loc) (n : node) (s : St) :
  heap s !! l = Some (Node n) → get_next (Some l) s = Ret (next n) s.
Proof. intros H. unfold get_next. eapply bind_Ret; [by apply load_node_live|done]. Qed.

Lemma set_value_live (l : loc) (n : node) (v : ptr) (s : St) :
  heap s !! l = Some (Node n) →
  set_value (Some l) v s
  = Ret tt (set_heap s (<[l := Node (mk_node v (prev n) (next n))]> (heap s))).
Proof.
  intros H. unfold set_value.
  eapply bind_Ret; [by apply load_node_live|]. by eapply store_live.
Qed.

Lemma set_prev_live (l : loc) (n : node) (v : ptr) (s : St) :
  heap s !! l = Some (Node n) →
  set_prev (Some l) v s
  = Ret tt (set_heap s (<[l := Node (mk_node (value n) v (next n))]> (heap s))).
Proof.
  intros H. unfold set_prev.
  eapply bind_Ret; [by apply load_node_live|]. by eapply store_live.
Qed.

Lemma set_next_live (l : loc) (n : node) (v : ptr) (s : St) :
  heap s !! l = Some (Node n) →
  set_next (Some l) v s
  = Ret tt (set_heap s (<[l := Node (mk_node (value n) (prev n) v)]> (heap s))).
Proof.
  intros H. unfold set_next.
  eapply bind_Ret; [by apply load_node_live|]. by eapply store_live.
Qed.

Lemma strcmp_at_live (l : loc) (a b : cstr) (s : St) :
  heap s !! l = Some (Chars a) → strcmp_at (Some l) b s = Ret (strcmp a b) s.
Proof. intros H. unfold strcmp_at. eapply bind_Ret; [by apply load_chars_live|done]. Qed.

Lemma strcmp_neq (a b : cstr) : a ≠ b → (strcmp a b =? 0) = false.
Proof. intros H. rewrite strcmp_eqb. by apply bool_decide_eq_false. Qed.

Lemma strcmp_same (a : cstr) : (strcmp a a =? 0) = true.
Proof. by rewrite strcmp_refl. Qed.

(** Lookups in a memory after updates. *)
Ltac lookup_now :=
  cbn [heap allocs freed output set_heap];
  repeat first
    [ rewrite lookup_insert_eq
    | rewrite lookup_insert_ne by congruence
    | rewrite lookup_delete_ne by congruence ];
  first [ eassumption | reflexivity | done ].

(** The same, leaving alone a lookup whose address is not known yet. *)
Ltac lookup :=
  lazymatch goal with
  | |- _ !! ?l = _ => tryif is_evar l then idtac else lookup_now
  | |- _ => lookup_now
  end.

Ltac tidy := unfold set_heap; cbn [heap allocs freed output value prev next].

(** [step lem] runs the first statement of the computation in the goal by the
    equation [lem]; [step lem in H] does so in the hypothesis [H]. *)
Tactic Notation "step" uconstr(lem) "in" hyp(H) :=
  erewrite bind_Ret_eq in H by (eapply lem; lookup; lookup);
  cbn beta iota in H; unfold set_heap in H;
  cbn [heap allocs freed output value prev next] in H.

Tactic Notation "step" uconstr(lem) :=
  eapply bind_Ret; [ solve [ eapply lem; lookup; lookup ] | cbn beta iota; tidy ].

(** [insert_entry] when both allocations succeed. *)
Lemma insert_entry_run (s : St) (head a b : loc) (v : cstr) (cs : list cell) rest :
  heap s !! SENTINEL_addr = Some (Chars SENTINEL_chars) →
  bucket (heap s) head cs →
  v ≠ SENTINEL_chars →
  allocs s = Some a :: Some b :: rest →
  heap s !! a = None → heap s !! b = None → a ≠ b →
  insert_entry (Some head) v s
  = Ret true (mk_state (linked (heap s) head (mk_cell a b v) cs) rest (freed s) (output s)).
Proof.
  intros Hm [Hhead Hchain] Hv Hal Ha Hb Hab.
  unfold insert_entry.
  step load_chars_live. rewrite strcmp_neq by done.
  step malloc_fresh.
  step malloc_fresh.
  step store_live.
  step get_next_live.
  step store_live.
  step get_next_live.
  destruct cs as [|c1 cs']; cbn [first].
  - eapply bind_Ret; [reflexivity|]. cbn beta.
    step set_next_live.
    reflexivity.
  - destruct Hchain as (Hc1 & Hs1 & Hrest).
    step set_prev_live.
    step set_next_live.
    reflexivity.
Qed.

(** ** Chains *)

Lemma chain_frame (h h' : gmap loc block) pv cs :
  (∀ l, l ∈ addrs cs → h' !! l = h !! l) → chain h pv cs → chain h' pv cs.
Proof.
  revert pv; induction cs as [|c cs IH]; intros pv Hsame; [done|].
  intros (Hn & Hs & Hrest). cbn [chain]. split_and!.
  - rewrite Hsame; [done|]. cbn. set_solver.
  - rewrite Hsame; [done|]. cbn. set_solver.
  - apply IH; [|done]. intros l Hl. apply Hsame. cbn. set_solver.
Qed.

Lemma chain_node (h : gmap loc block) pv cs l :
  chain h pv cs → l ∈ addrs cs → is_Some (h !! l).
Proof.
  revert pv; induction cs as [|c cs IH]; intros pv; cbn; [set_solver|].
  intros (Hn & Hs & Hrest) Hl.
  apply elem_of_cons in Hl as [->|Hl]; [eauto|].
  apply elem_of_cons in Hl as [->|Hl]; [eauto|].
  by eapply IH.
Qed.

Lemma bucket_live (h : gmap loc block) head cs l :
  bucket h head cs → l ∈ head :: addrs cs → is_Some (h !! l).
Proof.
  intros [Hh Hc] [->|Hl]%elem_of_cons; [eauto|]. by eapply chain_node.
Qed.

Lemma bucket_frame (h h' : gmap loc block) head cs :
  (∀ l, l ∈ head :: addrs cs → h' !! l = h !! l) →
  bucket h head cs → bucket h' head cs.
Proof.
  intros Hsame [Hh Hc]. split.
  - rewrite Hsame; [done|]. set_solver.
  - eapply chain_frame; [|done]. intros l Hl. apply Hsame. set_solver.
Qed.

Lemma addrs_app (xs ys : list cell) : addrs (xs ++ ys) = addrs xs ++ addrs ys.
Proof. unfold addrs. by rewrite flat_map_app. Qed.

Lemma addrs_cons (c : cell) (cs : list cell) :
  addrs (c :: cs) = c_node c :: c_str c :: addrs cs.
Proof. done. Qed.

(** ** Insertion into a bucket *)

Lemma linked_frame (h : gmap loc block) head c cs l :
  l ≠ head → l ≠ c_node c → l ≠ c_str c → first cs ≠ Some l →
  linked h head c cs !! l = h !! l.
Proof.
  intros H1 H2 H3 H4. unfold linked.
  rewrite lookup_insert_ne by done.
  destruct cs as [|c1 cs'].
  - by rewrite !lookup_insert_ne by done.
  - cbn in H4. rewrite lookup_insert_ne by congruence.
    by rewrite !lookup_insert_ne by done.
Qed.

Lemma linked_dom (h : gmap loc block) head c cs :
  bucket h head cs →
  dom (linked h head c cs) = {[c_node c; c_str c]} ∪ dom h.
Proof.
  intros [Hh Hc]. unfold linked.
  assert (head ∈ dom h) by (apply elem_of_dom; eauto).
  destruct cs as [|c1 cs'].
  - rewrite !dom_insert_L. set_solver.
  - destruct Hc as (Hn & _).
    assert (c_node c1 ∈ dom h) by (apply elem_of_dom; eauto).
    rewrite !dom_insert_L. set_solver.
Qed.

Lemma bucket_linked (h : gmap loc block) head a b v cs :
  bucket h head cs →
  NoDup (head :: addrs cs) →
  h !! a = None → h !! b = None → a ≠ b →
  bucket (linked h head (mk_cell a b v) cs) head (mk_cell a b v :: cs).
Proof.
  intros [Hh Hc] Hnd Ha Hb Hab.
  assert (Hah : a ≠ head) by congruence.
  assert (Hbh : b ≠ head) by congruence.
  split; [unfold linked; by rewrite lookup_insert_eq|].
  destruct cs as [|c1 cs'].
  - unfold linked; cbn. split_and!; [|by lookup_now|done].
    rewrite lookup_insert_ne by done. by rewrite lookup_insert_eq.
  - destruct Hc as (Hn1 & Hs1 & Hrest).
    rewrite addrs_cons in Hnd.
    apply NoDup_cons in Hnd as [Hhead Hnd].
    apply NoDup_cons in Hnd as [Hn Hnd].
    apply NoDup_cons in Hnd as [Hs Hnd].
    assert (c_node c1 ≠ head) by set_solver.
    assert (c_str c1 ≠ head) by set_solver.
    assert (c_str c1 ≠ c_node c1) by set_solver.
    assert (a ≠ c_node c1) by congruence.
    assert (b ≠ c_node c1) by congruence.
    assert (a ≠ c_str c1) by congruence.
    assert (b ≠ c_str c1) by congruence.
    unfold linked; cbn [chain c_node c_str c_val first].
    split_and!; try by lookup_now.
    eapply chain_frame; [|done]. intros l Hl.
    assert (is_Some (h !! l)) as [bl Hbl] by by eapply chain_node.
    assert (l ≠ head) by set_solver.
    assert (l ≠ c_node c1) by set_solver.
    assert (l ≠ a) by congruence.
    assert (l ≠ b) by congruence.
    by rewrite !lookup_insert_ne by done.
Qed.

(** ** Search in a bucket *)

Lemma find_loop_chain (s : St) pv cs v fuel :
  chain (heap s) pv cs → (length cs ≤ fuel)%nat →
  find_loop fuel (first cs) v s = Ret (c_node <$> first_match v cs) s.
Proof.
  revert pv fuel; induction cs as [|c cs IH]; intros pv fuel Hc Hfuel.
  - by destruct fuel.
  - destruct Hc as (Hn & Hs & Hrest).
    destruct fuel as [|fuel]; [cbn in Hfuel; lia|].
    cbn [first find_loop].
    step get_value_live.
    step strcmp_at_live.
    unfold first_match. cbn [List.find]. rewrite strcmp_eqb.
    case_bool_decide; [done|].
    step get_next_live.
    erewrite IH; [done|done|]. cbn in Hfuel. lia.
Qed.

Lemma find_entry_bucket (s : St) head cs v fuel :
  heap s !! SENTINEL_addr = Some (Chars SENTINEL_chars) →
  bucket (heap s) head cs →
  v ≠ SENTINEL_chars →
  (length cs < fuel)%nat →
  find_entry fuel (Some head) v s = Ret (c_node <$> first_match v cs) s.
Proof.
  intros Hm [Hh Hc] Hv Hfuel. unfold find_entry.
  step load_chars_live. rewrite strcmp_neq by done.
  destruct fuel as [|fuel]; [lia|]. cbn [find_loop].
  step get_value_live.
  eapply bind_Ret; [by apply strcmp_at_live|]. cbn beta.
  rewrite strcmp_neq by done.
  step get_next_live.
  eapply find_loop_chain; [done|lia].
Qed.

Lemma find_entry_sentinel (s : St) p fuel :
  heap s !! SENTINEL_addr = Some (Chars SENTINEL_chars) →
  find_entry fuel p SENTINEL_chars s
  = Ret NULL (mk_state (heap s) (allocs s) (freed s)
                (output s ++ [Cannot_locate_sentinel])).
Proof.
  intros Hm. unfold find_entry.
  step load_chars_live. by rewrite strcmp_same.
Qed.

Lemma first_match_Some v cs c :
  first_match v cs = Some c → (c ∈ cs) ∧ c_val c = v.
Proof.
  unfold first_match. intros H. apply find_some in H as [Hin Hv].
  split; [by apply list_elem_of_In|]. by apply bool_decide_eq_true in Hv.
Qed.

Lemma first_match_None v cs :
  first_match v cs = None ↔ v ∉ values cs.
Proof.
  unfold first_match, values. induction cs as [|c cs IH]; cbn.
  - split; [set_solver|done].
  - case_bool_decide; [split; [done|set_solver]|].
    rewrite IH. set_solver.
Qed.

Lemma first_match_split v cs c :
  first_match v cs = Some c →
  ∃ pre post, cs = pre ++ c :: post ∧ (v ∉ values pre) ∧ c_val c = v
              ∧ remove_first v cs = pre ++ post.
Proof.
  unfold first_match. induction cs as [|c0 cs IH]; cbn; [done|].
  case_bool_decide as Hc0.
  - intros [= ->]. exists [], cs. split_and!; [done|set_solver|done|done].
  - intros H. destruct (IH H) as (pre & post & -> & Hpre & Hv & Hrm).
    exists (c0 :: pre), post. split_and!; [done| |done|].
    + unfold values in *. set_solver.
    + cbn. by rewrite Hrm.
Qed.

(** ** Removal from a bucket *)

Lemma remove_entry_run (s : St) (p : loc) (np : node) (c : cell) (post : list cell) :
  heap s !! SENTINEL_addr = Some (Chars SENTINEL_chars) →
  heap s !! p = Some (Node np) →
  chain (heap s) (Some p) (c :: post) →
  NoDup (p :: addrs (c :: post)) →
  c_val c ≠ SENTINEL_chars →
  remove_entry (Some (c_node c)) s
  = Ret true (mk_state (unlinked (heap s) p np c post) (allocs s)
                (freed s ++ [c_str c; c_node c]) (output s)).
Proof.
  intros Hm Hp (Hn & Hs & Hrest) Hnd Hv.
  rewrite addrs_cons in Hnd.
  apply NoDup_cons in Hnd as [Hp' Hnd].
  apply NoDup_cons in Hnd as [Hn' Hnd].
  apply NoDup_cons in Hnd as [Hs' Hnd].
  assert (c_node c ≠ p) by set_solver.
  assert (c_str c ≠ p) by set_solver.
  assert (c_str c ≠ c_node c) by set_solver.
  unfold remove_entry.
  step get_value_live.
  step load_chars_live.
  step strcmp_at_live. rewrite strcmp_neq by done.
  step get_prev_live.
  step get_next_live.
  step set_next_live.
  step get_next_live.
  destruct post as [|c1 post']; cbn [first].
  - eapply bind_Ret; [reflexivity|]. cbn beta.
    step get_value_live.
    step free_live.
    eapply bind_Ret; [eapply set_value_live; lookup_now|]. cbn beta; tidy.
    step free_live.
    unfold ret, unlinked. cbn [first]. by rewrite <- app_assoc.
  - destruct Hrest as (Hn1 & Hs1 & Hrest).
    rewrite addrs_cons in *.
    assert (c_node c1 ≠ p) by set_solver.
    assert (c_node c1 ≠ c_node c) by set_solver.
    assert (c_node c1 ≠ c_str c) by set_solver.
    rewrite bind_bind.
    step get_prev_live.
    step set_prev_live.
    step get_value_live.
    step free_live.
    eapply bind_Ret; [eapply set_value_live; lookup_now|]. cbn beta; tidy.
    step free_live.
    unfold ret, unlinked. cbn [first]. by rewrite <- app_assoc.
Qed.

Lemma last_node_cons q c0 pre : last_node q (c0 :: pre) = last_node (c_node c0) pre.
Proof.
  unfold last_node. destruct pre as [|c1 pre]; [done|].
  rewrite last_cons_cons.
  destruct (last (c1 :: pre)) eqn:E; [done|]. by apply last_None in E.
Qed.

Lemma last_node_elem q pre : last_node q pre ∈ q :: map c_node pre.
Proof.
  revert q; induction pre as [|c0 pre IH]; intros q.
  - cbn. set_solver.
  - rewrite last_node_cons. specialize (IH (c_node c0)). set_solver.
Qed.

Lemma node_in_addrs (c : cell) cs : c ∈ cs → c_node c ∈ addrs cs.
Proof.
  induction cs as [|c0 cs IH]; [set_solver|].
  rewrite addrs_cons. intros [->|H]%elem_of_cons; set_solver.
Qed.

Lemma str_in_addrs (c : cell) cs : c ∈ cs → c_str c ∈ addrs cs.
Proof.
  induction cs as [|c0 cs IH]; [set_solver|].
  rewrite addrs_cons. intros [->|H]%elem_of_cons; set_solver.
Qed.

Lemma map_node_addrs l cs : l ∈ map c_node cs → l ∈ addrs cs.
Proof.
  intros (c & -> & Hc)%list_elem_of_fmap. by apply node_in_addrs.
Qed.

Lemma first_in_addrs l cs : first cs = Some l → l ∈ addrs cs.
Proof. destruct cs as [|c cs]; [done|]. intros [= <-]. rewrite addrs_cons. set_solver. Qed.

Lemma last_node_in q pre : last_node q pre ∈ q :: addrs pre.
Proof.
  pose proof (last_node_elem q pre) as [->|H]%elem_of_cons; [set_solver|].
  apply map_node_addrs in H. set_solver.
Qed.

Lemma chain_node_at (h : gmap loc block) pv pre c post :
  chain h pv (pre ++ c :: post) →
  ∃ pv', h !! c_node c = Some (Node (mk_node (Some (c_str c)) pv' (first post)))
         ∧ h !! c_str c = Some (Chars (c_val c))
         ∧ chain h pv' (c :: post).
Proof.
  revert pv; induction pre as [|c0 pre IH]; intros pv; cbn [app].
  - intros (Hn & Hs & Hrest). exists pv. by split_and!.
  - intros (_ & _ & Hrest). by eapply IH.
Qed.

Lemma chain_pred (h : gmap loc block) q pre c post :
  chain h (Some q) (pre ++ c :: post) →
  chain h (Some (last_node q pre)) (c :: post)
  ∧ (pre ≠ [] → ∃ np, h !! last_node q pre = Some (Node np)
                      ∧ next np = Some (c_node c)).
Proof.
  revert q; induction pre as [|c0 pre IH]; intros q; cbn [app].
  - intros H. split; [done|done].
  - intros (Hn & Hs & Hrest). rewrite last_node_cons.
    destruct (IH _ Hrest) as [Hc Hp]. split; [done|]. intros _.
    destruct pre as [|c1 pre]; [|by apply Hp].
    cbn in *. eauto.
Qed.

Lemma chain_unlinked (h h' : gmap loc block) q pre c post :
  chain h (Some q) (pre ++ c :: post) →
  NoDup (q :: addrs (pre ++ c :: post)) →
  (∀ l, l ∈ addrs (pre ++ post) → l ≠ last_node q pre → first post ≠ Some l →
        h' !! l = h !! l) →
  (∀ np, h !! last_node q pre = Some (Node np) →
         h' !! last_node q pre
         = Some (Node (mk_node (value np) (prev np) (first post)))) →
  (∀ c1 post', post = c1 :: post' →
         h' !! c_node c1
         = Some (Node (mk_node (Some (c_str c1)) (Some (last_node q pre)) (first post')))) →
  chain h' (Some q) (pre ++ post).
Proof.
  revert q; induction pre as [|c0 pre IH]; intros q Hc Hnd Hframe Hpred Hsucc.
  - cbn [app] in *. unfold last_node in *; cbn in Hframe, Hpred, Hsucc.
    destruct Hc as (Hn & Hs & Hrest).
    destruct post as [|c1 post']; [done|].
    destruct Hrest as (Hn1 & Hs1 & Hrest).
    rewrite !addrs_cons in Hnd.
    apply NoDup_cons in Hnd as [Hq Hnd].
    apply NoDup_cons in Hnd as [Hcn Hnd].
    apply NoDup_cons in Hnd as [Hcs Hnd].
    apply NoDup_cons in Hnd as [Hc1n Hnd].
    apply NoDup_cons in Hnd as [Hc1s Hnd].
    cbn [chain]. split_and!.
    + by eapply Hsucc.
    + rewrite Hframe; [done| | |].
      * rewrite addrs_cons. set_solver.
      * set_solver.
      * cbn. intros [= E]. set_solver.
    + eapply chain_frame; [|done]. intros l Hl. apply Hframe.
      * rewrite addrs_cons. set_solver.
      * set_solver.
      * cbn. intros [= E]. set_solver.
  - cbn [app] in *. rewrite last_node_cons in *.
    destruct Hc as (Hn & Hs & Hrest).
    rewrite addrs_cons in Hnd.
    apply NoDup_cons in Hnd as [Hq Hnd].
    apply NoDup_cons in Hnd as [Hcn Hnd].
    apply NoDup_cons in Hnd as [Hcs Hnd].
    pose proof (last_node_in (c_node c0) pre) as Hlast.
    rewrite addrs_app, addrs_cons in Hq, Hcn, Hcs.
    assert (Hpost : ∀ l, first post = Some l → l ∈ addrs post)
      by (intros l; apply first_in_addrs).
    assert (Hsub : ∀ l, l ∈ addrs (pre ++ post) → l ∈ addrs pre ++ addrs post)
      by (intros l; by rewrite addrs_app).
    assert (Hstr : c_str c0 ≠ last_node (c_node c0) pre).
    { clear -Hcn Hcs Hlast. intros E. rewrite <- E in Hlast. set_solver. }
    assert (Hfn : first post ≠ Some (c_node c0)).
    { clear -Hcn Hpost. intros E%Hpost. set_solver. }
    assert (Hfs : first post ≠ Some (c_str c0)).
    { clear -Hcs Hpost. intros E%Hpost. set_solver. }
    cbn [chain]. split_and!.
    + destruct pre as [|c1 pre].
      * unfold last_node in *. cbn in *. by rewrite (Hpred _ Hn).
      * cbn [app first] in *. rewrite Hframe; [done| |  |done].
        -- rewrite addrs_cons. clear. set_solver.
        -- rewrite last_node_cons.
           pose proof (last_node_in (c_node c1) pre) as Hl1.
           rewrite addrs_cons in Hcn.
           clear -Hcn Hl1. intros E. rewrite <- E in Hl1. set_solver.
    + rewrite Hframe; [done| |done|done].
      rewrite addrs_cons. clear. set_solver.
    + apply IH; [done| | |done|done].
      * apply NoDup_cons. split; [|done]. rewrite addrs_app, addrs_cons.
        clear -Hcn. set_solver.
      * intros l Hl. apply Hframe. rewrite addrs_cons. clear -Hl. set_solver.
Qed.

Lemma unlinked_frame (h : gmap loc block) p np c post l :
  l ≠ p → l ≠ c_node c → l ≠ c_str c → first post ≠ Some l →
  unlinked h p np c post !! l = h !! l.
Proof.
  intros H1 H2 H3 H4. unfold unlinked.
  rewrite lookup_delete_ne, lookup_insert_ne, lookup_delete_ne by done.
  destruct post as [|c1 post'].
  - by rewrite lookup_insert_ne.
  - cbn in H4. by rewrite !lookup_insert_ne by congruence.
Qed.

Lemma unlinked_pred (h : gmap loc block) p np c post :
  p ≠ c_node c → p ≠ c_str c → first post ≠ Some p →
  unlinked h p np c post !! p
  = Some (Node (mk_node (value np) (prev np) (first post))).
Proof.
  intros H1 H2 H3. unfold unlinked.
  rewrite lookup_delete_ne, lookup_insert_ne, lookup_delete_ne by done.
  destruct post as [|c1 post'].
  - by rewrite lookup_insert_eq.
  - cbn in H3. rewrite lookup_insert_ne by congruence. by rewrite lookup_insert_eq.
Qed.

Lemma unlinked_succ (h : gmap loc block) p np c c1 post' :
  c_node c1 ≠ c_node c → c_node c1 ≠ c_str c →
  unlinked h p np c (c1 :: post') !! c_node c1
  = Some (Node (mk_node (Some (c_str c1)) (Some p) (first post'))).
Proof.
  intros H1 H2. unfold unlinked.
  rewrite lookup_delete_ne, lookup_insert_ne, lookup_delete_ne by done.
  by rewrite lookup_insert_eq.
Qed.

Lemma unlinked_gone (h : gmap loc block) p np c post :
  c_str c ≠ c_node c →
  unlinked h p np c post !! c_node c = None
  ∧ unlinked h p np c post !! c_str c = None.
Proof.
  intros H. unfold unlinked. split.
  - by rewrite lookup_delete_eq.
  - rewrite lookup_delete_ne, lookup_insert_ne by done. by rewrite lookup_delete_eq.
Qed.

Lemma unlinked_dom (h : gmap loc block) p np c post :
  is_Some (h !! p) → (∀ l, first post = Some l → is_Some (h !! l)) →
  dom (unlinked h p np c post) = dom h ∖ {[c_node c; c_str c]}.
Proof.
  intros Hp%elem_of_dom Hpost. unfold unlinked.
  destruct post as [|c1 post'].
  - rewrite dom_delete_L, dom_insert_L, dom_delete_L, dom_insert_L.
    clear Hpost. set_solver.
  - assert (c_node c1 ∈ dom h) by (apply elem_of_dom, Hpost; done).
    rewrite dom_delete_L, dom_insert_L, dom_delete_L, !dom_insert_L.
    clear Hpost. set_solver.
Qed.

Lemma first_app_cons (pre : list cell) c post :
  pre ≠ [] → first (pre ++ post) = first (pre ++ c :: post).
Proof. by destruct pre. Qed.

Lemma NoDup_pred (head : loc) pre c post :
  NoDup (head :: addrs (pre ++ c :: post)) →
  NoDup (last_node head pre :: addrs (c :: post))
  ∧ (pre ≠ [] → last_node head pre ≠ head)
  ∧ (∀ l, l ∈ addrs (pre ++ post) → l ≠ c_node c ∧ l ≠ c_str c)
  ∧ head ≠ c_node c ∧ head ≠ c_str c ∧ first post ≠ Some head.
Proof.
  intros Hnd. pose proof (last_node_in head pre) as Hlast.
  assert (Hpost : ∀ l, first post = Some l → l ∈ addrs post)
    by (intros l; apply first_in_addrs).
  rewrite addrs_app, app_comm_cons in Hnd.
  apply NoDup_app in Hnd as (Hpre & Hsep & Hrest).
  split_and!.
  - apply NoDup_cons. split; [|done]. by apply Hsep.
  - intros Hne. destruct pre as [|c0 pre]; [done|].
    rewrite last_node_cons. pose proof (last_node_in (c_node c0) pre) as H0.
    apply NoDup_cons in Hpre as [Hh _]. rewrite addrs_cons in Hh.
    clear -Hh H0. intros E. rewrite E in H0. set_solver.
  - intros l. rewrite addrs_app. intros [Hl|Hl]%elem_of_app.
    + assert (l ∉ addrs (c :: post)) as Hn by (apply Hsep; set_solver).
      rewrite addrs_cons in Hn. clear -Hn. set_solver.
    + rewrite addrs_cons in Hrest.
      apply NoDup_cons in Hrest as [H1 Hrest].
      apply NoDup_cons in Hrest as [H2 Hrest].
      clear -H1 H2 Hl. set_solver.
  - assert (head ∉ addrs (c :: post)) as Hn by (apply Hsep; set_solver).
    rewrite addrs_cons in Hn. clear -Hn. set_solver.
  - assert (head ∉ addrs (c :: post)) as Hn by (apply Hsep; set_solver).
    rewrite addrs_cons in Hn. clear -Hn. set_solver.
  - intros E%Hpost.
    assert (head ∉ addrs (c :: post)) as Hn by (apply Hsep; set_solver).
    rewrite addrs_cons in Hn. clear -Hn E. set_solver.
Qed.

Lemma bucket_pred (h : gmap loc block) head pre c post :
  bucket h head (pre ++ c :: post) →
  ∃ np, h !! last_node head pre = Some (Node np)
        ∧ chain h (Some (last_node head pre)) (c :: post).
Proof.
  intros [Hh Hc]. destruct (chain_pred _ _ _ _ _ Hc) as [Hpc Hp].
  destruct pre as [|c0 pre].
  - unfold last_node; cbn. eauto.
  - destruct Hp as (np & Hnp & _); [done|]. eauto.
Qed.

Lemma bucket_unlinked (h : gmap loc block) head pre c post np :
  bucket h head (pre ++ c :: post) →
  NoDup (head :: addrs (pre ++ c :: post)) →
  h !! last_node head pre = Some (Node np) →
  bucket (unlinked h (last_node head pre) np c post) head (pre ++ post).
Proof.
  intros Hb Hnd Hnp.
  destruct (NoDup_pred _ _ _ _ Hnd) as (Hp & Hph & Hsep & Hh1 & Hh2 & Hh3).
  rewrite addrs_cons in Hp.
  apply NoDup_cons in Hp as [Hp1 Hp].
  apply NoDup_cons in Hp as [Hp2 Hp].
  apply NoDup_cons in Hp as [Hp3 Hp].
  assert (last_node head pre ≠ c_node c) by (clear -Hp1; set_solver).
  assert (last_node head pre ≠ c_str c) by (clear -Hp1; set_solver).
  assert (first post ≠ Some (last_node head pre)).
  { intros E%first_in_addrs. clear -Hp1 E. set_solver. }
  destruct Hb as [Hh Hc]. split.
  - destruct pre as [|c0 pre].
    + unfold last_node in *; cbn in *. rewrite unlinked_pred by done.
      by simplify_eq.
    + assert (head ≠ last_node head (c0 :: pre)) by (intros E; by apply Hph).
      rewrite unlinked_frame by done.
      by rewrite (first_app_cons _ c) by done.
  - eapply chain_unlinked; [done|done| | |].
    + intros l Hl ??. destruct (Hsep _ Hl). by apply unlinked_frame.
    + intros np' Hnp'. rewrite unlinked_pred by done. by simplify_eq.
    + intros c1 post' ->. apply unlinked_succ.
      * rewrite addrs_cons in Hp2. clear -Hp2. set_solver.
      * rewrite addrs_cons in Hp3. clear -Hp3. set_solver.
Qed.

Lemma remove_entry_bucket (s : St) head pre c post :
  heap s !! SENTINEL_addr = Some (Chars SENTINEL_chars) →
  bucket (heap s) head (pre ++ c :: post) →
  NoDup (head :: addrs (pre ++ c :: post)) →
  c_val c ≠ SENTINEL_chars →
  ∃ np, heap s !! last_node head pre = Some (Node np)
        ∧ remove_entry (Some (c_node c)) s
          = Ret true (mk_state (unlinked (heap s) (last_node head pre) np c post)
                        (allocs s) (freed s ++ [c_str c; c_node c]) (output s)).
Proof.
  intros Hm Hb Hnd Hv.
  destruct (bucket_pred _ _ _ _ _ Hb) as (np & Hnp & Hc).
  exists np. split; [done|].
  apply remove_entry_run; try done.
  by apply NoDup_pred in Hnd as [? _].
Qed.

(** ** The footprint of a table *)

Lemma elem_of_concat (ls : list (list loc)) l :
  l ∈ concat ls ↔ ∃ x, x ∈ ls ∧ l ∈ x.
Proof.
  rewrite list_elem_of_In, in_concat. split; intros (x & Hx & Hl); exists x.
  - by rewrite !list_elem_of_In.
  - by rewrite <- !list_elem_of_In.
Qed.

Lemma elem_of_cells (css : list (list cell)) i cs l :
  css !! i = Some cs → l ∈ addrs cs → l ∈ concat (map addrs css).
Proof.
  intros Hi Hl. apply elem_of_concat. exists (addrs cs). split; [|done].
  apply list_elem_of_In, in_map, list_elem_of_In.
  by eapply list_elem_of_lookup_2.
Qed.

Lemma lookup_map_addrs (css : list (list cell)) i cs :
  css !! i = Some cs → map addrs css !! i = Some (addrs cs).
Proof.
  revert i; induction css as [|c0 css IH]; intros [|i]; cbn; try done.
  - by intros [= ->].
  - apply IH.
Qed.

Lemma concat_disjoint (ls : list (list loc)) i j x y l :
  NoDup (concat ls) → ls !! i = Some x → ls !! j = Some y → i ≠ j →
  l ∈ x → l ∉ y.
Proof.
  revert i j; induction ls as [|z ls IH]; intros i j Hnd Hi Hj Hij Hx Hy; [done|].
  cbn in Hnd. apply NoDup_app in Hnd as (Hz & Hsep & Hrest).
  destruct i as [|i], j as [|j]; cbn in Hi, Hj; simplify_eq.
  - eapply Hsep; [done|]. apply elem_of_concat. exists y. split; [|done].
    by eapply list_elem_of_lookup_2.
  - eapply Hsep; [done|]. apply elem_of_concat. exists x. split; [|done].
    by eapply list_elem_of_lookup_2.
  - eapply (IH i j); eauto.
Qed.

Lemma footprint_split (heads : list loc) (css : list (list cell)) i cs :
  css !! i = Some cs →
  ∃ rest, footprint heads css ≡ₚ addrs cs ++ rest
          ∧ ∀ cs', footprint heads (<[i := cs']> css) ≡ₚ addrs cs' ++ rest.
Proof.
  intros Hi.
  exists (SENTINEL_addr :: heads ++ concat (map addrs (take i css))
            ++ concat (map addrs (drop (S i) css))).
  assert (Hlt : (i < length css)%nat) by by eapply lookup_lt_Some.
  split.
  - unfold footprint. rewrite <- (take_drop_middle css i cs Hi) at 1.
    rewrite map_app, concat_app. cbn [map concat].
    rewrite <- Permutation_middle. apply Permutation_skip.
    rewrite (Permutation_app_swap_app _ (addrs cs)).
    by rewrite (Permutation_app_swap_app heads (addrs cs)).
  - intros cs'. unfold footprint. rewrite insert_take_drop by done.
    rewrite map_app, concat_app. cbn [map concat].
    rewrite <- Permutation_middle. apply Permutation_skip.
    rewrite (Permutation_app_swap_app _ (addrs cs')).
    by rewrite (Permutation_app_swap_app heads (addrs cs')).
Qed.

Lemma footprint_grow (heads : list loc) (css : list (list cell)) i cs c :
  css !! i = Some cs →
  footprint heads (<[i := c :: cs]> css) ≡ₚ c_node c :: c_str c :: footprint heads css.
Proof.
  intros Hi. destruct (footprint_split heads css i cs Hi) as (rest & H1 & H2).
  by rewrite H2, H1, addrs_cons.
Qed.

Lemma footprint_shrink (heads : list loc) (css : list (list cell)) i pre c post :
  css !! i = Some (pre ++ c :: post) →
  footprint heads css ≡ₚ c_node c :: c_str c :: footprint heads (<[i := pre ++ post]> css).
Proof.
  intros Hi. destruct (footprint_split heads css i _ Hi) as (rest & H1 & H2).
  rewrite H2, H1, !addrs_app, addrs_cons.
  rewrite <- !app_assoc. cbn [app].
  by rewrite <- !Permutation_middle.
Qed.

Lemma footprint_head (heads : list loc) css i head :
  heads !! i = Some head → head ∈ footprint heads css.
Proof.
  intros H%list_elem_of_lookup_2. unfold footprint. set_solver.
Qed.

Lemma footprint_cell (heads : list loc) css i cs l :
  css !! i = Some cs → l ∈ addrs cs → l ∈ footprint heads css.
Proof.
  intros Hi Hl. unfold footprint.
  apply elem_of_cons; right. apply elem_of_app; right.
  by eapply elem_of_cells.
Qed.

Lemma footprint_bucket (heads : list loc) css i head cs :
  NoDup (footprint heads css) →
  heads !! i = Some head → css !! i = Some cs →
  NoDup (head :: addrs cs) ∧ SENTINEL_addr ∉ head :: addrs cs.
Proof.
  intros Hnd Hh Hc. unfold footprint in Hnd.
  apply NoDup_cons in Hnd as [Hs Hnd].
  apply NoDup_app in Hnd as (Hheads & Hsep & Hcells).
  assert (head ∈ heads) by by eapply list_elem_of_lookup_2.
  assert (Hsub : ∀ l, l ∈ addrs cs → l ∈ concat (map addrs css))
    by (intros l; by apply elem_of_cells with i).
  split.
  - apply NoDup_cons. split.
    + intros Hin%Hsub. by eapply Hsep.
    + rewrite <- (take_drop_middle css i cs Hc) in Hcells.
      rewrite map_app, concat_app in Hcells. cbn in Hcells.
      apply NoDup_app in Hcells as (_ & _ & Hcells).
      by apply NoDup_app in Hcells as (? & _ & _).
  - intros [E|Hin%Hsub]%elem_of_cons; apply Hs.
    + rewrite E. apply elem_of_app. by left.
    + apply elem_of_app. by right.
Qed.

Lemma footprint_apart (heads : list loc) css i j head cs hj cj l :
  NoDup (footprint heads css) →
  heads !! i = Some head → css !! i = Some cs →
  heads !! j = Some hj → css !! j = Some cj → i ≠ j →
  l ∈ hj :: addrs cj → l ∉ head :: addrs cs.
Proof.
  intros Hnd Hh Hc Hhj Hcj Hij Hl Hl'. unfold footprint in Hnd.
  apply NoDup_cons in Hnd as [Hs Hnd].
  apply NoDup_app in Hnd as (Hheads & Hsep & Hcells).
  assert (Hin : ∀ k ck x, css !! k = Some ck → x ∈ addrs ck →
                          x ∈ concat (map addrs css))
    by (intros k ck x; apply elem_of_cells).
  apply elem_of_cons in Hl as [->|Hl]; apply elem_of_cons in Hl' as [E|Hl'].
  - subst. apply Hij. by apply (NoDup_lookup heads i j head).
  - apply (Hsep hj); [by eapply list_elem_of_lookup_2|]. by apply (Hin i cs).
  - subst. apply (Hsep head); [by eapply list_elem_of_lookup_2|]. by apply (Hin j cj).
  - eapply (concat_disjoint (map addrs css) j i (addrs cj) (addrs cs));
      eauto using lookup_map_addrs.
Qed.

(** ** Indexing the table *)

Lemma table_at_head (heads : list loc) (s : St) (index : Z) head :
  0 <= index → heads !! Z.to_nat index = Some head →
  table_at (map Some heads) index s = Ret (Some head) s.
Proof.
  intros H0 Hh. unfold table_at.
  destruct (Z.ltb_spec index 0); [lia|].
  change (map Some heads) with (Some <$> heads).
  by rewrite list_lookup_fmap, Hh.
Qed.

Lemma rep_bucket_at (h : gmap loc block) table heads css (name : cstr) :
  table_rep h table heads css →
  ∃ head cs, heads !! Z.to_nat (hash name) = Some head
             ∧ css !! Z.to_nat (hash name) = Some cs
             ∧ bucket h head cs
             ∧ NoDup (head :: addrs cs).
Proof.
  intros Hrep. pose proof (hash_range name) as Hr. unfold TABLE_SIZE in Hr.
  assert (Hlen : length css = length heads)
    by (symmetry; eapply Forall2_length, rep_buckets; done).
  pose proof (rep_size _ _ _ _ Hrep) as Hsz. unfold TABLE_SIZE in Hsz.
  destruct (lookup_lt_is_Some_2 heads (Z.to_nat (hash name))) as [head Hh]; [lia|].
  destruct (lookup_lt_is_Some_2 css (Z.to_nat (hash name))) as [cs Hc]; [lia|].
  exists head, cs. split_and!; [done|done| |].
  - by eapply Forall2_lookup_lr; [apply (rep_buckets _ _ _ _ Hrep)|..].
  - by eapply footprint_bucket; [apply (rep_separate _ _ _ _ Hrep)|..].
Qed.

Lemma linked_live (h : gmap loc block) head c cs l :
  bucket h head cs →
  is_Some (linked h head c cs !! l) ↔ l = c_node c ∨ l = c_str c ∨ is_Some (h !! l).
Proof.
  intros Hb. rewrite <- !elem_of_dom, (linked_dom _ _ _ _ Hb). set_solver.
Qed.

Lemma unlinked_live (h : gmap loc block) p np c post l :
  is_Some (h !! p) → (∀ l, first post = Some l → is_Some (h !! l)) →
  is_Some (unlinked h p np c post !! l)
  ↔ is_Some (h !! l) ∧ l ≠ c_node c ∧ l ≠ c_str c.
Proof.
  intros Hp Hpost. rewrite <- !elem_of_dom, (unlinked_dom _ _ _ _ _ Hp Hpost).
  clear. set_solver.
Qed.

(** ** The table after an insertion *)

Lemma table_rep_insert (h : gmap loc block) table heads css name head cs a b :
  table_rep h table heads css →
  heads !! Z.to_nat (hash name) = Some head →
  css !! Z.to_nat (hash name) = Some cs →
  name ≠ SENTINEL_chars →
  h !! a = None → h !! b = None → a ≠ b →
  table_rep (linked h head (mk_cell a b name) cs) table heads
    (<[Z.to_nat (hash name) := mk_cell a b name :: cs]> css).
Proof.
  intros Hrep Hh Hc Hname Ha Hb Hab.
  destruct Hrep as [Htable Hsize Hmark Hbuckets Hsep Huser Hhash Hlive].
  set (i := Z.to_nat (hash name)) in *.
  destruct (footprint_bucket _ _ _ _ _ Hsep Hh Hc) as [Hnd Hs].
  assert (Hbi : bucket h head cs) by by eapply Forall2_lookup_lr.
  assert (Hfresh : ∀ l, l ∈ footprint heads css → l ≠ a ∧ l ≠ b).
  { intros l [bl Hl]%Hlive. split; congruence. }
  assert (Hlt : (i < length css)%nat) by by eapply lookup_lt_Some.
  split; try done.
  - rewrite linked_frame; [done| | | |]; cbn [c_node c_str].
    + intros E. apply Hs. rewrite E. set_solver.
    + congruence.
    + congruence.
    + intros E%first_in_addrs. apply Hs. set_solver.
  - apply Forall2_same_length_lookup. split.
    { rewrite length_insert. by eapply Forall2_length. }
    intros j hj cj Hhj Hcj. destruct (decide (j = i)) as [->|Hji].
    + rewrite list_lookup_insert_eq in Hcj by done. simplify_eq.
      by apply bucket_linked.
    + rewrite list_lookup_insert_ne in Hcj by done.
      assert (Hbj : bucket h hj cj) by by eapply Forall2_lookup_lr.
      eapply bucket_frame; [|done]. intros l Hl.
      assert (l ∉ head :: addrs cs) as Hout by by eapply (footprint_apart heads css i j).
      assert (l ∈ footprint heads css) as [??]%Hfresh.
      { apply elem_of_cons in Hl as [->|Hl];
          [by eapply footprint_head|by eapply footprint_cell]. }
      apply linked_frame; cbn [c_node c_str]; try done.
      * intros ->. apply Hout. set_solver.
      * intros E%first_in_addrs. apply Hout. set_solver.
  - rewrite footprint_grow by done. cbn [c_node c_str].
    apply NoDup_cons. split.
    + intros [?|Hin%Hfresh]%elem_of_cons; [done|]. by destruct Hin.
    + apply NoDup_cons. split; [|done]. intros Hin%Hfresh. by destruct Hin.
  - intros j cj c Hcj Hin. destruct (decide (j = i)) as [->|Hji].
    + rewrite list_lookup_insert_eq in Hcj by done. simplify_eq.
      apply elem_of_cons in Hin as [->|Hin]; [done|]. by eapply Huser.
    + rewrite list_lookup_insert_ne in Hcj by done. by eapply Huser.
  - intros j cj c Hcj Hin. destruct (decide (j = i)) as [->|Hji].
    + rewrite list_lookup_insert_eq in Hcj by done. simplify_eq.
      apply elem_of_cons in Hin as [->|Hin]; [|by eapply Hhash].
      cbn. pose proof (hash_range name). unfold i. lia.
    + rewrite list_lookup_insert_ne in Hcj by done. by eapply Hhash.
  - intros l. rewrite (linked_live _ _ _ _ _ Hbi), footprint_grow by done.
    cbn [c_node c_str]. rewrite !elem_of_cons, Hlive. done.
Qed.

(** ** The table after a removal *)

Lemma table_rep_remove (h : gmap loc block) table heads css i head pre c post np :
  table_rep h table heads css →
  heads !! i = Some head →
  css !! i = Some (pre ++ c :: post) →
  h !! last_node head pre = Some (Node np) →
  table_rep (unlinked h (last_node head pre) np c post) table heads
    (<[i := pre ++ post]> css).
Proof.
  intros Hrep Hh Hc Hnp.
  destruct Hrep as [Htable Hsize Hmark Hbuckets Hsep Huser Hhash Hlive].
  destruct (footprint_bucket _ _ _ _ _ Hsep Hh Hc) as [Hnd Hs].
  assert (Hbi : bucket h head (pre ++ c :: post)) by by eapply Forall2_lookup_lr.
  assert (Hlt : (i < length css)%nat) by by eapply lookup_lt_Some.
  pose proof (footprint_shrink heads css i pre c post Hc) as Hperm.
  assert (Hp : last_node head pre ∈ head :: addrs (pre ++ c :: post)).
  { pose proof (last_node_in head pre) as H. rewrite addrs_app. clear -H. set_solver. }
  assert (Hfirst : ∀ l, first post = Some l → l ∈ head :: addrs (pre ++ c :: post)).
  { intros l E%first_in_addrs. rewrite addrs_app, addrs_cons. clear -E. set_solver. }
  assert (Hcn : c_node c ∈ head :: addrs (pre ++ c :: post)).
  { rewrite addrs_app, addrs_cons. clear. set_solver. }
  assert (Hcs : c_str c ∈ head :: addrs (pre ++ c :: post)).
  { rewrite addrs_app, addrs_cons. clear. set_solver. }
  assert (Hout : ∀ l, l ∉ head :: addrs (pre ++ c :: post) →
                      unlinked h (last_node head pre) np c post !! l = h !! l).
  { intros l Hl. apply unlinked_frame.
    - intros ->. by apply Hl.
    - intros ->. by apply Hl.
    - intros ->. by apply Hl.
    - intros E%Hfirst. by apply Hl. }
  assert (Hsub : ∀ x, x ∈ pre ++ post → x ∈ pre ++ c :: post).
  { intros x. rewrite !elem_of_app, elem_of_cons. tauto. }
  split; try done.
  - by rewrite Hout.
  - apply Forall2_same_length_lookup. split.
    { rewrite length_insert. by eapply Forall2_length. }
    intros j hj cj Hhj Hcj. destruct (decide (j = i)) as [->|Hji].
    + rewrite list_lookup_insert_eq in Hcj by done. simplify_eq.
      by apply bucket_unlinked.
    + rewrite list_lookup_insert_ne in Hcj by done.
      assert (Hbj : bucket h hj cj) by by eapply Forall2_lookup_lr.
      eapply bucket_frame; [|done]. intros l Hl. apply Hout.
      by eapply (footprint_apart heads css i j).
  - rewrite Hperm in Hsep.
    apply NoDup_cons in Hsep as [_ Hsep]. by apply NoDup_cons in Hsep as [_ Hsep].
  - intros j cj x Hcj Hin. destruct (decide (j = i)) as [->|Hji].
    + rewrite list_lookup_insert_eq in Hcj by done. simplify_eq.
      eapply Huser; [done|]. by apply Hsub.
    + rewrite list_lookup_insert_ne in Hcj by done. by eapply Huser.
  - intros j cj x Hcj Hin. destruct (decide (j = i)) as [->|Hji].
    + rewrite list_lookup_insert_eq in Hcj by done. simplify_eq.
      eapply Hhash; [done|]. by apply Hsub.
    + rewrite list_lookup_insert_ne in Hcj by done. by eapply Hhash.
  - intros l. rewrite unlinked_live.
    + rewrite Hlive, Hperm, !elem_of_cons.
      rewrite Hperm in Hsep.
      apply NoDup_cons in Hsep as [H1 Hsep]. apply NoDup_cons in Hsep as [H2 Hsep].
      clear -H1 H2. split; [tauto|]. intros Hl. split_and!; [tauto| |].
      * intros ->. set_solver.
      * intros ->. set_solver.
    + eauto.
    + intros l' E%Hfirst. eapply bucket_live; done.
Qed.

Section MallocFacts.
Context {B O : Type}.
Implicit Types s : state B O.

(** [malloc] either fails, leaving the memory as it is, or returns an
    address that was not live. *)
Lemma malloc_cases (u : B) s :
  (∃ rest, malloc u s = Ret NULL (mk_state (heap s) rest (freed s) (output s)))
  ∨ (∃ l rest, allocs s = Some l :: rest ∧ heap s !! l = None
               ∧ malloc u s = Ret (Some l)
                   (mk_state (<[l := u]> (heap s)) rest (freed s) (output s))).
Proof.
  unfold malloc. destruct s as [h al fr out]; cbn.
  destruct al as [|[l|] rest]; [left; eauto| |left; eauto].
  destruct (h !! l) eqn:E; [left; eauto|right]. exists l, rest. by rewrite E.
Qed.
End MallocFacts.

(** ** Outcomes of [insert_entry] *)

Lemma insert_entry_sentinel (s : St) (p : ptr) :
  heap s !! SENTINEL_addr = Some (Chars SENTINEL_chars) →
  insert_entry p SENTINEL_chars s
  = Ret false (mk_state (heap s) (allocs s) (freed s)
                 (output s ++ [Cannot_insert_sentinel])).
Proof.
  intros Hm. unfold insert_entry.
  step load_chars_live. by rewrite strcmp_same.
Qed.

Lemma insert_entry_outcome (s s' : St) head cs v ok :
  heap s !! SENTINEL_addr = Some (Chars SENTINEL_chars) →
  bucket (heap s) head cs →
  insert_entry (Some head) v s = Ret ok s' →
  (ok = false ∧ heap s' = heap s ∧ freed s' = freed s)
  ∨ (ok = true ∧ v ≠ SENTINEL_chars
     ∧ ∃ a b, allocs s = Some a :: Some b :: allocs s'
              ∧ heap s !! a = None ∧ heap s !! b = None ∧ a ≠ b
              ∧ s' = mk_state (linked (heap s) head (mk_cell a b v) cs)
                       (allocs s') (freed s) (output s)).
Proof.
  intros Hm Hb Hrun.
  destruct (decide (v = SENTINEL_chars)) as [->|Hv].
  { rewrite insert_entry_sentinel in Hrun by done. simplify_eq. by left. }
  destruct (malloc_cases Uninit s) as [(rest & Hma)|(a & rest & Hal & Ha & Hma)].
  { assert (insert_entry (Some head) v s
            = Ret false (mk_state (heap s) rest (freed s)
                           (output s ++ [Failed_node_allocation]))) as E.
    { unfold insert_entry.
      step load_chars_live. rewrite strcmp_neq by done.
      eapply bind_Ret; [exact Hma|]. done. }
    rewrite E in Hrun. simplify_eq. by left. }
  set (s1 := mk_state (<[a := Uninit]> (heap s)) rest (freed s) (output s)) in *.
  destruct (malloc_cases Uninit s1) as [(rest' & Hmb)|(b & rest' & Hal' & Hb' & Hmb)].
  { assert (insert_entry (Some head) v s = Fault) as E.
    { unfold insert_entry.
      step load_chars_live. rewrite strcmp_neq by done.
      eapply bind_Ret; [exact Hma|]. cbn beta iota. fold s1.
      eapply bind_Ret; [exact Hmb|]. done. }
    by rewrite E in Hrun. }
  cbn in Hal', Hb'. subst rest.
  assert (a ≠ b) by (intros ->; by rewrite lookup_insert_eq in Hb').
  rewrite lookup_insert_ne in Hb' by done.
  rewrite (insert_entry_run s head a b v cs rest') in Hrun by done.
  simplify_eq. right. split_and!; [done|done|]. by exists a, b.
Qed.

(** ** Computations that only read the memory *)

Lemma reads_only_ret {A} (a : A) : reads_only (ret a).
Proof. by intros s a' s' [= <- <-]. Qed.

Lemma reads_only_bind {A A'} (m : Cmd A) (k : A → Cmd A') :
  reads_only m → (∀ a, reads_only (k a)) → reads_only (bind m k).
Proof.
  intros Hm Hk s b s'' (a & s' & H1 & H2)%bind_inv.
  destruct (Hm _ _ _ H1) as (E1 & E2 & E3).
  destruct (Hk a _ _ _ H2) as (F1 & F2 & F3). split_and!; congruence.
Qed.

Lemma reads_only_print (o : message) : reads_only (print o).
Proof. by intros s a s' [= <- <-]. Qed.

Lemma reads_only_load (p : ptr) : reads_only (@load block message p).
Proof.
  intros s a s'. unfold load. destruct p as [l|]; [|done].
  destruct (heap s !! l); [|done]. by intros [= <- <-].
Qed.

Lemma reads_only_fault {A} : reads_only (@fault block message A).
Proof. done. Qed.

Lemma reads_only_out_of_fuel {A} : reads_only (@out_of_fuel block message A).
Proof. done. Qed.

Lemma reads_only_load_node (p : ptr) : reads_only (load_node p).
Proof.
  apply reads_only_bind; [apply reads_only_load|].
  intros [| |]; auto using reads_only_ret, reads_only_fault.
Qed.

Lemma reads_only_load_chars (p : ptr) : reads_only (load_chars p).
Proof.
  apply reads_only_bind; [apply reads_only_load|].
  intros [| |]; auto using reads_only_ret, reads_only_fault.
Qed.

Lemma reads_only_get_value (p : ptr) : reads_only (get_value p).
Proof. apply reads_only_bind; auto using reads_only_load_node, reads_only_ret. Qed.

Lemma reads_only_get_next (p : ptr) : reads_only (get_next p).
Proof. apply reads_only_bind; auto using reads_only_load_node, reads_only_ret. Qed.

Lemma reads_only_strcmp_at (p : ptr) (v : cstr) : reads_only (strcmp_at p v).
Proof. apply reads_only_bind; auto using reads_only_load_chars, reads_only_ret. Qed.

Lemma reads_only_find_loop fuel p v : reads_only (find_loop fuel p v).
Proof.
  revert p; induction fuel as [|fuel IH]; intros [l|]; cbn [find_loop];
    auto using reads_only_ret, reads_only_out_of_fuel.
  apply reads_only_bind; [apply reads_only_get_value|]. intros q.
  apply reads_only_bind; [apply reads_only_strcmp_at|]. intros c.
  destruct (c =? 0); [apply reads_only_ret|].
  apply reads_only_bind; [apply reads_only_get_next|]. auto.
Qed.

Lemma reads_only_find_entry fuel p v : reads_only (find_entry fuel p v).
Proof.
  apply reads_only_bind; [apply reads_only_load_chars|]. intros sv.
  destruct (strcmp v sv =? 0); [|apply reads_only_find_loop].
  apply reads_only_bind; auto using reads_only_print, reads_only_ret.
Qed.

Lemma reads_only_table_at table index : reads_only (table_at table index).
Proof.
  unfold table_at. destruct (index <? 0); [apply reads_only_fault|].
  destruct (table !! Z.to_nat index); auto using reads_only_ret, reads_only_fault.
Qed.

Lemma reads_only_table_find fuel table name : reads_only (table_find fuel table name).
Proof.
  apply reads_only_bind; [apply reads_only_table_at|].
  intros p. apply reads_only_find_entry.
Qed.

Lemma reads_only_print_loop fuel p : reads_only (print_loop fuel p).
Proof.
  revert p; induction fuel as [|fuel IH]; intros [l|]; cbn [print_loop];
    auto using reads_only_ret, reads_only_out_of_fuel.
  apply reads_only_bind; [apply reads_only_get_value|]. intros q.
  apply reads_only_bind; [apply reads_only_load_chars|]. intros v.
  apply reads_only_bind; [apply reads_only_load_chars|]. intros sv.
  apply reads_only_bind.
  { destruct (negb _); auto using reads_only_print, reads_only_ret. }
  intros _. apply reads_only_bind; [apply reads_only_get_next|]. auto.
Qed.

Lemma reads_only_print_list fuel p : reads_only (print_list fuel p).
Proof.
  apply reads_only_bind; [apply reads_only_get_next|]. intros [l|].
  - apply reads_only_bind; [apply reads_only_print_loop|].
    intros _. apply reads_only_print.
  - apply reads_only_print.
Qed.

Lemma reads_only_print_lists fuel table i : reads_only (print_lists fuel table i).
Proof.
  revert i; induction table as [|p table IH]; intros i; cbn [print_lists].
  - apply reads_only_ret.
  - apply reads_only_bind; [apply reads_only_print|]. intros _.
    apply reads_only_bind; [apply reads_only_print_list|]. auto.
Qed.

(** ** Search, for any amount of fuel *)

Lemma find_loop_partial (s s' : St) pv cs v fuel r :
  chain (heap s) pv cs →
  find_loop fuel (first cs) v s = Ret r s' →
  s' = s ∧ r = c_node <$> first_match v cs.
Proof.
  revert pv fuel; induction cs as [|c cs IH]; intros pv fuel Hc.
  - destruct fuel; cbn; by intros [= <- <-].
  - destruct Hc as (Hn & Hs & Hrest).
    destruct fuel as [|fuel]; [done|].
    cbn [first find_loop]. intros Hrun.
    step get_value_live in Hrun.
    step strcmp_at_live in Hrun.
    unfold first_match. cbn [List.find]. rewrite strcmp_eqb in Hrun.
    case_bool_decide; [unfold ret in Hrun; by simplify_eq|].
    step get_next_live in Hrun. by eapply IH.
Qed.

Lemma find_entry_partial (s s' : St) head cs v fuel r :
  heap s !! SENTINEL_addr = Some (Chars SENTINEL_chars) →
  bucket (heap s) head cs →
  v ≠ SENTINEL_chars →
  find_entry fuel (Some head) v s = Ret r s' →
  s' = s ∧ r = c_node <$> first_match v cs.
Proof.
  intros Hm [Hh Hc] Hv. unfold find_entry. intros Hrun.
  step load_chars_live in Hrun. rewrite strcmp_neq in Hrun by done.
  destruct fuel as [|fuel]; [done|]. cbn [find_loop] in Hrun.
  step get_value_live in Hrun.
  step strcmp_at_live in Hrun.
  rewrite strcmp_neq in Hrun by done.
  step get_next_live in Hrun.
  by eapply find_loop_partial.
Qed.

(** ** The operations on the table *)

Lemma table_at_rep (s : St) table heads css (name : cstr) head :
  table_rep (heap s) table heads css →
  heads !! Z.to_nat (hash name) = Some head →
  table_at table (hash name) s = Ret (Some head) s.
Proof.
  intros Hrep Hh. rewrite (rep_table _ _ _ _ Hrep).
  apply table_at_head; [|done]. apply hash_range.
Qed.

Lemma table_insert_run (s : St) table heads css name head cs a b rest :
  table_rep (heap s) table heads css →
  heads !! Z.to_nat (hash name) = Some head →
  css !! Z.to_nat (hash name) = Some cs →
  name ≠ SENTINEL_chars →
  allocs s = Some a :: Some b :: rest →
  heap s !! a = None → heap s !! b = None → a ≠ b →
  table_insert table name s
  = Ret true (mk_state (linked (heap s) head (mk_cell a b name) cs) rest
                (freed s) (output s)).
Proof.
  intros Hrep Hh Hc Hname Hal Ha Hb Hab. unfold table_insert.
  eapply bind_Ret; [by eapply table_at_rep|]. cbn beta.
  apply insert_entry_run; try done.
  - by destruct Hrep.
  - by eapply Forall2_lookup_lr; [apply (rep_buckets _ _ _ _ Hrep)|..].
Qed.

Lemma table_insert_outcome (s s' : St) table heads css name ok :
  table_rep (heap s) table heads css →
  table_insert table name s = Ret ok s' →
  (ok = false ∧ heap s' = heap s ∧ freed s' = freed s)
  ∨ (ok = true ∧ name ≠ SENTINEL_chars
     ∧ ∃ head cs a b,
         heads !! Z.to_nat (hash name) = Some head
         ∧ css !! Z.to_nat (hash name) = Some cs
         ∧ allocs s = Some a :: Some b :: allocs s'
         ∧ heap s !! a = None ∧ heap s !! b = None ∧ a ≠ b
         ∧ s' = mk_state (linked (heap s) head (mk_cell a b name) cs)
                  (allocs s') (freed s) (output s)
         ∧ table_rep (heap s') table heads
             (<[Z.to_nat (hash name) := mk_cell a b name :: cs]> css)).
Proof.
  intros Hrep Hrun.
  destruct (rep_bucket_at _ _ _ _ name Hrep) as (head & cs & Hh & Hc & Hb & Hnd).
  unfold table_insert in Hrun.
  erewrite bind_Ret_eq in Hrun by by eapply table_at_rep.
  apply (insert_entry_outcome s s' head cs) in Hrun
    as [?|(-> & Hname & a & b & Hal & Ha & Hb' & Hab & Hs')];
    [by left| |by destruct Hrep|done].
  right. split_and!; [done|done|]. exists head, cs, a, b.
  split_and!; try done. rewrite Hs'. cbn [heap].
  by apply table_rep_insert.
Qed.

Lemma table_find_run (s : St) table heads css name cs fuel :
  table_rep (heap s) table heads css →
  css !! Z.to_nat (hash name) = Some cs →
  name ≠ SENTINEL_chars →
  (length cs < fuel)%nat →
  table_find fuel table name s = Ret (c_node <$> first_match name cs) s.
Proof.
  intros Hrep Hc Hname Hfuel.
  destruct (rep_bucket_at _ _ _ _ name Hrep) as (head & cs' & Hh & Hc' & Hb & Hnd).
  simplify_eq. unfold table_find.
  eapply bind_Ret; [by eapply table_at_rep|]. cbn beta.
  apply find_entry_bucket; try done. by destruct Hrep.
Qed.

Lemma table_find_partial (s s' : St) table heads css name cs fuel r :
  table_rep (heap s) table heads css →
  css !! Z.to_nat (hash name) = Some cs →
  name ≠ SENTINEL_chars →
  table_find fuel table name s = Ret r s' →
  s' = s ∧ r = c_node <$> first_match name cs.
Proof.
  intros Hrep Hc Hname Hrun.
  destruct (rep_bucket_at _ _ _ _ name Hrep) as (head & cs' & Hh & Hc' & Hb & Hnd).
  simplify_eq. unfold table_find in Hrun.
  erewrite bind_Ret_eq in Hrun by by eapply table_at_rep.
  eapply find_entry_partial; try done. by destruct Hrep.
Qed.

Lemma table_find_sentinel (s : St) table heads css fuel :
  table_rep (heap s) table heads css →
  table_find fuel table SENTINEL_chars s
  = Ret NULL (mk_state (heap s) (allocs s) (freed s)
                (output s ++ [Cannot_locate_sentinel])).
Proof.
  intros Hrep.
  destruct (rep_bucket_at _ _ _ _ SENTINEL_chars Hrep)
    as (head & cs' & Hh & Hc' & Hb & Hnd).
  unfold table_find.
  eapply bind_Ret; [by eapply table_at_rep|]. cbn beta.
  apply find_entry_sentinel. by destruct Hrep.
Qed.

Lemma table_remove_found (s : St) table heads css name head cs c fuel :
  table_rep (heap s) table heads css →
  heads !! Z.to_nat (hash name) = Some head →
  css !! Z.to_nat (hash name) = Some cs →
  first_match name cs = Some c →
  (length cs < fuel)%nat →
  ∃ pre post np,
    cs = pre ++ c :: post ∧ (name ∉ values pre) ∧ c_val c = name
    ∧ remove_first name cs = pre ++ post
    ∧ heap s !! last_node head pre = Some (Node np)
    ∧ table_remove fuel table name s
      = Ret true (mk_state (unlinked (heap s) (last_node head pre) np c post)
                    (allocs s) (freed s ++ [c_str c; c_node c]) (output s))
    ∧ table_rep (unlinked (heap s) (last_node head pre) np c post) table heads
        (<[Z.to_nat (hash name) := pre ++ post]> css).
Proof.
  intros Hrep Hh Hc Hfm Hfuel.
  destruct (first_match_split _ _ _ Hfm) as (pre & post & -> & Hpre & Hv & Hrm).
  assert (Hname : name ≠ SENTINEL_chars).
  { rewrite <- Hv. eapply (rep_user _ _ _ _ Hrep); [done|].
    apply elem_of_app; right. by left. }
  assert (Hb : bucket (heap s) head (pre ++ c :: post))
    by by eapply Forall2_lookup_lr; [apply (rep_buckets _ _ _ _ Hrep)|..].
  destruct (footprint_bucket _ _ _ _ _ (rep_separate _ _ _ _ Hrep) Hh Hc) as [Hnd _].
  destruct (remove_entry_bucket s head pre c post) as (np & Hnp & Hrun);
    [by destruct Hrep|done|done|by rewrite Hv|].
  exists pre, post, np. split_and!; try done.
  - unfold table_remove.
    eapply bind_Ret; [by eapply table_find_run|]. rewrite Hfm. cbn [fmap option_fmap option_map].
    eapply bind_Ret; [exact Hrun|]. done.
  - by eapply table_rep_remove.
Qed.

Lemma table_remove_absent (s : St) table heads css name cs fuel :
  table_rep (heap s) table heads css →
  css !! Z.to_nat (hash name) = Some cs →
  name ∉ values cs →
  (length cs < fuel)%nat →
  table_remove fuel table name s
  = Ret false (mk_state (heap s) (allocs s) (freed s)
                 (output s ++ not_found_messages name)).
Proof.
  intros Hrep Hc Habs Hfuel. unfold table_remove, not_found_messages.
  destruct (decide (name = SENTINEL_chars)) as [->|Hname].
  - rewrite bool_decide_eq_true_2 by done.
    eapply bind_Ret; [by eapply table_find_sentinel|]. cbn.
    unfold bind, print, ret. cbn. by rewrite <- app_assoc.
  - rewrite bool_decide_eq_false_2 by done.
    eapply bind_Ret; [by eapply table_find_run|].
    apply first_match_None in Habs. rewrite Habs. done.
Qed.

Lemma table_remove_outcome (s s' : St) table heads css name ok fuel :
  table_rep (heap s) table heads css →
  table_remove fuel table name s = Ret ok s' →
  (ok = false ∧ heap s' = heap s ∧ freed s' = freed s ∧ allocs s' = allocs s)
  ∨ (ok = true
     ∧ ∃ head pre c post np,
         heads !! Z.to_nat (hash name) = Some head
         ∧ css !! Z.to_nat (hash name) = Some (pre ++ c :: post)
         ∧ (name ∉ values pre) ∧ c_val c = name
         ∧ heap s !! last_node head pre = Some (Node np)
         ∧ s' = mk_state (unlinked (heap s) (last_node head pre) np c post)
                  (allocs s) (freed s ++ [c_str c; c_node c]) (output s)
         ∧ table_rep (heap s') table heads
             (<[Z.to_nat (hash name) := pre ++ post]> css)).
Proof.
  intros Hrep Hrun.
  destruct (rep_bucket_at _ _ _ _ name Hrep) as (head & cs & Hh & Hc & Hb & Hnd).
  unfold table_remove in Hrun.
  destruct (decide (name = SENTINEL_chars)) as [->|Hname].
  { erewrite bind_Ret_eq in Hrun by by eapply table_find_sentinel.
    cbn in Hrun. unfold ret in Hrun. simplify_eq. left. by cbn. }
  apply bind_inv in Hrun as (element & s1 & Hfind & Hrun).
  destruct (table_find_partial _ _ _ _ _ _ _ _ _ Hrep Hc Hname Hfind) as [-> ->].
  destruct (first_match name cs) as [c|] eqn:Hfm; cbn in Hrun.
  - destruct (first_match_split _ _ _ Hfm) as (pre & post & -> & Hpre & Hv & Hrm).
    assert (c_val c ≠ SENTINEL_chars) by by rewrite Hv.
    destruct (remove_entry_bucket s head pre c post) as (np & Hnp & Hrem);
      [by destruct Hrep|done|done|done|].
    erewrite bind_Ret_eq in Hrun by exact Hrem. cbn in Hrun.
    unfold ret in Hrun. simplify_eq.
    right. split; [done|]. exists head, pre, c, post, np.
    split_and!; try done. cbn [heap]. by eapply table_rep_remove.
  - unfold ret in Hrun. simplify_eq. left. by cbn.
Qed.

(** ** Creation of the table *)

Lemma create_list_outcome (s s' : St) p :
  create_list s = Ret p s' →
  (p = NULL ∧ heap s' = heap s)
  ∨ (∃ l, p = Some l ∧ heap s !! l = None
          ∧ heap s' = <[l := Node (mk_node SENTINEL NULL NULL)]>
                        (<[l := Uninit]> (heap s))).
Proof.
  unfold create_list. intros Hrun.
  destruct (malloc_cases Uninit s) as [(rest & Hma)|(l & rest & Hal & Hl & Hma)].
  - erewrite bind_Ret_eq in Hrun by exact Hma. cbn in Hrun.
    unfold ret in Hrun. simplify_eq. by left.
  - erewrite bind_Ret_eq in Hrun by exact Hma. cbn beta iota in Hrun.
    erewrite bind_Ret_eq in Hrun by (eapply store_live; lookup_now).
    unfold ret, set_heap in Hrun. cbn in Hrun. simplify_eq. right. by exists l.
Qed.

Lemma create_lists_outcome (n : nat) (i : Z) (s s' : St) table :
  create_lists n i s = Ret (Some table) s' →
  ∃ heads, table = map Some heads ∧ length heads = n ∧ NoDup heads
           ∧ (∀ l, l ∈ heads →
                heap s !! l = None
                ∧ heap s' !! l = Some (Node (mk_node SENTINEL NULL NULL)))
           ∧ (∀ l, l ∉ heads → heap s' !! l = heap s !! l).
Proof.
  revert i s table; induction n as [|n IH]; intros i s table Hrun.
  - cbn in Hrun. unfold ret in Hrun. simplify_eq. exists []. split_and!; try done.
    + constructor.
    + intros l Hl. by apply elem_of_nil in Hl.
  - cbn [create_lists] in Hrun.
    apply bind_inv in Hrun as (p & s1 & Hcreate & Hrun).
    apply create_list_outcome in Hcreate as [[-> _]|(l & -> & Hl & Hs1)].
    { cbn in Hrun. unfold ret in Hrun. by simplify_eq. }
    cbn beta iota in Hrun.
    apply bind_inv in Hrun as (rest & s2 & Hrest & Hrun).
    unfold ret in Hrun. destruct rest as [table'|]; cbn in Hrun; simplify_eq.
    destruct (IH _ _ _ Hrest) as (heads & -> & Hlen & Hnd & Hnew & Hold).
    assert (Hl1 : is_Some (heap s1 !! l)) by (rewrite Hs1, lookup_insert_eq; eauto).
    assert (Hnotin : l ∉ heads).
    { intros Hin. destruct (Hnew _ Hin) as [E _]. rewrite E in Hl1. by destruct Hl1. }
    exists (l :: heads). split_and!; try done.
    + cbn. by rewrite Hlen.
    + by apply NoDup_cons.
    + intros l' [->|Hin]%elem_of_cons.
      * split; [done|]. rewrite Hold, Hs1 by done. by rewrite lookup_insert_eq.
      * destruct (Hnew _ Hin) as [E1 E2]. split; [|done].
        rewrite Hs1 in E1. assert (l ≠ l') by (intros ->; done).
        by rewrite !lookup_insert_ne in E1 by done.
    + intros l' Hl'. apply not_elem_of_cons in Hl' as [Hne Hl'].
      rewrite Hold, Hs1 by done. by rewrite !lookup_insert_ne by done.
Qed.

Lemma create_table_rep (future : list ptr) (s : St) table :
  create_table (initial future) = Ret (Some table) s →
  ∃ heads, table_rep (heap s) table heads (replicate (Z.to_nat TABLE_SIZE) []).
Proof.
  intros Hrun. apply create_lists_outcome in Hrun
    as (heads & -> & Hlen & Hnd & Hnew & Hold).
  exists heads.
  assert (Hs : SENTINEL_addr ∉ heads).
  { intros Hin. destruct (Hnew _ Hin) as [E _]. unfold initial in E.
    cbn [heap] in E. by rewrite lookup_singleton_eq in E. }
  assert (Hfoot : footprint heads (replicate (Z.to_nat TABLE_SIZE) [])
                  = SENTINEL_addr :: heads).
  { unfold footprint. cbn. by rewrite app_nil_r. }
  split; try done.
  - rewrite Hold by done. unfold initial. cbn [heap]. by rewrite lookup_singleton_eq.
  - apply Forall2_same_length_lookup. split; [by rewrite length_replicate|].
    intros j hj cj Hhj [-> _]%lookup_replicate. split; [|done].
    cbn [first]. apply Hnew. by eapply list_elem_of_lookup_2.
  - rewrite Hfoot. by apply NoDup_cons.
  - intros j cj c [-> _]%lookup_replicate Hin. by apply elem_of_nil in Hin.
  - intros j cj c [-> _]%lookup_replicate Hin. by apply elem_of_nil in Hin.
  - intros l. rewrite Hfoot, elem_of_cons. split.
    + intros Hl. destruct (decide (l ∈ heads)) as [|Hout]; [by right|left].
      rewrite Hold in Hl by done. unfold initial in Hl. cbn [heap] in Hl.
      destruct (decide (l = SENTINEL_addr)) as [|Hne]; [done|].
      rewrite lookup_singleton_ne in Hl by done. by destruct Hl.
    + intros [->|Hin].
      * rewrite Hold by done. unfold initial. cbn [heap].
        rewrite lookup_singleton_eq. eauto.
      * destruct (Hnew _ Hin) as [_ E]. rewrite E. eauto.
Qed.

(** ** Validity is an invariant of the runs *)

Lemma valid_heap (s s' : St) table :
  heap s' = heap s → valid s table → valid s' table.
Proof. intros E (heads & css & Hrep). exists heads, css. by rewrite E. Qed.

Lemma run_op_valid (fuel : nat) (table : list ptr) (o : op) (s s' : St) :
  valid s table → run_op fuel table o s = Ret tt s' → valid s' table.
Proof.
  intros Hv Hrun. destruct o as [name|name|name|]; cbn [run_op] in Hrun.
  - apply bind_inv in Hrun as (ok & s1 & Hop & Hret).
    unfold ret in Hret. simplify_eq.
    destruct Hv as (heads & css & Hrep).
    apply (table_insert_outcome _ _ _ _ _ _ _ Hrep) in Hop
      as [(_ & E & _)|(_ & _ & head & cs & a & b & _ & _ & _ & _ & _ & _ & _ & Hrep')].
    + exists heads, css. by rewrite E.
    + by eexists _, _.
  - apply bind_inv in Hrun as (r & s1 & Hop & Hret).
    unfold ret in Hret. simplify_eq.
    apply reads_only_table_find in Hop as (E & _). by eapply valid_heap.
  - apply bind_inv in Hrun as (ok & s1 & Hop & Hret).
    unfold ret in Hret. simplify_eq.
    destruct Hv as (heads & css & Hrep).
    apply (table_remove_outcome _ _ _ _ _ _ _ _ Hrep) in Hop
      as [(_ & E & _)|(_ & head & pre & c & post & np & _ & _ & _ & _ & _ & _ & Hrep')].
    + exists heads, css. by rewrite E.
    + by eexists _, _.
  - apply reads_only_print_lists in Hrun as (E & _). by eapply valid_heap.
Qed.

Lemma run_ops_valid (table : list ptr) (os : list (nat * op)) (s s' : St) :
  valid s table → run_ops table os s = Ret tt s' → valid s' table.
Proof.
  revert s; induction os as [|[fuel o] os IH]; intros s Hv Hrun; cbn [run_ops] in Hrun.
  - unfold ret in Hrun. by simplify_eq.
  - apply bind_inv in Hrun as ([] & s1 & Hop & Hrun).
    eapply IH; [|done]. by eapply run_op_valid.
Qed.

Lemma reachable_valid (table : list ptr) (s : St) :
  reachable table s → valid s table.
Proof.
  intros (future & os & s0 & Hcreate & Hrun).
  eapply run_ops_valid; [|done].
  apply create_table_rep in Hcreate as (heads & Hrep). by eexists _, _.
Qed.

(** ** Observing the buckets *)

Lemma contents_chain (s : St) pv cs fuel :
  chain (heap s) pv cs → (length cs ≤ fuel)%nat →
  contents fuel (first cs) s = Ret (values cs) s.
Proof.
  revert pv fuel; induction cs as [|c cs IH]; intros pv fuel Hc Hfuel.
  - by destruct fuel.
  - destruct Hc as (Hn & Hs & Hrest).
    destruct fuel as [|fuel]; [cbn in Hfuel; lia|].
    cbn [first contents].
    step get_value_live.
    step load_chars_live.
    step get_next_live.
    eapply bind_Ret; [eapply IH; [done|cbn in Hfuel; lia]|]. done.
Qed.

Lemma contents_bucket (s : St) head cs fuel :
  heap s !! SENTINEL_addr = Some (Chars SENTINEL_chars) →
  bucket (heap s) head cs → (length cs < fuel)%nat →
  contents fuel (Some head) s = Ret (SENTINEL_chars :: values cs) s.
Proof.
  intros Hm [Hh Hc] Hfuel. destruct fuel as [|fuel]; [lia|]. cbn [contents].
  step get_value_live.
  step load_chars_live.
  step get_next_live.
  eapply bind_Ret; [eapply contents_chain; [done|lia]|]. done.
Qed.

Lemma bucket_values_bucket (s : St) head cs fuel :
  bucket (heap s) head cs → (length cs ≤ fuel)%nat →
  bucket_values fuel (Some head) s = Ret (values cs) s.
Proof.
  intros [Hh Hc] Hfuel. unfold bucket_values.
  step get_next_live. by eapply contents_chain.
Qed.

Lemma contents_partial (s s' : St) pv cs fuel vs :
  chain (heap s) pv cs →
  contents fuel (first cs) s = Ret vs s' →
  s' = s ∧ vs = values cs.
Proof.
  revert pv fuel vs s'; induction cs as [|c cs IH]; intros pv fuel vs s' Hc.
  - destruct fuel; cbn; by intros [= <- <-].
  - destruct Hc as (Hn & Hs & Hrest).
    destruct fuel as [|fuel]; [done|].
    cbn [first contents]. intros Hrun.
    step get_value_live in Hrun.
    step load_chars_live in Hrun.
    step get_next_live in Hrun.
    apply bind_inv in Hrun as (rest & s1 & Hrest' & Hret).
    destruct (IH _ _ _ _ Hrest Hrest') as [-> ->].
    unfold ret in Hret. by simplify_eq.
Qed.

Lemma bucket_values_partial (s s' : St) head cs fuel vs :
  bucket (heap s) head cs →
  bucket_values fuel (Some head) s = Ret vs s' →
  s' = s ∧ vs = values cs.
Proof.
  intros [Hh Hc]. unfold bucket_values. intros Hrun.
  step get_next_live in Hrun. by eapply contents_partial.
Qed.

Lemma chain_cell (h : gmap loc block) pv cs c :
  chain h pv cs → c ∈ cs →
  ∃ pv' nx, h !! c_node c = Some (Node (mk_node (Some (c_str c)) pv' nx))
            ∧ h !! c_str c = Some (Chars (c_val c)).
Proof.
  revert pv; induction cs as [|c0 cs IH]; intros pv Hc Hin.
  - by apply elem_of_nil in Hin.
  - destruct Hc as (Hn & Hs & Hrest).
    apply elem_of_cons in Hin as [->|Hin]; [eauto|by eapply IH].
Qed.

Lemma values_remove_first (v : cstr) (cs : list cell) :
  values (remove_first v cs) = without_first v (values cs).
Proof.
  induction cs as [|c cs IH]; [done|]. cbn [remove_first values map without_first].
  case_bool_decide; [done|]. cbn [map]. f_equal. apply IH.
Qed.

Lemma elem_of_values (v : cstr) (cs : list cell) :
  v ∈ values cs ↔ ∃ c, c ∈ cs ∧ c_val c = v.
Proof.
  unfold values. change (map c_val cs) with (c_val <$> cs).
  rewrite list_elem_of_fmap. naive_solver.
Qed.

Lemma first_match_is_Some (v : cstr) (cs : list cell) :
  v ∈ values cs → ∃ c, first_match v cs = Some c.
Proof.
  intros Hin. destruct (first_match v cs) as [c|] eqn:E; [eauto|].
  by apply first_match_None in E.
Qed.

(** ** A run of insertions *)

Lemma insert_all_rep (s s' : St) table heads css names :
  table_rep (heap s) table heads css →
  insert_all table names s = Ret true s' →
  ∃ css', table_rep (heap s') table heads css'
          ∧ (∀ k, k ∈ names →
               ∃ cs, css' !! Z.to_nat (hash k) = Some cs ∧ k ∈ values cs)
          ∧ (∀ i cs, css !! i = Some cs →
               ∃ cs', css' !! i = Some cs' ∧ ∀ v, v ∈ values cs → v ∈ values cs').
Proof.
  revert s css; induction names as [|name names IH]; intros s css Hrep Hrun.
  - cbn in Hrun. unfold ret in Hrun. simplify_eq. exists css. split_and!; [done| |eauto].
    intros k Hk. by apply elem_of_nil in Hk.
  - cbn [insert_all] in Hrun.
    apply bind_inv in Hrun as (ok & s1 & Hins & Hrun).
    apply bind_inv in Hrun as (oks & s2 & Hall & Hret).
    unfold ret in Hret. injection Hret as Hand Hs2. subst s2.
    apply andb_prop in Hand as [-> ->].
    apply (table_insert_outcome _ _ _ _ _ _ _ Hrep) in Hins
      as [(? & _)|(_ & Hname & head & cs & a & b & Hh & Hc & _ & _ & _ & _ & _ & Hrep1)];
      [done|].
    destruct (IH _ _ Hrep1 Hall) as (css' & Hrep' & Hin & Hmono).
    assert (Hlt : (Z.to_nat (hash name) < length css)%nat) by by eapply lookup_lt_Some.
    exists css'. split_and!; [done| |].
    + intros k [->|Hk]%elem_of_cons; [|by apply Hin].
      destruct (Hmono (Z.to_nat (hash name)) (mk_cell a b name :: cs))
        as (cs' & Hcs' & Hsub); [by apply list_lookup_insert_eq|].
      exists cs'. split; [done|]. apply Hsub. cbn. by left.
    + intros i ci Hci. destruct (decide (i = Z.to_nat (hash name))) as [->|Hne].
      * destruct (Hmono (Z.to_nat (hash name)) (mk_cell a b name :: cs))
          as (cs' & Hcs' & Hsub); [by apply list_lookup_insert_eq|].
        simplify_eq. exists cs'. split; [done|]. intros v Hv. apply Hsub. cbn. by right.
      * apply Hmono. by rewrite list_lookup_insert_ne.
Qed.

Lemma demo_created :
  create_table (initial demo_future)
  = Ret (Some demo_table) (state_of (create_table (initial demo_future))).
Proof. vm_compute. reflexivity. Qed.

Lemma demo_reachable (os : list op) :
  run_ops demo_table (map (pair demo_fuel) os)
    (state_of (create_table (initial demo_future)))
  = Ret tt (demo_state os) →
  reachable demo_table (demo_state os).
Proof.
  intros Hrun.
  exists demo_future, (map (pair demo_fuel) os),
    (state_of (create_table (initial demo_future))).
  split; [apply demo_created|done].
Qed.

Lemma reachable_marker (table : list ptr) (s : St) :
  reachable table s → heap s !! SENTINEL_addr = Some (Chars SENTINEL_chars).
Proof. intros (heads & css & Hrep)%reachable_valid. by destruct Hrep. Qed.

Lemma rep_bucket_of (h : gmap loc block) table heads css (p : ptr) :
  table_rep h table heads css → p ∈ table →
  ∃ i head cs, p = Some head ∧ heads !! i = Some head ∧ css !! i = Some cs
               ∧ table !! i = Some p
               ∧ bucket h head cs ∧ NoDup (head :: addrs cs).
Proof.
  intros Hrep Hp. rewrite (rep_table _ _ _ _ Hrep) in *.
  change (map Some heads) with (Some <$> heads) in *.
  apply list_elem_of_lookup in Hp as [i Hi].
  rewrite list_lookup_fmap in Hi.
  destruct (heads !! i) as [head|] eqn:Hh; [|done]. cbn in Hi. simplify_eq.
  assert (Hlen : length css = length heads)
    by (symmetry; eapply Forall2_length, rep_buckets; done).
  destruct (lookup_lt_is_Some_2 css i) as [cs Hc].
  { rewrite Hlen. by eapply lookup_lt_Some. }
  exists i, head, cs. split_and!; try done.
  - by rewrite list_lookup_fmap, Hh.
  - by eapply Forall2_lookup_lr; [apply (rep_buckets _ _ _ _ Hrep)|..].
  - by eapply footprint_bucket; [apply (rep_separate _ _ _ _ Hrep)|..].
Qed.

Lemma remove_entry_sentinel (s : St) (head : loc) (n : node) :
  heap s !! SENTINEL_addr = Some (Chars SENTINEL_chars) →
  heap s !! head = Some (Node n) → value n = SENTINEL →
  remove_entry (Some head) s
  = Ret false (mk_state (heap s) (allocs s) (freed s)
                 (output s ++ [Cannot_remove_sentinel])).
Proof.
  intros Hm Hh Hv. unfold remove_entry.
  step get_value_live. rewrite Hv.
  step load_chars_live.
  eapply bind_Ret; [by apply strcmp_at_live|]. cbn beta.
  by rewrite strcmp_same.
Qed.

Lemma not_in_values (cs : list cell) (v : cstr) :
  (∀ c, c ∈ cs → c_val c ≠ v) → v ∉ values cs.
Proof. intros H (c & Hc & E)%elem_of_values. by eapply H. Qed.

(** C6: inserting the reserved marker "SENTINEL" is rejected: [insert_entry]
    reports the error and returns [false], and the memory, hence every
    bucket, the allocator and the log of releases are as before.  The same
    holds for the insertion through the table. *)
Theorem insert_sentinel_rejected (table : list ptr) (s : St) (list_head : ptr) :
  reachable table s →
  insert_entry list_head (lit "SENTINEL") s
  = Ret false (mk_state (heap s) (allocs s) (freed s)
                 (output s ++ [Cannot_insert_sentinel]))
  ∧ table_insert table (lit "SENTINEL") s
    = Ret false (mk_state (heap s) (allocs s) (freed s)
                   (output s ++ [Cannot_insert_sentinel])).
Proof.
  intros Hreach. pose proof (reachable_marker _ _ Hreach) as Hm.
  split; [by apply insert_entry_sentinel|].
  apply reachable_valid in Hreach as (heads & css & Hrep).
  destruct (rep_bucket_at _ _ _ _ (lit "SENTINEL") Hrep) as (head & cs & Hh & _).
  unfold table_insert.
  eapply bind_Ret; [by eapply table_at_rep|]. by apply insert_entry_sentinel.
Qed.

Lemma insert_sentinel_rejected_witness :
  reachable demo_table (demo_state [Insert (lit "alice")])
  ∧ insert_entry (Some 2%positive) (lit "SENTINEL") (demo_state [Insert (lit "alice")])
    = Ret false
        (mk_state (heap (demo_state [Insert (lit "alice")]))
           (allocs (demo_state [Insert (lit "alice")]))
           (freed (demo_state [Insert (lit "alice")]))
           (output (demo_state [Insert (lit "alice")]) ++ [Cannot_insert_sentinel]))
  ∧ table_insert demo_table (lit "SENTINEL") (demo_state [Insert (lit "alice")])
    = Ret false
        (mk_state (heap (demo_state [Insert (lit "alice")]))
           (allocs (demo_state [Insert (lit "alice")]))
           (freed (demo_state [Insert (lit "alice")]))
           (output (demo_state [Insert (lit "alice")]) ++ [Cannot_insert_sentinel])).
Proof.
  assert (reachable demo_table (demo_state [Insert (lit "alice")])) as H.
  { apply demo_reachable. vm_compute. reflexivity. }
  split; [exact H|].
  exact (insert_sentinel_rejected demo_table _ (Some 2%positive) H).
Defined.

(** C4: in every state reachable from the creation of the table by
    insertions, searches, removals and printing, each of the five bucket
    lists starts with a sentinel node (its value is the marker "SENTINEL", it
    has no predecessor), no other node of the list holds the marker, and
    [remove_entry] on the sentinel is refused and changes nothing. *)
Theorem sentinel_invariant (table : list ptr) (s : St) :
  reachable table s →
  length table = 5%nat
  ∧ ∀ p, p ∈ table →
      ∃ vs,
        (∃ N, ∀ fuel, (N ≤ fuel)%nat →
           contents fuel p s = Ret (lit "SENTINEL" :: vs) s)
        ∧ (lit "SENTINEL" ∉ vs)
        ∧ (∃ n, load_node p s = Ret n s ∧ value n = SENTINEL ∧ prev n = NULL)
        ∧ remove_entry p s
          = Ret false (mk_state (heap s) (allocs s) (freed s)
                         (output s ++ [Cannot_remove_sentinel])).
Proof.
  intros Hreach. pose proof (reachable_marker _ _ Hreach) as Hm.
  apply reachable_valid in Hreach as (heads & css & Hrep). split.
  { rewrite (rep_table _ _ _ _ Hrep), length_map. apply (rep_size _ _ _ _ Hrep). }
  intros p Hp.
  destruct (rep_bucket_of _ _ _ _ _ Hrep Hp)
    as (i & head & cs & -> & Hh & Hc & _ & Hb & Hnd).
  exists (values cs). split_and!.
  - exists (S (length cs)). intros fuel Hfuel. apply contents_bucket; [done|done|lia].
  - apply not_in_values. intros c Hin. by eapply (rep_user _ _ _ _ Hrep).
  - destruct Hb as [Hhead _]. eexists. split; [by apply load_node_live|done].
  - destruct Hb as [Hhead _]. by eapply remove_entry_sentinel.
Qed.

Lemma sentinel_invariant_witness :
  reachable demo_table
    (demo_state [Insert (lit "alice"); Insert (lit "bob"); Remove (lit "alice"); Display])
  ∧ length demo_table = 5%nat
  ∧ ∃ vs, (∃ N, ∀ fuel, (N ≤ fuel)%nat →
             contents fuel (Some 2%positive)
               (demo_state [Insert (lit "alice"); Insert (lit "bob");
                            Remove (lit "alice"); Display])
             = Ret (lit "SENTINEL" :: vs)
                 (demo_state [Insert (lit "alice"); Insert (lit "bob");
                              Remove (lit "alice"); Display]))
          ∧ (lit "SENTINEL" ∉ vs).
Proof.
  assert (reachable demo_table
            (demo_state [Insert (lit "alice"); Insert (lit "bob");
                         Remove (lit "alice"); Display])) as H.
  { apply demo_reachable. vm_compute. reflexivity. }
  split; [exact H|].
  destruct (sentinel_invariant _ _ H) as [Hlen Hall]. split; [exact Hlen|].
  destruct (Hall (Some 2%positive)) as (vs & Hvs & Hnot & _).
  { apply list_elem_of_In. cbn. tauto. }
  exists vs. split; [exact Hvs|exact Hnot].
Defined.

(** C5: a successful [insert_entry(list_head, value)] on a bucket list
    allocates a node and a copy of [value], makes the node the successor of
    the sentinel, with the sentinel as predecessor and the sentinel's former
    successor as successor, and redirects the predecessor link of that former
    successor when there is one; the values of the bucket are then [value]
    followed by the values it had. *)
Theorem insert_links (table : list ptr) (s s' : St) (head : loc) (v : cstr) :
  reachable table s → Some head ∈ table →
  insert_entry (Some head) v s = Ret true s' →
  v ≠ lit "SENTINEL"
  ∧ ∃ (new_entry new_string : loc) (old : node),
      heap s !! head = Some (Node old)
      ∧ heap s !! new_entry = None ∧ heap s !! new_string = None
      ∧ heap s' !! head = Some (Node (mk_node SENTINEL NULL (Some new_entry)))
      ∧ heap s' !! new_entry
        = Some (Node (mk_node (Some new_string) (Some head) (next old)))
      ∧ heap s' !! new_string = Some (Chars v)
      ∧ (∀ succ, next old = Some succ →
           ∃ n, heap s !! succ = Some (Node n)
                ∧ heap s' !! succ
                  = Some (Node (mk_node (value n) (Some new_entry) (next n))))
      ∧ ∃ vs N, ∀ fuel, (N ≤ fuel)%nat →
          bucket_values fuel (Some head) s = Ret vs s
          ∧ bucket_values fuel (Some head) s' = Ret (v :: vs) s'.
Proof.
  intros Hreach Hp Hrun. pose proof (reachable_marker _ _ Hreach) as Hm.
  apply reachable_valid in Hreach as (heads & css & Hrep).
  destruct (rep_bucket_of _ _ _ _ _ Hrep Hp)
    as (i & head' & cs & [= <-] & Hh & Hc & _ & Hb & Hnd).
  apply (insert_entry_outcome s s' head cs) in Hrun
    as [(? & _)|(_ & Hv & a & b & Hal & Ha & Hb' & Hab & ->)]; [done| |done|done].
  split; [done|].
  pose proof (bucket_linked _ _ a b v _ Hb Hnd Ha Hb' Hab) as [Hhead' Hchain'].
  destruct Hchain' as (Hna & Hsb & Hrest'). cbn [c_node c_str c_val first] in *.
  exists a, b, (mk_node SENTINEL NULL (first cs)). cbn [heap next].
  destruct Hb as [Hhead Hchain]. split_and!; try done.
  - intros succ Hsucc. destruct cs as [|c1 cs']; [done|].
    cbn in Hsucc. simplify_eq.
    destruct Hchain as (Hn1 & _). destruct Hrest' as (Hn1' & _).
    eexists. split; [exact Hn1|]. exact Hn1'.
  - exists (values cs), (length cs + 1)%nat. intros fuel Hfuel. split.
    + apply bucket_values_bucket; [done|lia].
    + apply (bucket_values_bucket _ head (mk_cell a b v :: cs)); [|cbn; lia].
      by apply bucket_linked.
Qed.

Lemma insert_links_witness :
  ∃ s', insert_entry (Some 2%positive) (lit "dup") (demo_state [Insert (lit "bob")])
        = Ret true s'
        ∧ lit "dup" ≠ lit "SENTINEL".
Proof.
  eexists. split; [vm_compute; reflexivity|].
  refine (proj1 (insert_links demo_table (demo_state [Insert (lit "bob")]) _
                   2%positive (lit "dup") _ _ _)).
  - apply demo_reachable. vm_compute. reflexivity.
  - apply list_elem_of_In. cbn. tauto.
  - vm_compute. reflexivity.
Defined.

(** C1: after any sequence of insertions into the table that all returned
    [true], a search for any of the inserted keys returns a node of the
    table whose string compares equal to the key (given the fuel to walk the
    bucket). *)
Theorem find_after_insert (table : list ptr) (s s' : St) (names : list cstr)
    (k : cstr) :
  reachable table s →
  insert_all table names s = Ret true s' →
  k ∈ names →
  ∃ N, ∀ fuel, (N ≤ fuel)%nat →
    ∃ (l : loc) (n : node) (q : loc) (v : cstr),
      table_find fuel table k s' = Ret (Some l) s'
      ∧ heap s' !! l = Some (Node n)
      ∧ value n = Some q
      ∧ heap s' !! q = Some (Chars v)
      ∧ strcmp v k = 0.
Proof.
  intros Hreach Hrun Hk.
  apply reachable_valid in Hreach as (heads & css & Hrep).
  destruct (insert_all_rep _ _ _ _ _ _ Hrep Hrun) as (css' & Hrep' & Hin & _).
  destruct (Hin _ Hk) as (cs & Hc & Hkcs).
  destruct (first_match_is_Some _ _ Hkcs) as (c & Hfm).
  destruct (first_match_Some _ _ _ Hfm) as [Hccs Hcv].
  destruct (rep_bucket_at _ _ _ _ k Hrep') as (head & cs' & Hh & Hc' & Hb & Hnd).
  simplify_eq.
  destruct Hb as [_ Hchain].
  destruct (chain_cell _ _ _ _ Hchain Hccs) as (pv' & nx & Hn & Hs).
  exists (S (length cs)). intros fuel Hfuel.
  exists (c_node c), (mk_node (Some (c_str c)) pv' nx), (c_str c), (c_val c).
  split_and!; try done.
  - erewrite table_find_run; [by rewrite Hfm|done|done| |lia].
    eapply (rep_user _ _ _ _ Hrep'); done.
  - apply strcmp_refl.
Qed.

Lemma find_after_insert_witness :
  ∃ s', insert_all demo_table [lit "alice"; lit "bob"; lit "carol"] (demo_state [])
        = Ret true s'
        ∧ ∃ N, ∀ fuel, (N ≤ fuel)%nat →
            ∃ (l : loc) (n : node) (q : loc) (v : cstr),
              table_find fuel demo_table (lit "bob") s' = Ret (Some l) s'
              ∧ heap s' !! l = Some (Node n)
              ∧ value n = Some q
              ∧ heap s' !! q = Some (Chars v)
              ∧ strcmp v (lit "bob") = 0.
Proof.
  eexists. split; [vm_compute; reflexivity|].
  apply (find_after_insert demo_table (demo_state []) _
           [lit "alice"; lit "bob"; lit "carol"] (lit "bob")).
  - apply demo_reachable. vm_compute. reflexivity.
  - vm_compute. reflexivity.
  - apply list_elem_of_In. cbn. tauto.
Defined.

Lemma rep_bucket_index (h : gmap loc block) table heads css (j : nat) (p : ptr) :
  table_rep h table heads css → table !! j = Some p →
  ∃ head cs, p = Some head ∧ heads !! j = Some head ∧ css !! j = Some cs
             ∧ bucket h head cs.
Proof.
  intros Hrep Hp. rewrite (rep_table _ _ _ _ Hrep) in *.
  change (map Some heads) with (Some <$> heads) in *.
  rewrite list_lookup_fmap in Hp.
  destruct (heads !! j) as [head|] eqn:Hh; [|done]. cbn in Hp. simplify_eq.
  assert (Hlen : length css = length heads)
    by (symmetry; eapply Forall2_length, rep_buckets; done).
  destruct (lookup_lt_is_Some_2 css j) as [cs Hc].
  { rewrite Hlen. by eapply lookup_lt_Some. }
  exists head, cs. split_and!; try done.
  by eapply Forall2_lookup_lr; [apply (rep_buckets _ _ _ _ Hrep)|..].
Qed.

(** C7: removing a key that no bucket holds returns [false], and the memory,
    hence every bucket, the allocator and the log of releases are as before
    (given the fuel to walk the bucket). *)
Theorem remove_absent (table : list ptr) (s : St) (k : cstr) :
  reachable table s →
  (∃ fuel, ∀ p, p ∈ table → ∃ vs, bucket_values fuel p s = Ret vs s ∧ k ∉ vs) →
  ∃ N, ∀ fuel, (N ≤ fuel)%nat →
    table_remove fuel table k s
    = Ret false (mk_state (heap s) (allocs s) (freed s)
                   (output s ++ not_found_messages k)).
Proof.
  intros Hreach (fuel0 & Habs).
  apply reachable_valid in Hreach as (heads & css & Hrep).
  destruct (rep_bucket_at _ _ _ _ k Hrep) as (head & cs & Hh & Hc & Hb & Hnd).
  destruct (Habs (Some head)) as (vs & Hvs & Hk).
  { rewrite (rep_table _ _ _ _ Hrep). apply list_elem_of_In, in_map, list_elem_of_In.
    by eapply list_elem_of_lookup_2. }
  destruct (bucket_values_partial _ _ _ _ _ _ Hb Hvs) as [_ ->].
  exists (S (length cs)). intros fuel Hfuel.
  eapply table_remove_absent; [done|done|done|lia].
Qed.

Lemma remove_absent_witness :
  ∃ N, ∀ fuel, (N ≤ fuel)%nat →
    table_remove fuel demo_table (lit "zed")
      (demo_state [Insert (lit "alice"); Insert (lit "bob")])
    = Ret false
        (mk_state (heap (demo_state [Insert (lit "alice"); Insert (lit "bob")]))
           (allocs (demo_state [Insert (lit "alice"); Insert (lit "bob")]))
           (freed (demo_state [Insert (lit "alice"); Insert (lit "bob")]))
           (output (demo_state [Insert (lit "alice"); Insert (lit "bob")])
              ++ [No_such_entry])).
Proof.
  apply (remove_absent demo_table _ (lit "zed")).
  - apply demo_reachable. vm_compute. reflexivity.
  - exists 4%nat. intros p Hp. apply list_elem_of_In in Hp. cbn in Hp.
    destruct Hp as [<-|[<-|[<-|[<-|[<-|[]]]]]];
      (eexists; split; [vm_compute; reflexivity|]);
      intros Hin; apply list_elem_of_In in Hin; cbn in Hin;
      repeat destruct Hin as [Hin|Hin]; try discriminate Hin; exact Hin.
Defined.

(** C8: an insertion or a removal of a key through the table leaves the
    contents of every bucket other than the one at the key's hash index as
    they were, and in every reachable state each string stored in the bucket
    at index [j] hashes to [j]. *)
Theorem buckets_by_hash (table : list ptr) (s : St) (k : cstr) :
  reachable table s →
  (∀ ok s', table_insert table k s = Ret ok s' →
     ∀ j p, table !! j = Some p → Z.of_nat j ≠ hash k →
       ∃ N, ∀ fuel, (N ≤ fuel)%nat →
         ∃ vs, contents fuel p s = Ret vs s ∧ contents fuel p s' = Ret vs s')
  ∧ (∀ fuel0 ok s', table_remove fuel0 table k s = Ret ok s' →
       ∀ j p, table !! j = Some p → Z.of_nat j ≠ hash k →
         ∃ N, ∀ fuel, (N ≤ fuel)%nat →
           ∃ vs, contents fuel p s = Ret vs s ∧ contents fuel p s' = Ret vs s')
  ∧ (∀ j p, table !! j = Some p →
       ∃ N, ∀ fuel, (N ≤ fuel)%nat →
         ∃ vs, bucket_values fuel p s = Ret vs s
               ∧ ∀ v, v ∈ vs → hash v = Z.of_nat j).
Proof.
  intros Hreach. pose proof (reachable_marker _ _ Hreach) as Hm.
  apply reachable_valid in Hreach as (heads & css & Hrep).
  pose proof (hash_range k) as Hrange.
  assert (Hother : ∀ (s' : St) css' j p,
            table_rep (heap s') table heads css' →
            css' !! j = css !! j →
            table !! j = Some p →
            ∃ N, ∀ fuel, (N ≤ fuel)%nat →
              ∃ vs, contents fuel p s = Ret vs s ∧ contents fuel p s' = Ret vs s').
  { intros s' css' j p Hrep' Hsame Hp.
    destruct (rep_bucket_index _ _ _ _ _ _ Hrep Hp) as (head & cs & -> & Hh & Hc & Hb).
    destruct (rep_bucket_index _ _ _ _ _ _ Hrep' Hp) as (head' & cs' & E & Hh' & Hc' & Hb').
    rewrite Hsame in Hc'. simplify_eq.
    exists (S (length cs)). intros fuel Hfuel. exists (SENTINEL_chars :: values cs).
    split; apply contents_bucket; try done; try lia. by destruct Hrep'. }
  split_and!.
  - intros ok s' Hrun j p Hp Hj.
    apply (table_insert_outcome _ _ _ _ _ _ _ Hrep) in Hrun
      as [(_ & E & _)|(_ & _ & head & cs & a & b & _ & _ & _ & _ & _ & _ & _ & Hrep')].
    + apply (Hother s' css j p); [by rewrite E|done|done].
    + eapply (Hother s' _ j p); [done| |done]. apply list_lookup_insert_ne. lia.
  - intros fuel0 ok s' Hrun j p Hp Hj.
    apply (table_remove_outcome _ _ _ _ _ _ _ _ Hrep) in Hrun
      as [(_ & E & _)|(_ & head & pre & c & post & np & _ & _ & _ & _ & _ & _ & Hrep')].
    + apply (Hother s' css j p); [by rewrite E|done|done].
    + eapply (Hother s' _ j p); [done| |done]. apply list_lookup_insert_ne. lia.
  - intros j p Hp.
    destruct (rep_bucket_index _ _ _ _ _ _ Hrep Hp) as (head & cs & -> & Hh & Hc & Hb).
    exists (length cs). intros fuel Hfuel. exists (values cs).
    split; [by apply bucket_values_bucket|].
    intros v (c & Hin & <-)%elem_of_values. by eapply (rep_hash _ _ _ _ Hrep).
Qed.

Lemma buckets_by_hash_witness :
  ∃ N, ∀ fuel, (N ≤ fuel)%nat →
    ∃ vs, bucket_values fuel (Some 2%positive)
            (demo_state [Insert (lit "alice"); Insert (lit "bob"); Insert (lit "carol")])
          = Ret vs (demo_state [Insert (lit "alice"); Insert (lit "bob");
                                Insert (lit "carol")])
          ∧ ∀ v, v ∈ vs → hash v = Z.of_nat 0.
Proof.
  refine (proj2 (proj2 (buckets_by_hash demo_table _ (lit "bob") _))
            0%nat (Some 2%positive) _).
  - apply demo_reachable. vm_compute. reflexivity.
  - reflexivity.
Defined.

Lemma length_remove_first (v : cstr) (cs : list cell) :
  (length (remove_first v cs) ≤ length cs)%nat.
Proof.
  induction cs as [|c cs IH]; [done|]. cbn.
  case_bool_decide; cbn; lia.
Qed.

(** C3: when a search finds the key [k], the removal of [k] (search, then
    [remove_entry] on the node found) returns [true], releases that node, and
    leaves in the bucket the values it had without the first [k]; a later
    search for [k] finds nothing when no [k] is left, and finds another node
    holding [k] otherwise.  In the run that inserts "dup" twice, the searches
    before and after the first removal succeed and the search after the second
    removal fails. *)
Theorem remove_then_find :
  (∀ (table : list ptr) (s s0 : St) (k : cstr) (l : loc) (fuel0 : nat),
     reachable table s →
     table_find fuel0 table k s = Ret (Some l) s0 →
     ∃ N, ∀ fuel, (N ≤ fuel)%nat →
       ∃ (s' : St) (vs : list cstr) (p : ptr),
         table_at table (hash k) s = Ret p s
         ∧ bucket_values fuel p s = Ret vs s
         ∧ k ∈ vs
         ∧ table_remove fuel table k s = Ret true s'
         ∧ heap s' !! l = None
         ∧ bucket_values fuel p s' = Ret (without_first k vs) s'
         ∧ (k ∉ without_first k vs → table_find fuel table k s' = Ret NULL s')
         ∧ (k ∈ without_first k vs →
              ∃ (l' : loc) (n : node) (q : loc),
                table_find fuel table k s' = Ret (Some l') s'
                ∧ l' ≠ l
                ∧ heap s' !! l' = Some (Node n)
                ∧ value n = Some q
                ∧ heap s' !! q = Some (Chars k)))
  ∧ ∃ s, dup_scenario (initial demo_future)
         = Ret [true; true; true; true; true; true; false] s.
Proof.
  split; [|eexists; vm_compute; reflexivity].
  intros table s s0 k l fuel0 Hreach Hfind.
  apply reachable_valid in Hreach as (heads & css & Hrep).
  destruct (rep_bucket_at _ _ _ _ k Hrep) as (head & cs & Hh & Hc & Hb & Hnd).
  assert (Hk : k ≠ SENTINEL_chars).
  { intros ->. by rewrite (table_find_sentinel _ _ _ _ _ Hrep) in Hfind. }
  destruct (table_find_partial _ _ _ _ _ _ _ _ _ Hrep Hc Hk Hfind) as [-> Hl].
  destruct (first_match k cs) as [c|] eqn:Hfm; cbn in Hl; [|discriminate Hl]. simplify_eq.
  exists (S (length cs)). intros fuel Hfuel.
  destruct (table_remove_found s table heads css k head cs c fuel)
    as (pre & post & np & -> & Hpre & Hcv & Hrm & Hnp & Hrun & Hrep');
    [done|done|done|done|lia|].
  subst k.
  set (s' := mk_state (unlinked (heap s) (last_node head pre) np c post)
               (allocs s) (freed s ++ [c_str c; c_node c]) (output s)) in *.
  assert (Hlt : (Z.to_nat (hash (c_val c)) < length css)%nat) by by eapply lookup_lt_Some.
  assert (Hc' : <[Z.to_nat (hash (c_val c)) := pre ++ post]> css
                  !! Z.to_nat (hash (c_val c)) = Some (pre ++ post))
    by by apply list_lookup_insert_eq.
  assert (Hb' : bucket (heap s') head (pre ++ post))
    by by eapply Forall2_lookup_lr; [apply (rep_buckets _ _ _ _ Hrep')|..].
  assert (Hgone : heap s' !! c_node c = None).
  { apply unlinked_gone. apply NoDup_cons in Hnd as [_ Hnd].
    rewrite addrs_app, addrs_cons in Hnd.
    apply NoDup_app in Hnd as (_ & _ & Hnd).
    apply NoDup_cons in Hnd as [Hnd _]. clear -Hnd. set_solver. }
  pose proof (length_remove_first (c_val c) (pre ++ c :: post)) as Hlen.
  rewrite Hrm in Hlen.
  assert (Hvals : values (pre ++ post)
                  = without_first (c_val c) (values (pre ++ c :: post)))
    by by rewrite <- values_remove_first, Hrm.
  exists s', (values (pre ++ c :: post)), (Some head).
  split_and!.
  - by eapply table_at_rep.
  - apply bucket_values_bucket; [done|lia].
  - apply elem_of_values. exists c. split; [|done].
    apply elem_of_app; right. by left.
  - done.
  - done.
  - rewrite <- Hvals. apply bucket_values_bucket; [done|lia].
  - rewrite <- Hvals. intros Hnone%first_match_None.
    erewrite (table_find_run s'); [by rewrite Hnone|done|done|done|lia].
  - rewrite <- Hvals. intros (c' & Hfm')%first_match_is_Some.
    destruct (first_match_Some _ _ _ Hfm') as [Hin' Hv'].
    destruct Hb' as [_ Hchain'].
    destruct (chain_cell _ _ _ _ Hchain' Hin') as (pv' & nx & Hn' & Hs').
    exists (c_node c'), (mk_node (Some (c_str c')) pv' nx), (c_str c').
    split_and!; try done.
    + erewrite (table_find_run s'); [by rewrite Hfm'|done|done|done|lia].
    + intros E. rewrite E in Hn'. by rewrite Hgone in Hn'.
    + by rewrite <- Hv'.
Qed.

Lemma remove_then_find_witness :
  ∃ N, ∀ fuel, (N ≤ fuel)%nat →
    ∃ (s' : St) (vs : list cstr) (p : ptr),
      table_at demo_table (hash (lit "dup"))
        (demo_state [Insert (lit "dup"); Insert (lit "dup")])
      = Ret p (demo_state [Insert (lit "dup"); Insert (lit "dup")])
      ∧ bucket_values fuel p (demo_state [Insert (lit "dup"); Insert (lit "dup")])
        = Ret vs (demo_state [Insert (lit "dup"); Insert (lit "dup")])
      ∧ lit "dup" ∈ vs
      ∧ table_remove fuel demo_table (lit "dup")
          (demo_state [Insert (lit "dup"); Insert (lit "dup")])
        = Ret true s'.
Proof.
  destruct (proj1 remove_then_find demo_table
              (demo_state [Insert (lit "dup"); Insert (lit "dup")])
              (demo_state [Insert (lit "dup"); Insert (lit "dup")])
              (lit "dup") 9%positive demo_fuel) as (N & HN).
  - apply demo_reachable. vm_compute. reflexivity.
  - vm_compute. reflexivity.
  - exists N. intros fuel Hfuel.
    destruct (HN fuel Hfuel) as (s' & vs & p & H1 & H2 & H3 & H4 & _).
    exists s', vs, p. by split_and!.
Defined.

(** X15: the removal path of the hash table releases the string and the
    node of the entry, each once: they are the two addresses added to the log of
    releases, they are no longer live, and every other block still is. *)
Lemma remove_entry_releases (table : list ptr) (s s' : St) (k : cstr) (fuel : nat) :
  reachable table s →
  table_remove fuel table k s = Ret true s' →
  ∃ (entry string : loc) (n : node),
    heap s !! entry = Some (Node n) ∧ value n = Some string
    ∧ heap s !! string = Some (Chars k)
    ∧ entry ≠ string
    ∧ freed s' = freed s ++ [string; entry]
    ∧ heap s' !! entry = None ∧ heap s' !! string = None
    ∧ ∀ l, l ≠ entry → l ≠ string → is_Some (heap s' !! l) ↔ is_Some (heap s !! l).
Proof.
  intros Hreach Hrun.
  apply reachable_valid in Hreach as (heads & css & Hrep).
  apply (table_remove_outcome _ _ _ _ _ _ _ _ Hrep) in Hrun
    as [(? & _)|(_ & head & pre & c & post & np & Hh & Hc & _ & Hv & Hnp & -> & Hrep')];
    [done|].
  assert (Hb : bucket (heap s) head (pre ++ c :: post))
    by by eapply Forall2_lookup_lr; [apply (rep_buckets _ _ _ _ Hrep)|..].
  destruct (footprint_bucket _ _ _ _ _ (rep_separate _ _ _ _ Hrep) Hh Hc) as [Hnd _].
  destruct Hb as [Hhead Hchain].
  destruct (chain_node_at _ _ _ _ _ Hchain) as (pv' & Hn & Hs & _).
  assert (Hne : c_str c ≠ c_node c) by congruence.
  destruct (unlinked_gone (heap s) (last_node head pre) np c post Hne) as [G1 G2].
  eexists (c_node c), (c_str c), _. cbn [heap freed].
  split_and!; try done.
  - by rewrite <- Hv.
  - intros l H1 H2. rewrite unlinked_live; [tauto|eauto|].
    intros l' E%first_in_addrs. eapply chain_node; [exact Hchain|].
    rewrite addrs_app, addrs_cons. clear -E. set_solver.
Qed.

(** ** Printing a bucket *)

Lemma print_loop_chain (s : St) pv cs fuel :
  heap s !! SENTINEL_addr = Some (Chars SENTINEL_chars) →
  chain (heap s) pv cs →
  (∀ c, c ∈ cs → c_val c ≠ SENTINEL_chars) →
  (length cs ≤ fuel)%nat →
  print_loop fuel (first cs) s
  = Ret tt (mk_state (heap s) (allocs s) (freed s)
              (output s ++ map Printed (values cs))).
Proof.
  revert pv fuel s; induction cs as [|c cs IH]; intros pv fuel s Hm Hc Huser Hfuel.
  - destruct fuel; cbn; unfold ret; rewrite app_nil_r; by destruct s.
  - destruct Hc as (Hn & Hs & Hrest).
    destruct fuel as [|fuel]; [cbn in Hfuel; lia|].
    cbn [first print_loop].
    step get_value_live.
    step load_chars_live.
    step load_chars_live.
    rewrite strcmp_neq by (apply Huser; by left). cbn [negb].
    eapply bind_Ret; [reflexivity|]. cbn beta.
    eapply bind_Ret; [by eapply get_next_live|]. cbn [next].
    erewrite IH; [|done|done| |cbn in Hfuel; lia].
    + cbn [heap allocs freed output values map]. by rewrite <- app_assoc.
    + intros c' Hc'. apply Huser. by right.
Qed.

Lemma print_list_bucket (s : St) head cs fuel :
  heap s !! SENTINEL_addr = Some (Chars SENTINEL_chars) →
  bucket (heap s) head cs →
  (∀ c, c ∈ cs → c_val c ≠ SENTINEL_chars) →
  (length cs < fuel)%nat →
  print_list fuel (Some head) s
  = Ret tt (mk_state (heap s) (allocs s) (freed s)
              (output s ++ rendering (values cs))).
Proof.
  intros Hm [Hh Hc] Huser Hfuel. unfold print_list.
  step get_next_live.
  destruct cs as [|c cs]; [done|]. cbn [first].
  destruct fuel as [|fuel]; [lia|].
  eapply bind_Ret.
  { cbn [print_loop].
    step get_value_live.
    step load_chars_live.
    step load_chars_live.
    rewrite strcmp_same. cbn [negb].
    eapply bind_Ret; [reflexivity|]. cbn beta.
    step get_next_live.
    eapply (print_loop_chain s (Some head) (c :: cs)); [done|done|done|cbn in *; lia]. }
  unfold print. cbn [heap allocs freed output rendering values map].
  by rewrite <- app_assoc.
Qed.

(** ** Releasing the lists *)

Lemma released_out (cs : list cell) (h : gmap loc block) l :
  l ∉ addrs cs → released cs h !! l = h !! l.
Proof.
  revert h; induction cs as [|c cs IH]; intros h Hl; [done|].
  rewrite addrs_cons in Hl. cbn [released].
  apply not_elem_of_cons in Hl as [H1 Hl].
  apply not_elem_of_cons in Hl as [H2 Hl].
  rewrite lookup_delete_ne by done. rewrite IH by done.
  by rewrite lookup_delete_ne.
Qed.

Lemma released_in (cs : list cell) (h : gmap loc block) l :
  l ∈ addrs cs → released cs h !! l = None.
Proof.
  revert h; induction cs as [|c cs IH]; intros h Hl.
  - by apply elem_of_nil in Hl.
  - rewrite addrs_cons in Hl. cbn [released].
    destruct (decide (l = c_node c)) as [->|Hn]; [by rewrite lookup_delete_eq|].
    rewrite lookup_delete_ne by done.
    destruct (decide (l ∈ addrs cs)) as [Hin|Hout]; [by apply IH|].
    rewrite released_out by done.
    assert (l = c_str c) as -> by set_solver. by rewrite lookup_delete_eq.
Qed.

Lemma release_order_perm (cs : list cell) : release_order cs ≡ₚ addrs cs.
Proof.
  induction cs as [|c cs IH]; [done|]. cbn [release_order]. rewrite addrs_cons.
  rewrite IH. rewrite (Permutation_app_comm (addrs cs)). cbn. apply perm_swap.
Qed.

Lemma delete_list_chain (s : St) pv cs fuel :
  chain (heap s) pv cs →
  NoDup (addrs cs) →
  SENTINEL_addr ∉ addrs cs →
  (length cs ≤ fuel)%nat →
  delete_list fuel (first cs) s
  = Ret tt (mk_state (released cs (heap s)) (allocs s)
              (freed s ++ release_order cs) (output s)).
Proof.
  revert pv fuel s; induction cs as [|c cs IH]; intros pv fuel s Hc Hnd Hs Hfuel.
  - destruct fuel; cbn; unfold ret; rewrite app_nil_r; by destruct s.
  - destruct Hc as (Hn & Hstr & Hrest).
    rewrite addrs_cons in Hnd, Hs.
    apply NoDup_cons in Hnd as [Hn1 Hnd]. apply NoDup_cons in Hnd as [Hn2 Hnd].
    apply not_elem_of_cons in Hs as [Hs1 Hs].
    apply not_elem_of_cons in Hs as [Hs2 Hs].
    apply not_elem_of_cons in Hn1 as [Hne Hn1].
    destruct fuel as [|fuel]; [cbn in Hfuel; lia|].
    cbn [first delete_list].
    step get_value_live.
    rewrite bool_decide_eq_true_2 by (unfold SENTINEL; congruence).
    step free_live.
    step get_next_live.
    eapply bind_Ret.
    { eapply (IH (Some (c_node c))); cbn [heap]; [|done|done|cbn in Hfuel; lia].
      eapply chain_frame; [|done]. intros l Hl.
      rewrite lookup_delete_ne; [done|]. intros <-. done. }
    cbn beta.
    erewrite free_live.
    2:{ cbn [heap]. rewrite released_out by done.
        rewrite lookup_delete_ne by done. done. }
    cbn [heap allocs freed output released release_order].
    by rewrite <- !app_assoc.
Qed.

Lemma delete_list_bucket (s : St) head cs fuel :
  bucket (heap s) head cs →
  NoDup (head :: addrs cs) →
  SENTINEL_addr ∉ addrs cs →
  (length cs < fuel)%nat →
  delete_list fuel (Some head) s
  = Ret tt (mk_state (delete head (released cs (heap s))) (allocs s)
              (freed s ++ release_order cs ++ [head]) (output s)).
Proof.
  intros [Hh Hc] Hnd Hs Hfuel.
  apply NoDup_cons in Hnd as [Hhead Hnd].
  destruct fuel as [|fuel]; [lia|]. cbn [delete_list].
  step get_value_live.
  rewrite bool_decide_eq_false_2 by (intros H; by apply H).
  eapply bind_Ret; [reflexivity|]. cbn beta.
  step get_next_live.
  eapply bind_Ret.
  { eapply (delete_list_chain s (Some head)); [done|done|done|lia]. }
  cbn beta.
  erewrite free_live.
  2:{ cbn [heap]. by rewrite released_out. }
  cbn [heap allocs freed output]. by rewrite <- !app_assoc.
Qed.

Lemma released_bucket_out (cs : list cell) (h : gmap loc block) head l :
  l ∉ head :: addrs cs → delete head (released cs h) !! l = h !! l.
Proof.
  intros [H1 H2]%not_elem_of_cons.
  rewrite lookup_delete_ne by done. by apply released_out.
Qed.

Lemma released_bucket_in (cs : list cell) (h : gmap loc block) head l :
  l ∈ head :: addrs cs → delete head (released cs h) !! l = None.
Proof.
  intros Hl. destruct (decide (l = head)) as [->|Hne]; [by rewrite lookup_delete_eq|].
  rewrite lookup_delete_ne by done. apply released_in. set_solver.
Qed.

Lemma table_footprint_cons (head : loc) heads (cs : list cell) css :
  (head :: heads) ++ concat (map addrs (cs :: css))
  ≡ₚ (head :: addrs cs) ++ (heads ++ concat (map addrs css)).
Proof.
  cbn [map concat app]. apply Permutation_skip.
  by rewrite (Permutation_app_swap_app heads (addrs cs)).
Qed.

Lemma released_table_out heads css (h : gmap loc block) l :
  length heads = length css →
  l ∉ heads ++ concat (map addrs css) → released_table heads css h !! l = h !! l.
Proof.
  revert css h; induction heads as [|head heads IH]; intros [|cs css] h Hlen Hl;
    try done.
  rewrite table_footprint_cons in Hl. apply not_elem_of_app in Hl as [H1 H2].
  cbn [released_table]. rewrite IH; [|cbn in Hlen; lia|done].
  by apply released_bucket_out.
Qed.

Lemma released_table_in heads css (h : gmap loc block) l :
  length heads = length css →
  l ∈ heads ++ concat (map addrs css) → released_table heads css h !! l = None.
Proof.
  revert css h; induction heads as [|head heads IH]; intros [|cs css] h Hlen Hl;
    try done.
  { by apply elem_of_nil in Hl. }
  rewrite table_footprint_cons in Hl. cbn [released_table].
  destruct (decide (l ∈ heads ++ concat (map addrs css))) as [Hin|Hout].
  - apply IH; [cbn in Hlen; lia|done].
  - rewrite released_table_out; [|cbn in Hlen; lia|done].
    apply released_bucket_in. set_solver.
Qed.

Lemma table_release_order_perm heads css :
  length heads = length css →
  table_release_order heads css ≡ₚ heads ++ concat (map addrs css).
Proof.
  revert css; induction heads as [|head heads IH]; intros [|cs css] Hlen; try done.
  rewrite table_footprint_cons. cbn [table_release_order].
  rewrite IH by (cbn in Hlen; lia). apply Permutation_app; [|done].
  rewrite release_order_perm. by rewrite <- Permutation_cons_append.
Qed.

Lemma delete_lists_buckets (s : St) heads css fuel :
  Forall2 (bucket (heap s)) heads css →
  NoDup (heads ++ concat (map addrs css)) →
  SENTINEL_addr ∉ concat (map addrs css) →
  Forall (λ cs, (length cs < fuel)%nat) css →
  delete_lists fuel (map Some heads) s
  = Ret tt (mk_state (released_table heads css (heap s)) (allocs s)
              (freed s ++ table_release_order heads css) (output s)).
Proof.
  intros Hb. revert s Hb.
  induction heads as [|head heads IH] in css |- *; intros s Hb Hnd Hs Hfuel.
  - apply Forall2_nil_inv_l in Hb as ->. cbn. unfold ret.
    rewrite app_nil_r. by destruct s.
  - apply Forall2_cons_inv_l in Hb as (cs & css' & Hb & Hbs & ->).
    rewrite table_footprint_cons in Hnd.
    apply NoDup_app in Hnd as (Hnd1 & Hsep & Hnd2).
    apply Forall_cons in Hfuel as [Hf Hfuel].
    cbn [map concat] in Hs. apply not_elem_of_app in Hs as [Hs1 Hs2].
    cbn [map delete_lists].
    eapply bind_Ret; [by eapply delete_list_bucket|]. cbn beta.
    erewrite IH; cbn [heap allocs freed output]; [|
      |done|done|done].
    + cbn [released_table table_release_order]. by rewrite <- !app_assoc.
    + apply Forall2_same_length_lookup. split; [by eapply Forall2_length|].
      intros j hj cj Hhj Hcj.
      assert (Hbj : bucket (heap s) hj cj) by by eapply Forall2_lookup_lr.
      eapply bucket_frame; [|done]. intros l Hl.
      apply released_bucket_out. intros Hin. eapply Hsep; [exact Hin|].
      apply elem_of_cons in Hl as [->|Hl].
      * apply elem_of_app; left. by eapply list_elem_of_lookup_2.
      * apply elem_of_app; right. by eapply elem_of_cells.
Qed.

(** ** Fuel for every bucket of a table *)

Lemma fuel_for_all (css : list (list cell)) (fuel : nat) :
  (S (max_list (map length css)) ≤ fuel)%nat →
  Forall (λ cs, (length cs < fuel)%nat) css.
Proof.
  intros Hfuel. apply Forall_forall. intros cs Hin.
  assert (length cs ≤ max_list (map length css))%nat; [|lia].
  apply max_list_elem_of_le. change (map length css) with (length <$> css).
  apply list_elem_of_fmap. eauto.
Qed.

Lemma rep_user_bucket (h : gmap loc block) table heads css i cs :
  table_rep h table heads css → css !! i = Some cs →
  ∀ c, c ∈ cs → c_val c ≠ SENTINEL_chars.
Proof. intros Hrep Hc c Hin. by eapply (rep_user _ _ _ _ Hrep). Qed.

(** ** Printing the table *)

Lemma print_lists_buckets (s : St) heads css fuel i :
  heap s !! SENTINEL_addr = Some (Chars SENTINEL_chars) →
  Forall2 (bucket (heap s)) heads css →
  Forall (λ cs, ∀ c, c ∈ cs → c_val c ≠ SENTINEL_chars) css →
  Forall (λ cs, (length cs < fuel)%nat) css →
  print_lists fuel (map Some heads) i s
  = Ret tt (mk_state (heap s) (allocs s) (freed s)
              (output s ++ table_rendering i (map values css))).
Proof.
  intros Hm Hb. remember (heap s) as h eqn:Hh. revert s i Hh.
  induction Hb as [|head cs heads css Hhead Hrest IH]; intros s i -> Huser Hfuel.
  - cbn. unfold ret. rewrite app_nil_r. by destruct s.
  - apply Forall_cons in Huser as [Hu Huser].
    apply Forall_cons in Hfuel as [Hf Hfuel].
    cbn [map print_lists table_rendering].
    eapply bind_Ret; [reflexivity|]. cbn beta.
    eapply bind_Ret; [by apply print_list_bucket|]. cbn beta.
    rewrite IH by done.
    cbn [heap allocs freed output]. do 2 f_equal.
    rewrite <- !app_assoc. done.
Qed.

Lemma table_values_buckets (s : St) heads css fuel :
  Forall2 (bucket (heap s)) heads css →
  Forall (λ cs, (length cs < fuel)%nat) css →
  table_values fuel (map Some heads) s = Ret (map values css) s.
Proof.
  induction 1 as [|head cs heads css Hhead Hrest IH]; intros Hfuel; [done|].
  apply Forall_cons in Hfuel as [Hf Hfuel].
  cbn [map table_values].
  eapply bind_Ret; [apply bucket_values_bucket; [done|lia]|]. cbn beta.
  eapply bind_Ret; [by apply IH|]. done.
Qed.

Lemma rep_lengths (h : gmap loc block) table heads css :
  table_rep h table heads css → length heads = length css.
Proof. intros Hrep. eapply Forall2_length, rep_buckets. done. Qed.

Lemma rep_users (h : gmap loc block) table heads css :
  table_rep h table heads css →
  Forall (λ cs, ∀ c, c ∈ cs → c_val c ≠ SENTINEL_chars) css.
Proof.
  intros Hrep. apply Forall_forall. intros cs Hin c Hc.
  apply list_elem_of_lookup in Hin as [i Hi].
  by eapply (rep_user _ _ _ _ Hrep).
Qed.

Lemma length_addrs (cs : list cell) : length (addrs cs) = (2 * length cs)%nat.
Proof. unfold addrs. induction cs as [|c cs IH]; [done|]. cbn. rewrite IH. lia. Qed.

Lemma length_table_addrs (css : list (list cell)) :
  length (concat (map addrs css)) = (2 * length (concat (map values css)))%nat.
Proof.
  induction css as [|cs css IH]; [done|]. cbn [map concat].
  rewrite !length_app, IH, length_addrs. unfold values. rewrite length_map. lia.
Qed.

Lemma rep_dom (h : gmap loc block) table heads css :
  table_rep h table heads css → dom h = list_to_set (footprint heads css).
Proof.
  intros Hrep. apply set_eq. intros l.
  rewrite elem_of_dom, elem_of_list_to_set. apply (rep_live _ _ _ _ Hrep).
Qed.

(** X1: in every reachable state [print_list] on a bucket of the table
    returns (given the fuel to walk the bucket), leaves the memory, the
    allocator and the log of releases as they are, and prints exactly the
    values of the bucket in list order followed by a newline, or "Empty
    list." when the bucket holds no value; the sentinel is not printed. *)
Theorem print_list_prints_bucket (table : list ptr) (s : St) (p : ptr) :
  reachable table s → p ∈ table →
  ∃ vs N, ∀ fuel, (N ≤ fuel)%nat →
    bucket_values fuel p s = Ret vs s
    ∧ print_list fuel p s
      = Ret tt (mk_state (heap s) (allocs s) (freed s) (output s ++ rendering vs)).
Proof.
  intros Hreach Hp. pose proof (reachable_marker _ _ Hreach) as Hm.
  apply reachable_valid in Hreach as (heads & css & Hrep).
  destruct (rep_bucket_of _ _ _ _ _ Hrep Hp)
    as (i & head & cs & -> & Hh & Hc & _ & Hb & Hnd).
  exists (values cs), (S (length cs)). intros fuel Hfuel. split.
  - apply bucket_values_bucket; [done|lia].
  - apply print_list_bucket; [done|done| |lia].
    by eapply rep_user_bucket.
Qed.

Lemma print_list_prints_bucket_witness :
  ∃ vs N, ∀ fuel, (N ≤ fuel)%nat →
    bucket_values fuel (Some 2%positive)
      (demo_state [Insert (lit "alice"); Insert (lit "bob"); Insert (lit "carol")])
    = Ret vs (demo_state [Insert (lit "alice"); Insert (lit "bob"); Insert (lit "carol")])
    ∧ print_list fuel (Some 2%positive)
        (demo_state [Insert (lit "alice"); Insert (lit "bob"); Insert (lit "carol")])
      = Ret tt
          (mk_state
             (heap (demo_state [Insert (lit "alice"); Insert (lit "bob");
                                Insert (lit "carol")]))
             (allocs (demo_state [Insert (lit "alice"); Insert (lit "bob");
                                  Insert (lit "carol")]))
             (freed (demo_state [Insert (lit "alice"); Insert (lit "bob");
                                 Insert (lit "carol")]))
             (output (demo_state [Insert (lit "alice"); Insert (lit "bob");
                                  Insert (lit "carol")]) ++ rendering vs)).
Proof.
  apply (print_list_prints_bucket demo_table _ (Some 2%positive)).
  - apply demo_reachable. vm_compute. reflexivity.
  - apply list_elem_of_In. cbn. tauto.
Defined.

(** X2: the printing loop of [main] over a reachable table returns, changes
    nothing but the output, and prints for each index in turn the label of
    the bucket and the values of the bucket as [print_list] shows them. *)
Theorem table_print_prints_table (table : list ptr) (s : St) :
  reachable table s →
  ∃ vss N, ∀ fuel, (N ≤ fuel)%nat →
    table_values fuel table s = Ret vss s
    ∧ length vss = 5%nat
    ∧ table_print fuel table s
      = Ret tt (mk_state (heap s) (allocs s) (freed s)
                  (output s ++ table_rendering 0 vss)).
Proof.
  intros Hreach. pose proof (reachable_marker _ _ Hreach) as Hm.
  apply reachable_valid in Hreach as (heads & css & Hrep).
  exists (map values css), (S (max_list (map length css))). intros fuel Hfuel.
  apply fuel_for_all in Hfuel.
  rewrite (rep_table _ _ _ _ Hrep). split_and!.
  - apply table_values_buckets; [apply (rep_buckets _ _ _ _ Hrep)|done].
  - rewrite length_map, <- (rep_lengths _ _ _ _ Hrep).
    apply (rep_size _ _ _ _ Hrep).
  - apply print_lists_buckets; [done|apply (rep_buckets _ _ _ _ Hrep)| |done].
    by eapply rep_users.
Qed.

Lemma table_print_prints_table_witness :
  ∃ vss N, ∀ fuel, (N ≤ fuel)%nat →
    table_values fuel demo_table
      (demo_state [Insert (lit "alice"); Insert (lit "bob"); Remove (lit "alice")])
    = Ret vss (demo_state [Insert (lit "alice"); Insert (lit "bob");
                           Remove (lit "alice")])
    ∧ length vss = 5%nat
    ∧ table_print fuel demo_table
        (demo_state [Insert (lit "alice"); Insert (lit "bob"); Remove (lit "alice")])
      = Ret tt
          (mk_state
             (heap (demo_state [Insert (lit "alice"); Insert (lit "bob");
                                Remove (lit "alice")]))
             (allocs (demo_state [Insert (lit "alice"); Insert (lit "bob");
                                  Remove (lit "alice")]))
             (freed (demo_state [Insert (lit "alice"); Insert (lit "bob");
                                 Remove (lit "alice")]))
             (output (demo_state [Insert (lit "alice"); Insert (lit "bob");
                                  Remove (lit "alice")]) ++ table_rendering 0 vss)).
Proof.
  apply (table_print_prints_table demo_table).
  apply demo_reachable. vm_compute. reflexivity.
Defined.

(** X3: the last loop of [main], [delete_list] on every bucket of a
    reachable table, returns (given the fuel for the longest bucket) without
    a fault, so without a double release, and releases every live block but
    the string literal, each exactly once: afterwards the memory holds the
    literal only.  Nothing is printed or allocated. *)
Theorem delete_lists_releases_all (table : list ptr) (s : St) :
  reachable table s →
  ∃ N, ∀ fuel, (N ≤ fuel)%nat →
    ∃ rel,
      delete_lists fuel table s
      = Ret tt (mk_state {[ SENTINEL_addr := Chars SENTINEL_chars ]} (allocs s)
                  (freed s ++ rel) (output s))
      ∧ NoDup rel
      ∧ ∀ l, l ∈ rel ↔ is_Some (heap s !! l) ∧ l ≠ SENTINEL_addr.
Proof.
  intros Hreach.
  apply reachable_valid in Hreach as (heads & css & Hrep).
  pose proof (rep_lengths _ _ _ _ Hrep) as Hlen.
  pose proof (rep_separate _ _ _ _ Hrep) as Hnd.
  unfold footprint in Hnd. apply NoDup_cons in Hnd as [Hs Hnd].
  exists (S (max_list (map length css))). intros fuel Hfuel.
  apply fuel_for_all in Hfuel.
  exists (table_release_order heads css). split_and!.
  - rewrite (rep_table _ _ _ _ Hrep).
    rewrite (delete_lists_buckets s heads css fuel);
      [|apply (rep_buckets _ _ _ _ Hrep)|done| |done].
    + f_equal. f_equal. apply map_eq. intros l.
      destruct (decide (l = SENTINEL_addr)) as [->|Hne].
      * rewrite released_table_out, lookup_singleton_eq by done.
        apply (rep_marker _ _ _ _ Hrep).
      * rewrite lookup_singleton_ne by done.
        destruct (decide (l ∈ heads ++ concat (map addrs css))) as [Hin|Hout].
        { by apply released_table_in. }
        rewrite released_table_out by done.
        apply eq_None_not_Some. rewrite (rep_live _ _ _ _ Hrep).
        unfold footprint. rewrite elem_of_cons. tauto.
    + intros Hin. apply Hs. apply elem_of_app. by right.
  - by rewrite table_release_order_perm.
  - intros l. rewrite table_release_order_perm by done.
    rewrite (rep_live _ _ _ _ Hrep). unfold footprint. rewrite elem_of_cons.
    split; [|tauto]. intros Hin. split; [by right|]. by intros ->.
Qed.

Lemma delete_lists_releases_all_witness :
  ∃ N, ∀ fuel, (N ≤ fuel)%nat →
    ∃ rel,
      delete_lists fuel demo_table
        (demo_state [Insert (lit "alice"); Insert (lit "bob"); Insert (lit "carol");
                     Remove (lit "bob")])
      = Ret tt
          (mk_state {[ SENTINEL_addr := Chars SENTINEL_chars ]}
             (allocs (demo_state [Insert (lit "alice"); Insert (lit "bob");
                                  Insert (lit "carol"); Remove (lit "bob")]))
             (freed (demo_state [Insert (lit "alice"); Insert (lit "bob");
                                 Insert (lit "carol"); Remove (lit "bob")]) ++ rel)
             (output (demo_state [Insert (lit "alice"); Insert (lit "bob");
                                  Insert (lit "carol"); Remove (lit "bob")])))
      ∧ NoDup rel
      ∧ ∀ l, l ∈ rel
             ↔ is_Some (heap (demo_state [Insert (lit "alice"); Insert (lit "bob");
                                          Insert (lit "carol"); Remove (lit "bob")])
                        !! l)
               ∧ l ≠ SENTINEL_addr.
Proof.
  apply (delete_lists_releases_all demo_table).
  apply demo_reachable. vm_compute. reflexivity.
Defined.

(** X4: in every reachable state the live blocks are the string literal,
    the five sentinel nodes, and one node and one string for each value
    stored in the table: nothing else is allocated, so no removal has leaked
    a block. *)
Theorem live_blocks_accounted (table : list ptr) (s : St) :
  reachable table s →
  ∃ vss N, ∀ fuel, (N ≤ fuel)%nat →
    table_values fuel table s = Ret vss s
    ∧ size (heap s) = (6 + 2 * length (concat vss))%nat.
Proof.
  intros Hreach.
  apply reachable_valid in Hreach as (heads & css & Hrep).
  exists (map values css), (S (max_list (map length css))). intros fuel Hfuel.
  apply fuel_for_all in Hfuel. split.
  - rewrite (rep_table _ _ _ _ Hrep).
    apply table_values_buckets; [apply (rep_buckets _ _ _ _ Hrep)|done].
  - rewrite <- size_dom, (rep_dom _ _ _ _ Hrep).
    rewrite size_list_to_set by apply (rep_separate _ _ _ _ Hrep).
    unfold footprint. cbn [length]. rewrite length_app, length_table_addrs.
    pose proof (rep_size _ _ _ _ Hrep) as Hsz.
    change (Z.to_nat TABLE_SIZE) with 5%nat in Hsz. lia.
Qed.

Lemma live_blocks_accounted_witness :
  ∃ vss N, ∀ fuel, (N ≤ fuel)%nat →
    table_values fuel demo_table
      (demo_state [Insert (lit "alice"); Insert (lit "bob"); Remove (lit "alice");
                   Insert (lit "dup"); Insert (lit "dup")])
    = Ret vss (demo_state [Insert (lit "alice"); Insert (lit "bob");
                           Remove (lit "alice"); Insert (lit "dup");
                           Insert (lit "dup")])
    ∧ size (heap (demo_state [Insert (lit "alice"); Insert (lit "bob");
                              Remove (lit "alice"); Insert (lit "dup");
                              Insert (lit "dup")]))
      = (6 + 2 * length (concat vss))%nat.
Proof.
  apply (live_blocks_accounted demo_table).
  apply demo_reachable. vm_compute. reflexivity.
Defined.

(** ** Searches before and after an operation *)

Lemma first_match_here (c : cell) (cs : list cell) :
  first_match (c_val c) (c :: cs) = Some c.
Proof. unfold first_match. cbn. by rewrite bool_decide_eq_true_2. Qed.

Lemma first_match_later (v : cstr) (c : cell) (cs : list cell) :
  c_val c ≠ v → first_match v (c :: cs) = first_match v cs.
Proof. intros H. unfold first_match. cbn. by rewrite bool_decide_eq_false_2. Qed.

Lemma first_match_skip (v : cstr) (pre : list cell) (c : cell) (post : list cell) :
  c_val c ≠ v → first_match v (pre ++ c :: post) = first_match v (pre ++ post).
Proof.
  intros H. induction pre as [|c0 pre IH]; cbn [app].
  - by apply first_match_later.
  - unfold first_match in *. cbn. by rewrite IH.
Qed.

(** The search for [k] gives the same result in two states that hold the
    same cells in the bucket of [k]. *)
Lemma table_find_same (s s' : St) table heads css css' (k : cstr) cs cs' :
  table_rep (heap s) table heads css →
  table_rep (heap s') table heads css' →
  k ≠ SENTINEL_chars →
  css !! Z.to_nat (hash k) = Some cs →
  css' !! Z.to_nat (hash k) = Some cs' →
  first_match k cs' = first_match k cs →
  ∃ r N, ∀ fuel, (N ≤ fuel)%nat →
    table_find fuel table k s = Ret r s ∧ table_find fuel table k s' = Ret r s'.
Proof.
  intros Hrep Hrep' Hk Hc Hc' Hsame.
  exists (c_node <$> first_match k cs), (S (length cs + length cs')).
  intros fuel Hfuel. split.
  - eapply table_find_run; [done|done|done|lia].
  - rewrite <- Hsame. eapply table_find_run; [done|done|done|lia].
Qed.

Lemma insert_same_cells (css : list (list cell)) (i j : nat) (cs xs : list cell) :
  css !! j = Some cs → i ≠ j → <[i := xs]> css !! j = Some cs.
Proof. intros H Hne. by rewrite list_lookup_insert_ne. Qed.

(** The memory after a cell was linked in front of a bucket and unlinked
    again is the memory before. *)
Lemma unlinked_linked (h : gmap loc block) head a b v cs :
  bucket h head cs →
  NoDup (head :: addrs cs) →
  h !! a = None → h !! b = None → a ≠ b →
  unlinked (linked h head (mk_cell a b v) cs) head
    (mk_node SENTINEL NULL (Some a)) (mk_cell a b v) cs = h.
Proof.
  intros [Hhead Hchain] Hnd Ha Hb Hab.
  assert (head ≠ a) by (intros ->; congruence).
  assert (head ≠ b) by (intros ->; congruence).
  apply map_eq. intros l. unfold unlinked, linked.
  cbn [c_node c_str c_val value prev].
  destruct cs as [|c1 cs']; cbn [first].
  - destruct (decide (l = a)) as [->|?]; [by rewrite lookup_delete_eq|].
    rewrite lookup_delete_ne, lookup_insert_ne by done.
    destruct (decide (l = b)) as [->|?]; [by rewrite lookup_delete_eq|].
    rewrite lookup_delete_ne by done.
    destruct (decide (l = head)) as [->|?]; [by rewrite lookup_insert_eq|].
    by rewrite !lookup_insert_ne by done.
  - destruct Hchain as (Hn1 & Hs1 & _).
    assert (c_node c1 ≠ a) by (intros E; congruence).
    assert (c_node c1 ≠ b) by (intros E; congruence).
    assert (c_node c1 ≠ head).
    { apply NoDup_cons in Hnd as [Hnd _]. intros E. apply Hnd.
      rewrite <- E, addrs_cons. left. }
    destruct (decide (l = a)) as [->|?]; [by rewrite lookup_delete_eq|].
    rewrite lookup_delete_ne, lookup_insert_ne by done.
    destruct (decide (l = b)) as [->|?]; [by rewrite lookup_delete_eq|].
    rewrite lookup_delete_ne by done.
    destruct (decide (l = c_node c1)) as [->|?]; [by rewrite lookup_insert_eq|].
    rewrite lookup_insert_ne by done.
    destruct (decide (l = head)) as [->|?]; [by rewrite lookup_insert_eq|].
    by rewrite !lookup_insert_ne by done.
Qed.

(** ** [insert_entry] by the outcome of its allocations *)

Lemma malloc_null {B O : Type} (u : B) (s s1 : state B O) :
  malloc u s = Ret NULL s1 →
  s1 = mk_state (heap s) (allocs s1) (freed s) (output s).
Proof.
  unfold malloc. destruct s as [h al fr out]; cbn.
  destruct al as [|[l|] rest]; [by intros [= <-]| |by intros [= <-]].
  destruct (h !! l); [by intros [= <-]|done].
Qed.

Lemma malloc_some {B O : Type} (u : B) (s s1 : state B O) (l : loc) :
  malloc u s = Ret (Some l) s1 →
  allocs s = Some l :: allocs s1 ∧ heap s !! l = None
  ∧ s1 = mk_state (<[l := u]> (heap s)) (allocs s1) (freed s) (output s).
Proof.
  unfold malloc. destruct s as [h al fr out]; cbn.
  destruct al as [|[l'|] rest]; [done| |done].
  destruct (h !! l') eqn:E; [done|]. by intros [= <- <-].
Qed.

Lemma insert_entry_no_node (s s1 : St) (p : ptr) (v : cstr) :
  heap s !! SENTINEL_addr = Some (Chars SENTINEL_chars) →
  v ≠ SENTINEL_chars →
  malloc Uninit s = Ret NULL s1 →
  insert_entry p v s
  = Ret false (mk_state (heap s) (allocs s1) (freed s)
                 (output s ++ [Failed_node_allocation])).
Proof.
  intros Hm Hv Hma. pose proof (malloc_null _ _ _ Hma) as E.
  unfold insert_entry.
  step load_chars_live. rewrite strcmp_neq by done.
  eapply bind_Ret; [exact Hma|]. rewrite E. done.
Qed.

Lemma insert_entry_no_string (s s1 s2 : St) (p : ptr) (v : cstr) (a : loc) :
  heap s !! SENTINEL_addr = Some (Chars SENTINEL_chars) →
  v ≠ SENTINEL_chars →
  malloc Uninit s = Ret (Some a) s1 →
  malloc Uninit s1 = Ret NULL s2 →
  insert_entry p v s = Fault.
Proof.
  intros Hm Hv Hma Hmb. unfold insert_entry.
  step load_chars_live. rewrite strcmp_neq by done.
  eapply bind_Ret; [exact Hma|]. cbn beta iota.
  eapply bind_Ret; [exact Hmb|]. done.
Qed.

(** X5: in a reachable state the search for a key other than the marker
    returns (given the fuel to walk the bucket) and changes nothing; it
    returns a null pointer exactly when the bucket at the key's hash index
    does not hold the key, and otherwise a live node whose string is the
    key. *)
Theorem find_iff_stored (table : list ptr) (s : St) (k : cstr) :
  reachable table s → k ≠ lit "SENTINEL" →
  ∃ p vs r N,
    table_at table (hash k) s = Ret p s
    ∧ (r = NULL ↔ k ∉ vs)
    ∧ (∀ l, r = Some l →
         ∃ n q, heap s !! l = Some (Node n) ∧ value n = Some q
                ∧ heap s !! q = Some (Chars k))
    ∧ ∀ fuel, (N ≤ fuel)%nat →
        bucket_values fuel p s = Ret vs s
        ∧ table_find fuel table k s = Ret r s.
Proof.
  intros Hreach Hk.
  apply reachable_valid in Hreach as (heads & css & Hrep).
  destruct (rep_bucket_at _ _ _ _ k Hrep) as (head & cs & Hh & Hc & Hb & Hnd).
  exists (Some head), (values cs), (c_node <$> first_match k cs), (S (length cs)).
  split_and!.
  - by eapply table_at_rep.
  - rewrite <- first_match_None. by destruct (first_match k cs).
  - intros l Hl. destruct (first_match k cs) as [c|] eqn:Hfm; [|done].
    cbn in Hl. simplify_eq.
    destruct (first_match_Some _ _ _ Hfm) as [Hin Hv].
    destruct Hb as [_ Hchain].
    destruct (chain_cell _ _ _ _ Hchain Hin) as (pv' & nx & Hn & Hs).
    eexists _, _. split_and!; [exact Hn|done|]. by rewrite <- Hv.
  - intros fuel Hfuel. split.
    + apply bucket_values_bucket; [done|lia].
    + eapply table_find_run; [done|done|done|lia].
Qed.

Lemma find_iff_stored_witness :
  ∃ p vs r N,
    table_at demo_table (hash (lit "bob"))
      (demo_state [Insert (lit "alice"); Insert (lit "bob")])
    = Ret p (demo_state [Insert (lit "alice"); Insert (lit "bob")])
    ∧ (r = NULL ↔ lit "bob" ∉ vs)
    ∧ ∀ fuel, (N ≤ fuel)%nat →
        bucket_values fuel p (demo_state [Insert (lit "alice"); Insert (lit "bob")])
        = Ret vs (demo_state [Insert (lit "alice"); Insert (lit "bob")])
        ∧ table_find fuel demo_table (lit "bob")
            (demo_state [Insert (lit "alice"); Insert (lit "bob")])
          = Ret r (demo_state [Insert (lit "alice"); Insert (lit "bob")]).
Proof.
  destruct (find_iff_stored demo_table
              (demo_state [Insert (lit "alice"); Insert (lit "bob")]) (lit "bob"))
    as (p & vs & r & N & H1 & H2 & _ & H3).
  - apply demo_reachable. vm_compute. reflexivity.
  - discriminate.
  - exists p, vs, r, N. split_and!; [exact H1|exact H2|exact H3].
Defined.

(** X6: the search for the reserved marker "SENTINEL" is refused: in a
    reachable state [find_entry] prints its message and returns a null
    pointer whatever the list pointer and the fuel, without walking the
    list, and the removal through the table then reports that there is no
    such entry and returns [false]; the memory is unchanged. *)
Theorem find_sentinel_refused (table : list ptr) (s : St) (p : ptr) (fuel : nat) :
  reachable table s →
  find_entry fuel p (lit "SENTINEL") s
  = Ret NULL (mk_state (heap s) (allocs s) (freed s)
                (output s ++ [Cannot_locate_sentinel]))
  ∧ table_find fuel table (lit "SENTINEL") s
    = Ret NULL (mk_state (heap s) (allocs s) (freed s)
                  (output s ++ [Cannot_locate_sentinel]))
  ∧ table_remove fuel table (lit "SENTINEL") s
    = Ret false (mk_state (heap s) (allocs s) (freed s)
                   (output s ++ [Cannot_locate_sentinel; No_such_entry])).
Proof.
  intros Hreach. pose proof (reachable_marker _ _ Hreach) as Hm.
  apply reachable_valid in Hreach as (heads & css & Hrep).
  split_and!.
  - by apply find_entry_sentinel.
  - by eapply table_find_sentinel.
  - unfold table_remove.
    eapply bind_Ret; [by eapply table_find_sentinel|]. cbn.
    unfold bind, print, ret. cbn. by rewrite <- app_assoc.
Qed.

Lemma find_sentinel_refused_witness :
  find_entry 0 NULL (lit "SENTINEL") (demo_state [Insert (lit "alice")])
  = Ret NULL
      (mk_state (heap (demo_state [Insert (lit "alice")]))
         (allocs (demo_state [Insert (lit "alice")]))
         (freed (demo_state [Insert (lit "alice")]))
         (output (demo_state [Insert (lit "alice")]) ++ [Cannot_locate_sentinel])).
Proof.
  refine (proj1 (find_sentinel_refused demo_table _ NULL 0 _)).
  apply demo_reachable. vm_compute. reflexivity.
Defined.

(** X7: after a successful insertion of [k] through the table, the search
    for [k] returns the node that this insertion allocated, the first
    address that [malloc] handed out: the newest entry shadows the older
    ones that hold the same string. *)
Theorem find_returns_newest (table : list ptr) (s s' : St) (k : cstr) :
  reachable table s →
  table_insert table k s = Ret true s' →
  ∃ (new_entry : loc) (rest : list ptr),
    allocs s = Some new_entry :: rest
    ∧ heap s !! new_entry = None
    ∧ ∃ N, ∀ fuel, (N ≤ fuel)%nat →
        table_find fuel table k s' = Ret (Some new_entry) s'.
Proof.
  intros Hreach Hrun.
  apply reachable_valid in Hreach as (heads & css & Hrep).
  apply (table_insert_outcome _ _ _ _ _ _ _ Hrep) in Hrun
    as [(? & _)|(_ & Hk & head & cs & a & b & Hh & Hc & Hal & Ha & Hb & Hab & _ & Hrep')];
    [done|].
  exists a, (Some b :: allocs s'). split_and!; [done|done|].
  exists (S (S (length cs))). intros fuel Hfuel.
  assert (Hlt : (Z.to_nat (hash k) < length css)%nat) by by eapply lookup_lt_Some.
  erewrite (table_find_run s'); [|done|by apply list_lookup_insert_eq|done|cbn; lia].
  by rewrite (first_match_here (mk_cell a b k)).
Qed.

Lemma find_returns_newest_witness :
  ∃ s', table_insert demo_table (lit "dup") (demo_state [Insert (lit "dup")])
        = Ret true s'
        ∧ ∃ (new_entry : loc) (rest : list ptr),
            allocs (demo_state [Insert (lit "dup")]) = Some new_entry :: rest
            ∧ heap (demo_state [Insert (lit "dup")]) !! new_entry = None
            ∧ ∃ N, ∀ fuel, (N ≤ fuel)%nat →
                table_find fuel demo_table (lit "dup") s' = Ret (Some new_entry) s'.
Proof.
  eexists. split; [vm_compute; reflexivity|].
  apply (find_returns_newest demo_table (demo_state [Insert (lit "dup")]) _ (lit "dup")).
  - apply demo_reachable. vm_compute. reflexivity.
  - vm_compute. reflexivity.
Defined.

(** X8: an operation of a run (insertion, search, removal, printing) that
    is neither the insertion nor the removal of the key [k'] leaves the
    search for [k'] as it was: before and after, it returns the same node or
    a null pointer (for [k'] other than the marker). *)
Theorem other_keys_undisturbed (table : list ptr) (s s' : St) (fuel0 : nat)
    (o : op) (k' : cstr) :
  reachable table s →
  run_op fuel0 table o s = Ret tt s' →
  o ≠ Insert k' → o ≠ Remove k' → k' ≠ lit "SENTINEL" →
  ∃ r N, ∀ fuel, (N ≤ fuel)%nat →
    table_find fuel table k' s = Ret r s ∧ table_find fuel table k' s' = Ret r s'.
Proof.
  intros Hreach Hrun Hins Hrem Hk'.
  apply reachable_valid in Hreach as (heads & css & Hrep).
  destruct (rep_bucket_at _ _ _ _ k' Hrep) as (head' & cs' & Hh' & Hc' & _).
  assert (Hsame : ∀ s1 : St, heap s1 = heap s →
            ∃ r N, ∀ fuel, (N ≤ fuel)%nat →
              table_find fuel table k' s = Ret r s
              ∧ table_find fuel table k' s1 = Ret r s1).
  { intros s1 E.
    apply (table_find_same s s1 table heads css css k' cs' cs'); try done.
    by rewrite E. }
  destruct o as [k|k|k|]; cbn [run_op] in Hrun.
  - apply bind_inv in Hrun as (ok & s1 & Hop & Hret).
    unfold ret in Hret. simplify_eq.
    apply (table_insert_outcome _ _ _ _ _ _ _ Hrep) in Hop
      as [(_ & E & _)|(_ & _ & head & cs & a & b & Hh & Hc & _ & _ & _ & _ & _ & Hrep')];
      [by apply Hsame|].
    destruct (decide (Z.to_nat (hash k) = Z.to_nat (hash k'))) as [E|Hne].
    + rewrite E in *. simplify_eq.
      assert (Hlt : (Z.to_nat (hash k') < length css)%nat) by by eapply lookup_lt_Some.
      eapply (table_find_same s s' table heads css _ k' cs (mk_cell a b k :: cs));
        [done|done|done|done|by apply list_lookup_insert_eq|].
      apply (first_match_later k' (mk_cell a b k)). cbn. congruence.
    + eapply (table_find_same s s' table heads css _ k' cs' cs');
        [done|done|done|done|by apply insert_same_cells|done].
  - apply bind_inv in Hrun as (r & s1 & Hop & Hret).
    unfold ret in Hret. simplify_eq.
    apply reads_only_table_find in Hop as (E & _). by apply Hsame.
  - apply bind_inv in Hrun as (ok & s1 & Hop & Hret).
    unfold ret in Hret. simplify_eq.
    apply (table_remove_outcome _ _ _ _ _ _ _ _ Hrep) in Hop
      as [(_ & E & _)|(_ & head & pre & c & post & np & Hh & Hc & _ & Hv & _ & _ & Hrep')];
      [by apply Hsame|].
    destruct (decide (Z.to_nat (hash k) = Z.to_nat (hash k'))) as [E|Hne].
    + rewrite E in *. simplify_eq.
      assert (Hlt : (Z.to_nat (hash k') < length css)%nat) by by eapply lookup_lt_Some.
      eapply (table_find_same s s' table heads css _ k' (pre ++ c :: post) (pre ++ post));
        [done|done|done|done|by apply list_lookup_insert_eq|].
      symmetry. apply first_match_skip. congruence.
    + eapply (table_find_same s s' table heads css _ k' cs' cs');
        [done|done|done|done|by apply insert_same_cells|done].
  - apply reads_only_print_lists in Hrun as (E & _). by apply Hsame.
Qed.

Lemma other_keys_undisturbed_witness :
  ∃ s', run_op demo_fuel demo_table (Remove (lit "alice"))
          (demo_state [Insert (lit "dave"); Insert (lit "alice"); Insert (lit "bob")])
        = Ret tt s'
        ∧ ∃ r N, ∀ fuel, (N ≤ fuel)%nat →
            table_find fuel demo_table (lit "dave")
              (demo_state [Insert (lit "dave"); Insert (lit "alice"); Insert (lit "bob")])
            = Ret r (demo_state [Insert (lit "dave"); Insert (lit "alice");
                                 Insert (lit "bob")])
            ∧ table_find fuel demo_table (lit "dave") s' = Ret r s'.
Proof.
  eexists. split; [vm_compute; reflexivity|].
  apply (other_keys_undisturbed demo_table _ _ demo_fuel (Remove (lit "alice"))
           (lit "dave")).
  - apply demo_reachable. vm_compute. reflexivity.
  - vm_compute. reflexivity.
  - discriminate.
  - discriminate.
  - discriminate.
Defined.

(** X9: a removal of [k] right after a successful insertion of [k] undoes
    it: it returns [true], releases the string and the node that the
    insertion allocated, and leaves the whole memory exactly as it was
    before the insertion. *)
Theorem insert_then_remove_restores (table : list ptr) (s s1 : St) (k : cstr) :
  reachable table s →
  table_insert table k s = Ret true s1 →
  ∃ (new_entry new_string : loc) (rest : list ptr),
    allocs s = Some new_entry :: Some new_string :: rest
    ∧ ∃ N, ∀ fuel, (N ≤ fuel)%nat →
        table_remove fuel table k s1
        = Ret true (mk_state (heap s) rest (freed s ++ [new_string; new_entry])
                      (output s)).
Proof.
  intros Hreach Hrun.
  apply reachable_valid in Hreach as (heads & css & Hrep).
  apply (table_insert_outcome _ _ _ _ _ _ _ Hrep) in Hrun
    as [(? & _)|(_ & Hk & head & cs & a & b & Hh & Hc & Hal & Ha & Hb & Hab & Hs1 & Hrep')];
    [done|].
  exists a, b, (allocs s1). split; [done|].
  exists (S (S (length cs))). intros fuel Hfuel.
  assert (Hlt : (Z.to_nat (hash k) < length css)%nat) by by eapply lookup_lt_Some.
  assert (Hbk : bucket (heap s) head cs)
    by by eapply Forall2_lookup_lr; [apply (rep_buckets _ _ _ _ Hrep)|..].
  destruct (footprint_bucket _ _ _ _ _ (rep_separate _ _ _ _ Hrep) Hh Hc) as [Hnd _].
  destruct (table_remove_found s1 table heads
              (<[Z.to_nat (hash k) := mk_cell a b k :: cs]> css) k head
              (mk_cell a b k :: cs) (mk_cell a b k) fuel)
    as (pre & post & np & Hsplit & Hpre & _ & _ & Hnp & Hrem & _);
    [done|done|by apply list_lookup_insert_eq
    |apply (first_match_here (mk_cell a b k))|cbn; lia|].
  destruct pre as [|c0 pre].
  - cbn [app] in Hsplit. injection Hsplit as <-.
    rewrite Hrem. rewrite Hs1 in Hnp |- *. cbn [heap allocs freed output] in *.
    unfold last_node in Hnp |- *. cbn [last fmap option_fmap option_map default] in *.
    assert (np = mk_node SENTINEL NULL (Some a)) as ->.
    { unfold linked in Hnp. cbn [c_node] in Hnp.
      rewrite lookup_insert_eq in Hnp. by injection Hnp as <-. }
    by rewrite unlinked_linked.
  - cbn [app] in Hsplit. injection Hsplit as <- _.
    exfalso. apply Hpre. cbn. left.
Qed.

Lemma insert_then_remove_restores_witness :
  ∃ s1, table_insert demo_table (lit "carol")
          (demo_state [Insert (lit "alice"); Insert (lit "bob")])
        = Ret true s1
        ∧ ∃ (new_entry new_string : loc) (rest : list ptr),
            allocs (demo_state [Insert (lit "alice"); Insert (lit "bob")])
            = Some new_entry :: Some new_string :: rest
            ∧ ∃ N, ∀ fuel, (N ≤ fuel)%nat →
                table_remove fuel demo_table (lit "carol") s1
                = Ret true
                    (mk_state
                       (heap (demo_state [Insert (lit "alice"); Insert (lit "bob")]))
                       rest
                       (freed (demo_state [Insert (lit "alice"); Insert (lit "bob")])
                          ++ [new_string; new_entry])
                       (output (demo_state [Insert (lit "alice"); Insert (lit "bob")]))).
Proof.
  eexists. split; [vm_compute; reflexivity|].
  apply (insert_then_remove_restores demo_table
           (demo_state [Insert (lit "alice"); Insert (lit "bob")]) _ (lit "carol")).
  - apply demo_reachable. vm_compute. reflexivity.
  - vm_compute. reflexivity.
Defined.

Lemma failing_reachable (os : list op) :
  run_ops demo_table (map (pair demo_fuel) os)
    (state_of (create_table (initial failing_future)))
  = Ret tt (failing_state os) →
  reachable demo_table (failing_state os).
Proof.
  intros Hrun.
  exists failing_future, (map (pair demo_fuel) os),
    (state_of (create_table (initial failing_future))).
  split; [|done]. vm_compute. reflexivity.
Qed.

(** X10: in a reachable state, when the two allocations of [insert_entry]
    succeed, the insertion of a key other than the marker through the table
    returns [true]; it consumes these two allocations, releases nothing and
    prints nothing. *)
Theorem insert_succeeds (table : list ptr) (s s1 s2 : St) (k : cstr) (a b : loc) :
  reachable table s → k ≠ lit "SENTINEL" →
  malloc Uninit s = Ret (Some a) s1 →
  malloc Uninit s1 = Ret (Some b) s2 →
  ∃ s', table_insert table k s = Ret true s'
        ∧ allocs s' = allocs s2 ∧ freed s' = freed s ∧ output s' = output s
        ∧ heap s' !! b = Some (Chars k).
Proof.
  intros Hreach Hk Hma Hmb.
  apply reachable_valid in Hreach as (heads & css & Hrep).
  destruct (rep_bucket_at _ _ _ _ k Hrep) as (head & cs & Hh & Hc & Hb & Hnd).
  apply malloc_some in Hma as (Hal & Ha & Hs1).
  apply malloc_some in Hmb as (Hal' & Hb' & _).
  rewrite Hs1 in Hb'. cbn [heap] in Hb'.
  assert (a ≠ b) by (intros ->; by rewrite lookup_insert_eq in Hb').
  rewrite lookup_insert_ne in Hb' by done.
  exists (mk_state (linked (heap s) head (mk_cell a b k) cs) (allocs s2) (freed s)
            (output s)).
  split_and!; try done.
  - apply (table_insert_run s table heads css k head cs a b (allocs s2)); try done.
    rewrite Hal. f_equal. by rewrite Hs1 in Hal'.
  - cbn [heap]. pose proof (bucket_linked _ _ a b k _ Hb Hnd Ha Hb' H) as [_ Hchain].
    by destruct Hchain as (_ & Hstr & _).
Qed.

Lemma insert_succeeds_witness :
  ∃ s', table_insert demo_table (lit "erin") (demo_state [Insert (lit "alice")])
        = Ret true s'
        ∧ allocs s' = map Some [11; 12; 13; 14; 15; 16; 17]%positive
        ∧ freed s' = freed (demo_state [Insert (lit "alice")])
        ∧ output s' = output (demo_state [Insert (lit "alice")])
        ∧ heap s' !! 10%positive = Some (Chars (lit "erin")).
Proof.
  apply (insert_succeeds demo_table (demo_state [Insert (lit "alice")])
           (state_of (malloc Uninit (demo_state [Insert (lit "alice")])))
           (state_of (malloc Uninit
                        (state_of (malloc Uninit (demo_state [Insert (lit "alice")])))))
           (lit "erin") 9%positive 10%positive).
  - apply demo_reachable. vm_compute. reflexivity.
  - discriminate.
  - vm_compute. reflexivity.
  - vm_compute. reflexivity.
Defined.

(** X11: in a reachable state, when the allocation of the node fails,
    [insert_entry] (for a key other than the marker, whatever the list
    pointer) reports it and returns [false]; the memory and the log of
    releases are unchanged, so no bucket changes. *)
Theorem insert_node_allocation_failure (table : list ptr) (s s1 : St) (p : ptr)
    (k : cstr) :
  reachable table s → k ≠ lit "SENTINEL" →
  malloc Uninit s = Ret NULL s1 →
  insert_entry p k s
  = Ret false (mk_state (heap s) (allocs s1) (freed s)
                 (output s ++ [Failed_node_allocation]))
  ∧ table_insert table k s
    = Ret false (mk_state (heap s) (allocs s1) (freed s)
                   (output s ++ [Failed_node_allocation])).
Proof.
  intros Hreach Hk Hma. pose proof (reachable_marker _ _ Hreach) as Hm.
  split; [by apply insert_entry_no_node|].
  apply reachable_valid in Hreach as (heads & css & Hrep).
  destruct (rep_bucket_at _ _ _ _ k Hrep) as (head & cs & Hh & _).
  unfold table_insert.
  eapply bind_Ret; [by eapply table_at_rep|]. by apply insert_entry_no_node.
Qed.

Lemma insert_node_allocation_failure_witness :
  table_insert demo_table (lit "alice") (failing_state [])
  = Ret false
      (mk_state (heap (failing_state [])) [Some 7%positive; None]
         (freed (failing_state []))
         (output (failing_state []) ++ [Failed_node_allocation])).
Proof.
  refine (proj2 (insert_node_allocation_failure demo_table (failing_state [])
                   (state_of (malloc Uninit (failing_state []))) NULL (lit "alice")
                   _ _ _)).
  - apply failing_reachable. vm_compute. reflexivity.
  - discriminate.
  - vm_compute. reflexivity.
Defined.

(** X12: the result of the second allocation of [insert_entry], for the copy
    of the string, is not checked: in a reachable state, when the node is
    allocated and the allocation of the string fails, the insertion of a key
    other than the marker writes through a null pointer, which is a fault
    (undefined behaviour), and does not return. *)
Theorem insert_string_allocation_unchecked (table : list ptr) (s s1 s2 : St)
    (p : ptr) (k : cstr) (a : loc) :
  reachable table s → k ≠ lit "SENTINEL" →
  malloc Uninit s = Ret (Some a) s1 →
  malloc Uninit s1 = Ret NULL s2 →
  insert_entry p k s = Fault ∧ table_insert table k s = Fault.
Proof.
  intros Hreach Hk Hma Hmb. pose proof (reachable_marker _ _ Hreach) as Hm.
  split; [by eapply insert_entry_no_string|].
  apply reachable_valid in Hreach as (heads & css & Hrep).
  destruct (rep_bucket_at _ _ _ _ k Hrep) as (head & cs & Hh & _).
  unfold table_insert.
  eapply bind_Ret; [by eapply table_at_rep|]. by eapply insert_entry_no_string.
Qed.

Lemma insert_string_allocation_unchecked_witness :
  insert_entry (Some 2%positive) (lit "bob") (failing_state [Insert (lit "alice")])
  = Fault
  ∧ table_insert demo_table (lit "bob") (failing_state [Insert (lit "alice")]) = Fault.
Proof.
  apply (insert_string_allocation_unchecked demo_table
           (failing_state [Insert (lit "alice")])
           (state_of (malloc Uninit (failing_state [Insert (lit "alice")])))
           (state_of (malloc Uninit
                        (state_of (malloc Uninit
                                     (failing_state [Insert (lit "alice")])))))
           (Some 2%positive) (lit "bob") 7%positive).
  - apply failing_reachable. vm_compute. reflexivity.
  - discriminate.
  - vm_compute. reflexivity.
  - vm_compute. reflexivity.
Defined.

(** ** Creation of the table, again *)

Lemma create_list_cases (s : St) :
  (∃ rest, create_list s
           = Ret NULL (mk_state (heap s) rest (freed s)
                         (output s ++ [Failed_list_allocation])))
  ∨ (∃ l rest, heap s !! l = None
               ∧ create_list s
                 = Ret (Some l)
                     (mk_state (<[l := Node (mk_node SENTINEL NULL NULL)]> (heap s))
                        rest (freed s) (output s))).
Proof.
  unfold create_list.
  destruct (malloc_cases Uninit s) as [(rest & Hma)|(l & rest & Hal & Hl & Hma)].
  - left. exists rest. eapply bind_Ret; [exact Hma|]. done.
  - right. exists l, rest. split; [done|].
    eapply bind_Ret; [exact Hma|]. cbn beta iota.
    eapply bind_Ret; [eapply store_live; lookup_now|].
    unfold ret, set_heap. cbn. by rewrite insert_insert_eq.
Qed.

Lemma create_lists_failure (n : nat) (i : Z) (s s' : St) :
  create_lists n i s = Ret None s' →
  ∃ j : nat, (j < n)%nat
    ∧ output s' = output s ++ [Failed_list_allocation; Failed_create_at (i + Z.of_nat j)]
    ∧ freed s' = freed s
    ∧ size (heap s') = (size (heap s) + j)%nat.
Proof.
  revert i s; induction n as [|n IH]; intros i s Hrun; [done|].
  cbn [create_lists] in Hrun.
  destruct (create_list_cases s) as [(rest & Hc)|(l & rest & Hl & Hc)].
  - erewrite bind_Ret_eq in Hrun by exact Hc. cbn in Hrun.
    unfold ret in Hrun. simplify_eq. exists 0%nat. cbn [heap freed output].
    split_and!; [lia| |done|lia].
    rewrite <- app_assoc. cbn [app]. by rewrite Z.add_0_r.
  - erewrite bind_Ret_eq in Hrun by exact Hc. cbn beta iota in Hrun.
    apply bind_inv in Hrun as (r & s1 & Hrest & Hret).
    unfold ret in Hret. destruct r as [table'|]; cbn in Hret; simplify_eq.
    destruct (IH _ _ Hrest) as (j & Hj & Hout & Hfr & Hsz).
    cbn [heap freed output] in *.
    exists (S j). split_and!; [lia| |done|].
    + rewrite Hout. by replace (i + Z.of_nat (S j)) with (i + 1 + Z.of_nat j) by lia.
    + rewrite Hsz, map_size_insert_None by done. lia.
Qed.

(** X13: when the creation of the table succeeds, the table has five
    distinct lists, the memory holds the string literal and the five
    sentinel nodes only, and every list is empty: it holds no value and
    [print_list] prints "Empty list." for it, whatever the fuel. *)
Theorem create_table_empty (future : list ptr) (table : list ptr) (s : St) :
  create_table (initial future) = Ret (Some table) s →
  length table = 5%nat ∧ NoDup table ∧ size (heap s) = 6%nat
  ∧ ∀ p fuel, p ∈ table →
      bucket_values fuel p s = Ret [] s
      ∧ print_list fuel p s
        = Ret tt (mk_state (heap s) (allocs s) (freed s) (output s ++ [Empty_list])).
Proof.
  intros Hrun. apply create_table_rep in Hrun as (heads & Hrep).
  pose proof (rep_size _ _ _ _ Hrep) as Hsz.
  change (Z.to_nat TABLE_SIZE) with 5%nat in Hsz.
  split_and!.
  - by rewrite (rep_table _ _ _ _ Hrep), length_map.
  - rewrite (rep_table _ _ _ _ Hrep).
    change (map Some heads) with (Some <$> heads). apply NoDup_fmap; [apply _|].
    pose proof (rep_separate _ _ _ _ Hrep) as Hnd. unfold footprint in Hnd.
    apply NoDup_cons in Hnd as [_ Hnd]. by apply NoDup_app in Hnd as (? & _).
  - rewrite <- size_dom, (rep_dom _ _ _ _ Hrep).
    rewrite size_list_to_set by apply (rep_separate _ _ _ _ Hrep).
    unfold footprint. cbn [length]. rewrite length_app, length_table_addrs.
    rewrite Hsz. done.
  - intros p fuel Hp.
    destruct (rep_bucket_of _ _ _ _ _ Hrep Hp)
      as (i & head & cs & -> & Hh & Hc & _ & Hb & Hnd).
    apply lookup_replicate in Hc as [-> _]. split.
    + apply (bucket_values_bucket _ _ []); [done|cbn; lia].
    + destruct Hb as [Hhead _]. unfold print_list.
      step get_next_live. done.
Qed.

Lemma create_table_empty_witness :
  length demo_table = 5%nat ∧ NoDup demo_table
  ∧ size (heap (demo_state [])) = 6%nat
  ∧ ∀ p fuel, p ∈ demo_table →
      bucket_values fuel p (demo_state []) = Ret [] (demo_state [])
      ∧ print_list fuel p (demo_state [])
        = Ret tt (mk_state (heap (demo_state [])) (allocs (demo_state []))
                    (freed (demo_state [])) (output (demo_state []) ++ [Empty_list])).
Proof.
  apply (create_table_empty demo_future demo_table (demo_state [])).
  vm_compute. reflexivity.
Defined.

(** X14: when the creation of the table fails, at the list of index [i],
    [main] has printed the two error messages and stops; nothing was
    released, so the [i] sentinel nodes created before are still
    allocated. *)
Theorem create_table_failure (future : list ptr) (s : St) :
  create_table (initial future) = Ret None s →
  ∃ i : nat, (i < 5)%nat
    ∧ output s = [Failed_list_allocation; Failed_create_at (Z.of_nat i)]
    ∧ freed s = []
    ∧ size (heap s) = (1 + i)%nat.
Proof.
  intros Hrun. apply create_lists_failure in Hrun as (j & Hj & Hout & Hfr & Hsz).
  exists j. by split_and!.
Qed.

Lemma create_table_failure_witness :
  ∃ s, create_table (initial short_future) = Ret None s
       ∧ ∃ i : nat, (i < 5)%nat
           ∧ output s = [Failed_list_allocation; Failed_create_at (Z.of_nat i)]
           ∧ freed s = []
           ∧ size (heap s) = (1 + i)%nat.
Proof.
  eexists. split; [vm_compute; reflexivity|].
  apply (create_table_failure short_future). vm_compute. reflexivity.
Defined.

Lemma remove_entry_releases_witness :
  ∃ s', table_remove demo_fuel demo_table (lit "alice")
          (demo_state [Insert (lit "alice"); Insert (lit "bob")])
        = Ret true s'
        ∧ ∃ (entry string : loc) (n : node),
            heap (demo_state [Insert (lit "alice"); Insert (lit "bob")]) !! entry
            = Some (Node n)
            ∧ value n = Some string
            ∧ heap (demo_state [Insert (lit "alice"); Insert (lit "bob")]) !! string
              = Some (Chars (lit "alice"))
            ∧ entry ≠ string
            ∧ freed s'
              = freed (demo_state [Insert (lit "alice"); Insert (lit "bob")])
                ++ [string; entry]
            ∧ heap s' !! entry = None ∧ heap s' !! string = None.
Proof.
  eexists. split; [vm_compute; reflexivity|].
  destruct (remove_entry_releases demo_table
              (demo_state [Insert (lit "alice"); Insert (lit "bob")])
              (state_of (table_remove demo_fuel demo_table (lit "alice")
                           (demo_state [Insert (lit "alice"); Insert (lit "bob")])))
              (lit "alice") demo_fuel)
    as (entry & string & n & H1 & H2 & H3 & H4 & H5 & H6 & H7 & _).
  - apply demo_reachable. vm_compute. reflexivity.
  - vm_compute. reflexivity.
  - exists entry, string, n. split_and!; assumption.
Defined.

(** X16: [find_entry] and [print_list], and with them the search through
    the table and the printing loop of [main], never write to the memory,
    allocate or release: whatever the state, the list pointer and the fuel,
    a call that returns leaves the memory, the allocator and the log of
    releases as they were. *)
Theorem search_and_print_read_only (fuel : nat) (p : ptr) (v : cstr)
    (table : list ptr) :
  reads_only (find_entry fuel p v)
  ∧ reads_only (print_list fuel p)
  ∧ reads_only (table_find fuel table v)
  ∧ reads_only (table_print fuel table).
Proof.
  split_and!.
  - apply reads_only_find_entry.
  - apply reads_only_print_list.
  - apply reads_only_table_find.
  - apply reads_only_print_lists.
Qed.

Lemma search_and_print_read_only_witness :
  ∃ r s', find_entry demo_fuel (Some 2%positive) (lit "bob")
            (demo_state [Insert (lit "alice"); Insert (lit "bob")])
          = Ret r s'
          ∧ heap s' = heap (demo_state [Insert (lit "alice"); Insert (lit "bob")])
          ∧ allocs s' = allocs (demo_state [Insert (lit "alice"); Insert (lit "bob")])
          ∧ freed s' = freed (demo_state [Insert (lit "alice"); Insert (lit "bob")]).
Proof.
  eexists _, _. split; [vm_compute; reflexivity|].
  apply (proj1 (search_and_print_read_only demo_fuel (Some 2%positive) (lit "bob")
                  demo_table)
           (demo_state [Insert (lit "alice"); Insert (lit "bob")]) (Some 9%positive)).
  vm_compute. reflexivity.
Defined.

(** X17: a run goes wrong in one way only.  In a reachable state every
    operation returns, given the fuel for the bucket lists: searches,
    removals and printing always, and an insertion unless the node is
    allocated and the allocation of the string then fails, in which case the
    insertion is a fault. *)
Theorem operations_return (table : list ptr) (s : St) (o : op) :
  reachable table s →
  ∃ N, ∀ fuel, (N ≤ fuel)%nat →
    (∃ s', run_op fuel table o s = Ret tt s')
    ∨ (∃ k a s1 s2,
         o = Insert k ∧ k ≠ lit "SENTINEL"
         ∧ malloc Uninit s = Ret (Some a) s1
         ∧ malloc Uninit s1 = Ret NULL s2
         ∧ run_op fuel table o s = Fault).
Proof.
  intros Hreach. pose proof (reachable_marker _ _ Hreach) as Hm.
  apply reachable_valid in Hreach as (heads & css & Hrep).
  exists (S (max_list (map length css))). intros fuel Hfuel.
  pose proof (fuel_for_all _ _ Hfuel) as Hall.
  assert (Hlen : ∀ i cs, css !! i = Some cs → (length cs < fuel)%nat).
  { intros i cs Hi. eapply Forall_lookup_1 in Hall; [exact Hall|done]. }
  destruct o as [k|k|k|]; cbn [run_op].
  - destruct (rep_bucket_at _ _ _ _ k Hrep) as (head & cs & Hh & Hc & Hb & Hnd).
    destruct (decide (k = SENTINEL_chars)) as [->|Hk].
    { left. eexists. eapply bind_Ret; [|done]. unfold table_insert.
      eapply bind_Ret; [by eapply table_at_rep|]. by apply insert_entry_sentinel. }
    destruct (malloc_cases Uninit s) as [(rest & Hma)|(a & rest & Hal & Ha & Hma)].
    { left. eexists. eapply bind_Ret; [|done]. unfold table_insert.
      eapply bind_Ret; [by eapply table_at_rep|]. by eapply insert_entry_no_node. }
    destruct (malloc_cases Uninit
                (mk_state (<[a := Uninit]> (heap s)) rest (freed s) (output s)))
      as [(rest' & Hmb)|(b & rest' & Hal' & Hb' & Hmb)].
    { right. eexists k, a, _, _. split_and!; [done|done|exact Hma|exact Hmb|].
      assert (table_insert table k s = Fault) as E.
      { unfold table_insert.
        eapply bind_Ret; [by eapply table_at_rep|]. by eapply insert_entry_no_string. }
      unfold bind. by rewrite E. }
    cbn [allocs heap] in Hal', Hb'. subst rest.
    assert (a ≠ b) by (intros ->; by rewrite lookup_insert_eq in Hb').
    rewrite lookup_insert_ne in Hb' by done.
    left. eexists. eapply bind_Ret; [|done].
    by eapply (table_insert_run s table heads css k head cs a b rest').
  - left. destruct (rep_bucket_at _ _ _ _ k Hrep) as (head & cs & Hh & Hc & Hb & Hnd).
    destruct (decide (k = SENTINEL_chars)) as [->|Hk].
    + eexists. eapply bind_Ret; [by eapply table_find_sentinel|done].
    + eexists. eapply bind_Ret; [|done].
      eapply table_find_run; [done|done|done|by eapply Hlen].
  - left. destruct (rep_bucket_at _ _ _ _ k Hrep) as (head & cs & Hh & Hc & Hb & Hnd).
    destruct (first_match k cs) as [c|] eqn:Hfm.
    + destruct (table_remove_found s table heads css k head cs c fuel)
        as (pre & post & np & _ & _ & _ & _ & _ & Hrun & _);
        [done|done|done|done|by eapply Hlen|].
      eexists. eapply bind_Ret; [exact Hrun|done].
    + apply first_match_None in Hfm.
      eexists. eapply bind_Ret; [|done].
      eapply table_remove_absent; [done|done|done|by eapply Hlen].
  - left. eexists. unfold table_print. rewrite (rep_table _ _ _ _ Hrep).
    apply print_lists_buckets; [done|apply (rep_buckets _ _ _ _ Hrep)| |done].
    by eapply rep_users.
Qed.

Lemma operations_return_witness :
  ∃ N, ∀ fuel, (N ≤ fuel)%nat →
    (∃ s', run_op fuel demo_table (Remove (lit "bob"))
             (demo_state [Insert (lit "alice"); Insert (lit "bob")])
           = Ret tt s')
    ∨ (∃ k a s1 s2,
         Remove (lit "bob") = Insert k ∧ k ≠ lit "SENTINEL"
         ∧ malloc Uninit (demo_state [Insert (lit "alice"); Insert (lit "bob")])
           = Ret (Some a) s1
         ∧ malloc Uninit s1 = Ret NULL s2
         ∧ run_op fuel demo_table (Remove (lit "bob"))
             (demo_state [Insert (lit "alice"); Insert (lit "bob")])
           = Fault).
Proof.
  apply (operations_return demo_table).
  apply demo_reachable. vm_compute. reflexivity.
Defined.

(** X18: the index that [main] computes, [hash(name)], always falls inside
    the table: in a reachable state [table[hash(name)]] is one of the lists
    of the table, not a null pointer, for every string [name]. *)
Theorem table_index_in_bounds (table : list ptr) (s : St) (name : cstr) :
  reachable table s →
  0 <= hash name < Z.of_nat (length table)
  ∧ ∃ head : loc, table_at table (hash name) s = Ret (Some head) s
                  ∧ Some head ∈ table.
Proof.
  intros Hreach.
  apply reachable_valid in Hreach as (heads & css & Hrep).
  destruct (rep_bucket_at _ _ _ _ name Hrep) as (head & cs & Hh & Hc & Hb & Hnd).
  split.
  - rewrite (rep_table _ _ _ _ Hrep), length_map, (rep_size _ _ _ _ Hrep).
    pose proof (hash_range name) as Hr. unfold TABLE_SIZE in *. lia.
  - exists head. split; [by eapply table_at_rep|].
    rewrite (rep_table _ _ _ _ Hrep). apply list_elem_of_In, in_map, list_elem_of_In.
    by eapply list_elem_of_lookup_2.
Qed.

Lemma table_index_in_bounds_witness :
  0 <= hash (lit "alice") < Z.of_nat (length demo_table)
  ∧ ∃ head : loc,
      table_at demo_table (hash (lit "alice")) (demo_state [Insert (lit "bob")])
      = Ret (Some head) (demo_state [Insert (lit "bob")])
      ∧ Some head ∈ demo_table.
Proof.
  apply (table_index_in_bounds demo_table (demo_state [Insert (lit "bob")])).
  apply demo_reachable. vm_compute. reflexivity.
Defined.

End HashTableFacts.

(** ** doubly-linked-list.c: [remove_entry] releases nothing *)

Section KeepsBlocks.
Context {B O : Type}.

Lemma keeps_blocks_ret {A} (a : A) : keeps_blocks (@ret B O A a).
Proof. by intros s a' s' [= <- <-]. Qed.

Lemma keeps_blocks_fault {A} : keeps_blocks (@fault B O A).
Proof. done. Qed.

Lemma keeps_blocks_bind {A A'} (m : M B O A) (k : A → M B O A') :
  keeps_blocks m → (∀ a, keeps_blocks (k a)) → keeps_blocks (bind m k).
Proof.
  intros Hm Hk s b s'' (a & s' & H1 & H2)%bind_inv.
  destruct (Hm _ _ _ H1) as (E1 & E2).
  destruct (Hk a _ _ _ H2) as (F1 & F2). split; congruence.
Qed.

Lemma keeps_blocks_print (o : O) : keeps_blocks (@print B O o).
Proof. by intros s a s' [= <- <-]. Qed.

Lemma keeps_blocks_load (p : ptr) : keeps_blocks (@load B O p).
Proof.
  intros s a s'. unfold load. destruct p as [l|]; [|done].
  destruct (heap s !! l); [|done]. by intros [= <- <-].
Qed.

Lemma keeps_blocks_store (p : ptr) (b : B) : keeps_blocks (@store B O p b).
Proof.
  intros s a s'. unfold store. destruct p as [l|]; [|done].
  destruct (heap s !! l) as [b0|] eqn:E; [|done]. intros [= <- <-].
  split; [|done]. cbn. rewrite dom_insert_L.
  assert (l ∈ dom (heap s)) by (apply elem_of_dom; eauto). set_solver.
Qed.

Lemma keeps_blocks_free_null : keeps_blocks (@free B O NULL).
Proof. by intros s a s' [= <- <-]. Qed.
End KeepsBlocks.

Section DoublyLinkedListFacts.
Import DoublyLinkedList.

Lemma keeps_blocks_load_node (p : ptr) : keeps_blocks (load_node p).
Proof.
  apply keeps_blocks_bind; [apply keeps_blocks_load|].
  intros [|n]; auto using keeps_blocks_ret, keeps_blocks_fault.
Qed.

Lemma keeps_blocks_set_next (p v : ptr) : keeps_blocks (set_next p v).
Proof.
  apply keeps_blocks_bind; [apply keeps_blocks_load_node|].
  intros n. apply keeps_blocks_store.
Qed.

Lemma keeps_blocks_set_prev (p v : ptr) : keeps_blocks (set_prev p v).
Proof.
  apply keeps_blocks_bind; [apply keeps_blocks_load_node|].
  intros n. apply keeps_blocks_store.
Qed.

(** Whatever the list and the entry, a call of [remove_entry] that returns
    has released nothing: every block, the entry's included, is still
    live. *)
Lemma dll_remove_entry_keeps_blocks (entry : ptr) : keeps_blocks (remove_entry entry).
Proof.
  unfold remove_entry, get_value, get_prev, get_next. cbv zeta.
  repeat first
    [ apply keeps_blocks_ret
    | apply keeps_blocks_print
    | apply keeps_blocks_load_node
    | apply keeps_blocks_set_next
    | apply keeps_blocks_set_prev
    | apply keeps_blocks_free_null
    | apply keeps_blocks_bind
    | match goal with |- ∀ _, keeps_blocks _ => intros ? end
    | match goal with |- keeps_blocks (if ?b then _ else _) => destruct b end
    | match goal with |- keeps_blocks (match ?x with Some _ => _ | None => _ end) =>
        destruct x end ].
Qed.

(** C9, the plain doubly-linked list: [remove_entry] on the entry holding 7
    returns [true] and unlinks the node (the sentinel has no successor any
    more), yet the node at address 2 is still allocated and nothing was
    released: the node is leaked. *)
Theorem dll_remove_entry_leaks :
  ∃ s', dll_demo (initial [Some 1%positive; Some 2%positive])
        = Ret (Some 1%positive, Some 2%positive, true) s'
        ∧ freed s' = []
        ∧ heap s' !! 2%positive = Some (Node (mk_node 7 (Some 1%positive) NULL))
        ∧ heap s' !! 1%positive = Some (Node (mk_node SENTINEL NULL NULL)).
Proof. eexists. split_and!; vm_compute; reflexivity. Qed.
(** ** The list: reading and writing nodes *)

Lemma dll_load_node_live (l : loc) (n : node) (s : St) :
  heap s !! l = Some (Node n) → load_node (Some l) s = Ret n s.
Proof. intros H. unfold load_node. eapply bind_Ret; [by apply load_live|done]. Qed.

Lemma dll_get_value_live (l : loc) (n : node) (s : St) :
  heap s !! l = Some (Node n) → get_value (Some l) s = Ret (value n) s.
Proof.
  intros H. unfold get_value. eapply bind_Ret; [by apply dll_load_node_live|done].
Qed.

Lemma dll_get_prev_live (l : loc) (n : node) (s : St) :
  heap s !! l = Some (Node n) → get_prev (Some l) s = Ret (prev n) s.
Proof.
  intros H. unfold get_prev. eapply bind_Ret; [by apply dll_load_node_live|done].
Qed.

Lemma dll_get_next_live (l : loc) (n : node) (s : St) :
  heap s !! l = Some (Node n) → get_next (Some l) s = Ret (next n) s.
Proof.
  intros H. unfold get_next. eapply bind_Ret; [by apply dll_load_node_live|done].
Qed.

Lemma dll_set_prev_live (l : loc) (n : node) (v : ptr) (s : St) :
  heap s !! l = Some (Node n) →
  set_prev (Some l) v s
  = Ret tt (set_heap s (<[l := Node (mk_node (value n) v (next n))]> (heap s))).
Proof.
  intros H. unfold set_prev.
  eapply bind_Ret; [by apply dll_load_node_live|]. by eapply store_live.
Qed.

Lemma dll_set_next_live (l : loc) (n : node) (v : ptr) (s : St) :
  heap s !! l = Some (Node n) →
  set_next (Some l) v s
  = Ret tt (set_heap s (<[l := Node (mk_node (value n) (prev n) v)]> (heap s))).
Proof.
  intros H. unfold set_next.
  eapply bind_Ret; [by apply dll_load_node_live|]. by eapply store_live.
Qed.

(** Lookups in a memory after updates. *)
Ltac lookup_now :=
  cbn [heap allocs freed output set_heap];
  repeat first
    [ rewrite lookup_insert_eq
    | rewrite lookup_insert_ne by congruence
    | rewrite lookup_delete_ne by congruence ];
  first [ eassumption | reflexivity | done ].

Ltac lookup :=
  lazymatch goal with
  | |- _ !! ?l = _ => tryif is_evar l then idtac else lookup_now
  | |- _ => lookup_now
  end.

Ltac tidy := unfold set_heap; cbn [heap allocs freed output value prev next].

Tactic Notation "step" uconstr(lem) "in" hyp(H) :=
  erewrite bind_Ret_eq in H by (eapply lem; lookup; lookup);
  cbn beta iota in H; unfold set_heap in H;
  cbn [heap allocs freed output value prev next] in H.

Tactic Notation "step" uconstr(lem) :=
  eapply bind_Ret; [ solve [ eapply lem; lookup; lookup ] | cbn beta iota; tidy ].

(** ** Chains *)

Lemma dll_nodes_cons (c : cell) (cs : list cell) : nodes (c :: cs) = c_node c :: nodes cs.
Proof. done. Qed.

Lemma dll_nodes_app (xs ys : list cell) : nodes (xs ++ ys) = nodes xs ++ nodes ys.
Proof. unfold nodes. by rewrite map_app. Qed.

Lemma dll_chain_frame (h h' : gmap loc block) pv cs :
  (∀ l, l ∈ nodes cs → h' !! l = h !! l) → chain h pv cs → chain h' pv cs.
Proof.
  revert pv; induction cs as [|c cs IH]; intros pv Hsame; [done|].
  intros (Hn & Hrest). cbn [chain]. split.
  - rewrite Hsame; [done|]. rewrite dll_nodes_cons. left.
  - apply IH; [|done]. intros l Hl. apply Hsame. rewrite dll_nodes_cons. by right.
Qed.

Lemma dll_chain_node (h : gmap loc block) pv cs l :
  chain h pv cs → l ∈ nodes cs → is_Some (h !! l).
Proof.
  revert pv; induction cs as [|c cs IH]; intros pv; cbn [chain].
  - intros _ Hl. by apply elem_of_nil in Hl.
  - intros (Hn & Hrest) Hl. rewrite dll_nodes_cons in Hl.
    apply elem_of_cons in Hl as [->|Hl]; [eauto|]. by eapply IH.
Qed.

Lemma dll_first_in_nodes l cs : first cs = Some l → l ∈ nodes cs.
Proof. destruct cs as [|c cs]; [done|]. intros [= <-]. rewrite dll_nodes_cons. left. Qed.

Lemma dll_chain_cell (h : gmap loc block) pv cs c :
  chain h pv cs → c ∈ cs →
  ∃ pv' nx, h !! c_node c = Some (Node (mk_node (c_val c) pv' nx)).
Proof.
  revert pv; induction cs as [|c0 cs IH]; intros pv Hc Hin.
  - by apply elem_of_nil in Hin.
  - destruct Hc as (Hn & Hrest).
    apply elem_of_cons in Hin as [->|Hin]; [eauto|by eapply IH].
Qed.

(** ** Insertion *)

Lemma dll_insert_entry_run (s : St) (head a : loc) (v : Z) (cs : list cell) rest :
  is_list (heap s) head cs →
  v ≠ SENTINEL →
  allocs s = Some a :: rest →
  heap s !! a = None →
  insert_entry (Some head) v s
  = Ret true (mk_state (linked (heap s) head (mk_cell a v) cs) rest (freed s) (output s)).
Proof.
  intros [Hhead Hchain] Hv Hal Ha.
  assert (a ≠ head) by congruence.
  unfold insert_entry.
  destruct (Z.eqb_spec v SENTINEL) as [|_]; [done|].
  step malloc_fresh.
  step dll_get_next_live.
  step store_live.
  step dll_get_next_live.
  destruct cs as [|c1 cs']; cbn [first].
  - eapply bind_Ret; [reflexivity|]. cbn beta.
    step dll_set_next_live.
    reflexivity.
  - destruct Hchain as (Hc1 & Hrest).
    assert (a ≠ c_node c1) by congruence.
    step dll_set_prev_live.
    step dll_set_next_live.
    reflexivity.
Qed.

Lemma dll_linked_frame (h : gmap loc block) head c cs l :
  l ≠ head → l ≠ c_node c → first cs ≠ Some l →
  linked h head c cs !! l = h !! l.
Proof.
  intros H1 H2 H4. unfold linked.
  rewrite lookup_insert_ne by done.
  destruct cs as [|c1 cs'].
  - by rewrite !lookup_insert_ne by done.
  - cbn in H4. rewrite lookup_insert_ne by congruence.
    by rewrite !lookup_insert_ne by done.
Qed.

Lemma dll_linked_live (h : gmap loc block) head c cs l :
  is_list h head cs →
  is_Some (linked h head c cs !! l) ↔ l = c_node c ∨ is_Some (h !! l).
Proof.
  intros [Hh Hc]. rewrite <- !elem_of_dom. unfold linked.
  assert (head ∈ dom h) by (apply elem_of_dom; eauto).
  destruct cs as [|c1 cs'].
  - rewrite !dom_insert_L. clear Hh Hc. set_solver.
  - destruct Hc as (Hn & _).
    assert (c_node c1 ∈ dom h) by (apply elem_of_dom; eauto).
    rewrite !dom_insert_L. clear Hh Hn. set_solver.
Qed.

Lemma dll_is_list_linked (h : gmap loc block) head a v cs :
  is_list h head cs →
  NoDup (head :: nodes cs) →
  h !! a = None →
  is_list (linked h head (mk_cell a v) cs) head (mk_cell a v :: cs).
Proof.
  intros [Hh Hc] Hnd Ha.
  assert (Hah : a ≠ head) by congruence.
  split; [unfold linked; by rewrite lookup_insert_eq|].
  destruct cs as [|c1 cs'].
  - unfold linked; cbn. split; [|done].
    rewrite lookup_insert_ne by done. by rewrite lookup_insert_eq.
  - destruct Hc as (Hn1 & Hrest).
    rewrite dll_nodes_cons in Hnd.
    apply NoDup_cons in Hnd as [Hhead Hnd].
    apply NoDup_cons in Hnd as [Hn Hnd].
    assert (c_node c1 ≠ head) by (intros E; apply Hhead; rewrite <- E; left).
    assert (a ≠ c_node c1) by congruence.
    unfold linked; cbn [chain c_node c_val first].
    split_and!; try by lookup_now.
    eapply dll_chain_frame; [|done]. intros l Hl.
    assert (is_Some (h !! l)) as [bl Hbl] by by eapply dll_chain_node.
    assert (l ≠ head) by (intros ->; apply Hhead; by right).
    assert (l ≠ c_node c1) by (intros ->; done).
    assert (l ≠ a) by congruence.
    by rewrite !lookup_insert_ne by done.
Qed.

(** ** Search *)

Lemma dll_find_loop_chain (s : St) pv cs v fuel :
  chain (heap s) pv cs → (length cs ≤ fuel)%nat →
  find_loop fuel (first cs) v s = Ret (c_node <$> first_match v cs) s.
Proof.
  revert pv fuel; induction cs as [|c cs IH]; intros pv fuel Hc Hfuel.
  - by destruct fuel.
  - destruct Hc as (Hn & Hrest).
    destruct fuel as [|fuel]; [cbn in Hfuel; lia|].
    cbn [first find_loop].
    step dll_get_value_live.
    unfold first_match. cbn [List.find].
    destruct (c_val c =? v); [done|].
    step dll_get_next_live.
    erewrite IH; [done|done|]. cbn in Hfuel. lia.
Qed.

Lemma dll_find_entry_list (s : St) head cs v fuel :
  is_list (heap s) head cs →
  v ≠ SENTINEL →
  (length cs < fuel)%nat →
  find_entry fuel (Some head) v s = Ret (c_node <$> first_match v cs) s.
Proof.
  intros [Hh Hc] Hv Hfuel. unfold find_entry.
  destruct (Z.eqb_spec v SENTINEL) as [|_]; [done|].
  destruct fuel as [|fuel]; [lia|]. cbn [find_loop].
  step dll_get_value_live.
  destruct (Z.eqb_spec SENTINEL v) as [|_]; [done|].
  step dll_get_next_live.
  eapply dll_find_loop_chain; [done|lia].
Qed.

Lemma dll_first_match_Some v cs c :
  first_match v cs = Some c → (c ∈ cs) ∧ c_val c = v.
Proof.
  unfold first_match. intros H. apply find_some in H as [Hin Hv].
  split; [by apply list_elem_of_In|]. by apply Z.eqb_eq.
Qed.

Lemma dll_first_match_None v cs :
  first_match v cs = None ↔ v ∉ values cs.
Proof.
  unfold first_match, values. induction cs as [|c cs IH]; cbn.
  - split; [intros _; apply not_elem_of_nil|done].
  - destruct (Z.eqb_spec (c_val c) v) as [E|E].
    + split; [done|]. intros H. exfalso. apply H. rewrite E. left.
    + rewrite IH, not_elem_of_cons. naive_solver.
Qed.

Lemma dll_first_match_split v cs c :
  first_match v cs = Some c →
  ∃ pre post, cs = pre ++ c :: post ∧ (v ∉ values pre) ∧ c_val c = v
              ∧ values (pre ++ post) = without_first v (values cs).
Proof.
  unfold first_match, values. induction cs as [|c0 cs IH]; cbn; [done|].
  destruct (Z.eqb_spec (c_val c0) v) as [E|E].
  - intros [= ->]. exists [], cs. split_and!; [done|apply not_elem_of_nil|done|done].
  - intros H. destruct (IH H) as (pre & post & -> & Hpre & Hv & Hrm).
    exists (c0 :: pre), post. split_and!; [done| |done|].
    + cbn. rewrite not_elem_of_cons. naive_solver.
    + cbn. by rewrite Hrm.
Qed.

(** ** Removal *)

Lemma dll_remove_entry_run (s : St) (p : loc) (np : node) (c : cell)
    (post : list cell) :
  heap s !! p = Some (Node np) →
  chain (heap s) (Some p) (c :: post) →
  NoDup (p :: nodes (c :: post)) →
  c_val c ≠ SENTINEL →
  remove_entry (Some (c_node c)) s
  = Ret true (mk_state (unlinked (heap s) p np post) (allocs s) (freed s) (output s)).
Proof.
  intros Hp (Hn & Hrest) Hnd Hv.
  rewrite dll_nodes_cons in Hnd.
  apply NoDup_cons in Hnd as [Hp' Hnd].
  apply NoDup_cons in Hnd as [Hn' Hnd].
  assert (c_node c ≠ p) by (intros E; apply Hp'; rewrite E; left).
  unfold remove_entry. cbv zeta.
  step dll_get_value_live.
  destruct (Z.eqb_spec (c_val c) SENTINEL) as [|_]; [done|].
  step dll_get_prev_live.
  step dll_get_next_live.
  step dll_set_next_live.
  step dll_get_next_live.
  destruct post as [|c1 post']; cbn [first].
  - eapply bind_Ret; [reflexivity|]. cbn beta.
    eapply bind_Ret; [reflexivity|]. cbn beta.
    unfold ret, unlinked. cbn [first]. by destruct s.
  - destruct Hrest as (Hn1 & Hrest).
    rewrite dll_nodes_cons in *.
    assert (c_node c1 ≠ p) by (intros E; apply Hp'; rewrite <- E; right; left).
    assert (c_node c1 ≠ c_node c) by (intros E; apply Hn'; rewrite <- E; left).
    rewrite bind_bind.
    step dll_get_prev_live.
    step dll_set_prev_live.
    eapply bind_Ret; [reflexivity|]. cbn beta.
    unfold ret, unlinked. cbn [first]. done.
Qed.

Lemma dll_last_node_cons q c0 pre : last_node q (c0 :: pre) = last_node (c_node c0) pre.
Proof.
  unfold last_node. destruct pre as [|c1 pre]; [done|].
  rewrite last_cons_cons.
  destruct (last (c1 :: pre)) eqn:E; [done|]. by apply last_None in E.
Qed.

Lemma dll_last_node_in q pre : last_node q pre ∈ q :: nodes pre.
Proof.
  revert q; induction pre as [|c0 pre IH]; intros q.
  - cbn. left.
  - rewrite dll_last_node_cons, dll_nodes_cons. right. apply IH.
Qed.

Lemma dll_chain_pred (h : gmap loc block) q pre c post :
  chain h (Some q) (pre ++ c :: post) →
  chain h (Some (last_node q pre)) (c :: post)
  ∧ (pre ≠ [] → ∃ np, h !! last_node q pre = Some (Node np)).
Proof.
  revert q; induction pre as [|c0 pre IH]; intros q; cbn [app].
  - intros H. split; [done|done].
  - intros (Hn & Hrest). rewrite dll_last_node_cons.
    destruct (IH _ Hrest) as [Hc Hp]. split; [done|]. intros _.
    destruct pre as [|c1 pre]; [|by apply Hp].
    cbn in *. eauto.
Qed.

Lemma dll_unlinked_frame (h : gmap loc block) p np post l :
  l ≠ p → first post ≠ Some l → unlinked h p np post !! l = h !! l.
Proof.
  intros H1 H2. unfold unlinked.
  destruct post as [|c1 post'].
  - by rewrite lookup_insert_ne.
  - cbn in H2. by rewrite !lookup_insert_ne by congruence.
Qed.

Lemma dll_unlinked_pred (h : gmap loc block) p np post :
  first post ≠ Some p →
  unlinked h p np post !! p = Some (Node (mk_node (value np) (prev np) (first post))).
Proof.
  intros H3. unfold unlinked.
  destruct post as [|c1 post'].
  - by rewrite lookup_insert_eq.
  - cbn in H3. rewrite lookup_insert_ne by congruence. by rewrite lookup_insert_eq.
Qed.

Lemma dll_unlinked_succ (h : gmap loc block) p np c1 post' :
  unlinked h p np (c1 :: post') !! c_node c1
  = Some (Node (mk_node (c_val c1) (Some p) (first post'))).
Proof. unfold unlinked. by rewrite lookup_insert_eq. Qed.

Lemma dll_unlinked_live (h : gmap loc block) p np post l :
  is_Some (h !! p) → (∀ l, first post = Some l → is_Some (h !! l)) →
  is_Some (unlinked h p np post !! l) ↔ is_Some (h !! l).
Proof.
  intros Hp%elem_of_dom Hpost. rewrite <- !elem_of_dom. unfold unlinked.
  destruct post as [|c1 post'].
  - rewrite dom_insert_L. clear Hpost. set_solver.
  - assert (c_node c1 ∈ dom h) by (apply elem_of_dom, Hpost; done).
    rewrite !dom_insert_L. clear Hpost. set_solver.
Qed.

(** Distinctness around the cell that is removed. *)
Lemma dll_NoDup_pred (head : loc) pre c post :
  NoDup (head :: nodes (pre ++ c :: post)) →
  NoDup (last_node head pre :: nodes (c :: post))
  ∧ (pre ≠ [] → last_node head pre ≠ head)
  ∧ (∀ l, l ∈ nodes (pre ++ post) → l ≠ c_node c)
  ∧ head ≠ c_node c ∧ first post ≠ Some head.
Proof.
  intros Hnd. pose proof (dll_last_node_in head pre) as Hlast.
  assert (Hpost : ∀ l, first post = Some l → l ∈ nodes post)
    by (intros l; apply dll_first_in_nodes).
  rewrite dll_nodes_app, app_comm_cons in Hnd.
  apply NoDup_app in Hnd as (Hpre & Hsep & Hrest).
  rewrite dll_nodes_cons in Hsep, Hrest.
  apply NoDup_cons in Hrest as [Hc Hrest].
  split_and!.
  - apply NoDup_cons. split; [by apply Hsep|]. rewrite dll_nodes_cons.
    by apply NoDup_cons.
  - intros Hne. destruct pre as [|c0 pre]; [done|].
    rewrite dll_last_node_cons. pose proof (dll_last_node_in (c_node c0) pre) as H0.
    apply NoDup_cons in Hpre as [Hh _]. rewrite dll_nodes_cons in Hh.
    intros E. apply Hh. by rewrite <- E.
  - intros l. rewrite dll_nodes_app. intros [Hl|Hl]%elem_of_app.
    + intros ->. apply (Hsep (c_node c)); [by right|left].
    + by intros ->.
  - intros E. apply (Hsep head); [left|]. rewrite E. left.
  - intros E%Hpost. apply (Hsep head); [left|]. by right.
Qed.

Lemma dll_chain_unlinked (h h' : gmap loc block) q pre c post :
  chain h (Some q) (pre ++ c :: post) →
  NoDup (q :: nodes (pre ++ c :: post)) →
  (∀ l, l ∈ nodes (pre ++ post) → l ≠ last_node q pre → first post ≠ Some l →
        h' !! l = h !! l) →
  (∀ np, h !! last_node q pre = Some (Node np) →
         h' !! last_node q pre
         = Some (Node (mk_node (value np) (prev np) (first post)))) →
  (∀ c1 post', post = c1 :: post' →
         h' !! c_node c1
         = Some (Node (mk_node (c_val c1) (Some (last_node q pre)) (first post')))) →
  chain h' (Some q) (pre ++ post).
Proof.
  revert q; induction pre as [|c0 pre IH]; intros q Hc Hnd Hframe Hpred Hsucc.
  - cbn [app] in *. unfold last_node in *; cbn in Hframe, Hpred, Hsucc.
    destruct Hc as (Hn & Hrest).
    destruct post as [|c1 post']; [done|].
    destruct Hrest as (Hn1 & Hrest).
    rewrite !dll_nodes_cons in Hnd.
    apply NoDup_cons in Hnd as [Hq Hnd].
    apply NoDup_cons in Hnd as [Hcn Hnd].
    apply NoDup_cons in Hnd as [Hc1n Hnd].
    cbn [chain]. split.
    + by eapply Hsucc.
    + eapply dll_chain_frame; [|done]. intros l Hl. apply Hframe.
      * rewrite dll_nodes_cons. by right.
      * intros ->. apply Hq. right. by right.
      * cbn. intros [= E]. apply Hc1n. by rewrite E.
  - cbn [app] in *. rewrite dll_last_node_cons in *.
    destruct Hc as (Hn & Hrest).
    rewrite dll_nodes_cons in Hnd.
    apply NoDup_cons in Hnd as [Hq Hnd].
    pose proof Hnd as Hnd'.
    apply NoDup_cons in Hnd as [Hcn Hnd].
    destruct (dll_NoDup_pred _ _ _ _ Hnd') as (Hp & Hph & Hsep & Hh1 & Hh3).
    cbn [chain]. split.
    + destruct pre as [|c1 pre].
      * unfold last_node in *. cbn in *. by rewrite (Hpred _ Hn).
      * cbn [app first] in *. rewrite Hframe; [done| | |done].
        -- rewrite dll_nodes_cons. left.
        -- intros E. by apply Hph.
    + apply IH; [done|done| |done|done].
      intros l Hl. apply Hframe. rewrite dll_nodes_cons. by right.
Qed.

Lemma dll_list_pred (h : gmap loc block) head pre c post :
  is_list h head (pre ++ c :: post) →
  ∃ np, h !! last_node head pre = Some (Node np)
        ∧ chain h (Some (last_node head pre)) (c :: post).
Proof.
  intros [Hh Hc]. destruct (dll_chain_pred _ _ _ _ _ Hc) as [Hpc Hp].
  destruct pre as [|c0 pre].
  - unfold last_node; cbn. eauto.
  - destruct Hp as (np & Hnp); [done|]. eauto.
Qed.

Lemma dll_first_app_cons (pre : list cell) c post :
  pre ≠ [] → first (pre ++ post) = first (pre ++ c :: post).
Proof. by destruct pre. Qed.

Lemma dll_is_list_unlinked (h : gmap loc block) head pre c post np :
  is_list h head (pre ++ c :: post) →
  NoDup (head :: nodes (pre ++ c :: post)) →
  h !! last_node head pre = Some (Node np) →
  is_list (unlinked h (last_node head pre) np post) head (pre ++ post).
Proof.
  intros Hb Hnd Hnp.
  destruct (dll_NoDup_pred _ _ _ _ Hnd) as (Hp & Hph & Hsep & Hh1 & Hh3).
  rewrite dll_nodes_cons in Hp.
  apply NoDup_cons in Hp as [Hp1 Hp].
  apply NoDup_cons in Hp as [Hp2 Hp].
  assert (first post ≠ Some (last_node head pre)).
  { intros E%dll_first_in_nodes. apply Hp1. by right. }
  destruct Hb as [Hh Hc]. split.
  - destruct pre as [|c0 pre].
    + unfold last_node in *; cbn in *. rewrite dll_unlinked_pred by done.
      by simplify_eq.
    + assert (head ≠ last_node head (c0 :: pre)) by (intros E; by apply Hph).
      rewrite dll_unlinked_frame by done.
      by rewrite (dll_first_app_cons _ c) by done.
  - eapply dll_chain_unlinked; [done|done| | |].
    + intros l Hl ??. by apply dll_unlinked_frame.
    + intros np' Hnp'. rewrite dll_unlinked_pred by done. by simplify_eq.
    + intros c1 post' ->. apply dll_unlinked_succ.
Qed.

Lemma dll_remove_entry_list (s : St) head pre c post :
  is_list (heap s) head (pre ++ c :: post) →
  NoDup (head :: nodes (pre ++ c :: post)) →
  c_val c ≠ SENTINEL →
  ∃ np, heap s !! last_node head pre = Some (Node np)
        ∧ remove_entry (Some (c_node c)) s
          = Ret true (mk_state (unlinked (heap s) (last_node head pre) np post)
                        (allocs s) (freed s) (output s)).
Proof.
  intros Hb Hnd Hv.
  destruct (dll_list_pred _ _ _ _ _ Hb) as (np & Hnp & Hc).
  exists np. split; [done|].
  apply dll_remove_entry_run; try done.
  by apply dll_NoDup_pred in Hnd as [? _].
Qed.

(** ** The list after an insertion and after a removal *)

Lemma dll_rep_nodup (h : gmap loc block) head cs lost :
  list_rep h head cs lost → NoDup (head :: nodes cs).
Proof.
  intros Hrep. pose proof (rep_separate _ _ _ _ Hrep) as Hnd.
  rewrite app_comm_cons in Hnd. by apply NoDup_app in Hnd as (? & _).
Qed.

Lemma dll_rep_insert (h : gmap loc block) head cs lost a v :
  list_rep h head cs lost →
  v ≠ SENTINEL → h !! a = None →
  list_rep (linked h head (mk_cell a v) cs) head (mk_cell a v :: cs) lost.
Proof.
  intros Hrep Hv Ha. pose proof (dll_rep_nodup _ _ _ _ Hrep) as Hnd.
  destruct Hrep as [Hlist Hsep Huser Hlive].
  assert (Hfresh : a ∉ head :: nodes cs ++ lost).
  { intros [b Hb]%Hlive. congruence. }
  split.
  - by apply dll_is_list_linked.
  - rewrite dll_nodes_cons. cbn [c_node app].
    apply NoDup_cons in Hsep as [Hh Hsep].
    apply NoDup_cons. split.
    + intros [->|Hin]%elem_of_cons; [apply Hfresh; left|done].
    + apply NoDup_cons. split; [|done]. intros Hin. apply Hfresh. by right.
  - intros c [->|Hin]%elem_of_cons; [done|by apply Huser].
  - intros l. rewrite (dll_linked_live _ _ _ _ _ Hlist), Hlive.
    rewrite dll_nodes_cons. cbn [c_node app]. rewrite !elem_of_cons. tauto.
Qed.

Lemma dll_nodes_remove (head : loc) pre c post lost :
  head :: nodes (pre ++ c :: post) ++ lost
  ≡ₚ c_node c :: head :: nodes (pre ++ post) ++ lost.
Proof.
  rewrite !dll_nodes_app, dll_nodes_cons.
  rewrite <- !app_assoc. cbn [app].
  transitivity (head :: c_node c :: nodes pre ++ nodes post ++ lost).
  - constructor. symmetry. apply Permutation_middle.
  - apply perm_swap.
Qed.

Lemma dll_rep_remove (h : gmap loc block) head pre c post lost np :
  list_rep h head (pre ++ c :: post) lost →
  h !! last_node head pre = Some (Node np) →
  list_rep (unlinked h (last_node head pre) np post) head (pre ++ post)
    (c_node c :: lost).
Proof.
  intros Hrep Hnp. pose proof (dll_rep_nodup _ _ _ _ Hrep) as Hnd.
  destruct Hrep as [Hlist Hsep Huser Hlive].
  pose proof (dll_nodes_remove head pre c post lost) as Hperm.
  assert (Hperm' : head :: nodes (pre ++ post) ++ c_node c :: lost
                   ≡ₚ head :: nodes (pre ++ c :: post) ++ lost).
  { rewrite Hperm. rewrite <- Permutation_middle. apply Permutation_swap. }
  split.
  - by apply (dll_is_list_unlinked h head pre c post np).
  - by rewrite Hperm'.
  - intros x Hin. apply Huser. revert Hin.
    rewrite !elem_of_app, elem_of_cons. tauto.
  - intros l. rewrite dll_unlinked_live.
    + by rewrite Hlive, Hperm'.
    + eauto.
    + intros l' E%dll_first_in_nodes. destruct Hlist as [_ Hc].
      eapply dll_chain_node; [exact Hc|].
      rewrite dll_nodes_app, dll_nodes_cons, elem_of_app, elem_of_cons. tauto.
Qed.

(** ** Outcomes of the operations *)

Lemma dll_insert_entry_sentinel (s : St) (p : ptr) :
  insert_entry p SENTINEL s
  = Ret false (mk_state (heap s) (allocs s) (freed s)
                 (output s ++ [Cannot_insert_sentinel])).
Proof. done. Qed.

Lemma dll_find_entry_sentinel (s : St) (p : ptr) (fuel : nat) :
  find_entry fuel p SENTINEL s
  = Ret NULL (mk_state (heap s) (allocs s) (freed s)
                (output s ++ [Cannot_locate_sentinel])).
Proof. done. Qed.

Lemma dll_insert_entry_no_node (s s1 : St) (p : ptr) (v : Z) :
  v ≠ SENTINEL →
  malloc Uninit s = Ret NULL s1 →
  insert_entry p v s
  = Ret false (mk_state (heap s) (allocs s1) (freed s)
                 (output s ++ [Failed_node_allocation])).
Proof.
  intros Hv Hma. pose proof (malloc_null _ _ _ Hma) as E.
  unfold insert_entry. destruct (Z.eqb_spec v SENTINEL) as [|_]; [done|].
  eapply bind_Ret; [exact Hma|]. rewrite E. done.
Qed.

Lemma dll_insert_entry_outcome (s s' : St) head cs v ok :
  is_list (heap s) head cs →
  insert_entry (Some head) v s = Ret ok s' →
  (ok = false ∧ heap s' = heap s ∧ freed s' = freed s)
  ∨ (ok = true ∧ v ≠ SENTINEL
     ∧ ∃ a, allocs s = Some a :: allocs s'
            ∧ heap s !! a = None
            ∧ s' = mk_state (linked (heap s) head (mk_cell a v) cs)
                     (allocs s') (freed s) (output s)).
Proof.
  intros Hb Hrun.
  destruct (decide (v = SENTINEL)) as [->|Hv].
  { rewrite dll_insert_entry_sentinel in Hrun. simplify_eq. by left. }
  destruct (malloc_cases Uninit s) as [(rest & Hma)|(a & rest & Hal & Ha & Hma)].
  { rewrite (dll_insert_entry_no_node _ _ _ _ Hv Hma) in Hrun. simplify_eq. by left. }
  rewrite (dll_insert_entry_run s head a v cs rest) in Hrun by done.
  simplify_eq. right. split_and!; [done|done|]. by exists a.
Qed.

Lemma dll_find_loop_partial (s s' : St) pv cs v fuel r :
  chain (heap s) pv cs →
  find_loop fuel (first cs) v s = Ret r s' →
  s' = s ∧ r = c_node <$> first_match v cs.
Proof.
  revert pv fuel; induction cs as [|c cs IH]; intros pv fuel Hc.
  - destruct fuel; cbn; by intros [= <- <-].
  - destruct Hc as (Hn & Hrest).
    destruct fuel as [|fuel]; [done|].
    cbn [first find_loop]. intros Hrun.
    step dll_get_value_live in Hrun.
    unfold first_match. cbn [List.find].
    destruct (c_val c =? v); [unfold ret in Hrun; by simplify_eq|].
    step dll_get_next_live in Hrun. by eapply IH.
Qed.

Lemma dll_find_entry_partial (s s' : St) head cs v fuel r :
  is_list (heap s) head cs →
  v ≠ SENTINEL →
  find_entry fuel (Some head) v s = Ret r s' →
  s' = s ∧ r = c_node <$> first_match v cs.
Proof.
  intros [Hh Hc] Hv. unfold find_entry. intros Hrun.
  destruct (Z.eqb_spec v SENTINEL) as [|_]; [done|].
  destruct fuel as [|fuel]; [done|]. cbn [find_loop] in Hrun.
  step dll_get_value_live in Hrun.
  destruct (Z.eqb_spec SENTINEL v) as [|_]; [done|].
  step dll_get_next_live in Hrun.
  by eapply dll_find_loop_partial.
Qed.

Lemma dll_remove_found (s : St) head cs lost v c :
  list_rep (heap s) head cs lost →
  first_match v cs = Some c →
  ∃ pre post np,
    cs = pre ++ c :: post ∧ c_val c = v
    ∧ values (pre ++ post) = without_first v (values cs)
    ∧ heap s !! last_node head pre = Some (Node np)
    ∧ last_node head pre ≠ c_node c
    ∧ first post ≠ Some (c_node c)
    ∧ remove_entry (Some (c_node c)) s
      = Ret true (mk_state (unlinked (heap s) (last_node head pre) np post)
                    (allocs s) (freed s) (output s))
    ∧ list_rep (unlinked (heap s) (last_node head pre) np post) head (pre ++ post)
        (c_node c :: lost).
Proof.
  intros Hrep Hfm.
  destruct (dll_first_match_split _ _ _ Hfm) as (pre & post & -> & Hpre & Hv & Hrm).
  pose proof (dll_rep_nodup _ _ _ _ Hrep) as Hnd.
  destruct (dll_remove_entry_list s head pre c post) as (np & Hnp & Hrun);
    [apply (rep_list _ _ _ _ Hrep)|done| |].
  { apply (rep_user _ _ _ _ Hrep). rewrite elem_of_app, elem_of_cons. tauto. }
  destruct (dll_NoDup_pred _ _ _ _ Hnd) as (Hp & _).
  rewrite dll_nodes_cons in Hp.
  apply NoDup_cons in Hp as [Hp1 Hp]. apply NoDup_cons in Hp as [Hp2 _].
  exists pre, post, np. split_and!; try done.
  - intros E. apply Hp1. rewrite E. left.
  - intros E%dll_first_in_nodes. done.
  - by apply dll_rep_remove.
Qed.

(** ** Validity is an invariant of the runs *)

Lemma dll_create_list_valid (future : list ptr) (s : St) (list_head : ptr) :
  create_list (initial future) = Ret list_head s → list_head ≠ NULL →
  valid s list_head.
Proof.
  unfold create_list. intros Hrun Hne.
  destruct (malloc_cases Uninit (initial future))
    as [(rest & Hma)|(l & rest & Hal & Hl & Hma)].
  - erewrite bind_Ret_eq in Hrun by exact Hma. cbn in Hrun.
    unfold ret in Hrun. by simplify_eq.
  - erewrite bind_Ret_eq in Hrun by exact Hma. cbn beta iota in Hrun.
    erewrite bind_Ret_eq in Hrun by (eapply store_live; lookup_now).
    unfold ret, set_heap in Hrun. cbn in Hrun. simplify_eq.
    exists l, [], []. split_and!; [done| |done]. cbn [heap].
    rewrite insert_insert_eq, insert_empty. split.
    + split; [by rewrite lookup_singleton_eq|done].
    + cbn. apply NoDup_singleton.
    + intros c Hc. by apply elem_of_nil in Hc.
    + intros l'. cbn. rewrite list_elem_of_singleton.
      destruct (decide (l' = l)) as [->|Hl'].
      * rewrite lookup_singleton_eq. split; eauto.
      * rewrite lookup_singleton_ne by done. split; [by intros []|done].
Qed.

Lemma dll_run_op_valid (fuel : nat) (list_head : ptr) (o : op) (s s' : St) :
  valid s list_head → run_op fuel list_head o s = Ret tt s' → valid s' list_head.
Proof.
  intros (head & cs & lost & -> & Hrep & Hfr) Hrun.
  destruct o as [v|v|v]; cbn [run_op] in Hrun.
  - apply bind_inv in Hrun as (ok & s1 & Hop & Hret).
    unfold ret in Hret. simplify_eq.
    apply (dll_insert_entry_outcome _ _ _ cs) in Hop
      as [(_ & E & E')|(_ & Hv & a & _ & Ha & ->)];
      [| |apply (rep_list _ _ _ _ Hrep)].
    + exists head, cs, lost. rewrite E, E'. done.
    + exists head, (mk_cell a v :: cs), lost. cbn [heap freed].
      split_and!; [done| |done]. by apply dll_rep_insert.
  - apply bind_inv in Hrun as (r & s1 & Hop & Hret).
    unfold ret in Hret. simplify_eq.
    destruct (decide (v = SENTINEL)) as [->|Hv].
    + rewrite dll_find_entry_sentinel in Hop. simplify_eq.
      by exists head, cs, lost.
    + apply (dll_find_entry_partial _ _ _ cs) in Hop as [-> _];
        [|apply (rep_list _ _ _ _ Hrep)|done].
      by exists head, cs, lost.
  - apply bind_inv in Hrun as (r & s1 & Hop & Hrun).
    destruct (decide (v = SENTINEL)) as [->|Hv].
    { rewrite dll_find_entry_sentinel in Hop. simplify_eq. cbn in Hrun.
      unfold ret in Hrun. simplify_eq. by exists head, cs, lost. }
    apply (dll_find_entry_partial _ _ _ cs) in Hop as [-> ->];
      [|apply (rep_list _ _ _ _ Hrep)|done].
    destruct (first_match v cs) as [c|] eqn:Hfm; cbn in Hrun.
    + destruct (dll_remove_found _ _ _ _ _ _ Hrep Hfm)
        as (pre & post & np & -> & _ & _ & _ & _ & _ & Hrem & Hrep').
      erewrite bind_Ret_eq in Hrun by exact Hrem.
      unfold ret in Hrun. simplify_eq.
      by exists head, (pre ++ post), (c_node c :: lost).
    + unfold ret in Hrun. simplify_eq. by exists head, cs, lost.
Qed.

Lemma dll_run_ops_valid (list_head : ptr) (os : list (nat * op)) (s s' : St) :
  valid s list_head → run_ops list_head os s = Ret tt s' → valid s' list_head.
Proof.
  revert s; induction os as [|[fuel o] os IH]; intros s Hv Hrun; cbn [run_ops] in Hrun.
  - unfold ret in Hrun. by simplify_eq.
  - apply bind_inv in Hrun as ([] & s1 & Hop & Hrun).
    eapply IH; [|done]. by eapply dll_run_op_valid.
Qed.

Lemma dll_reachable_valid (list_head : ptr) (s : St) :
  reachable list_head s → valid s list_head.
Proof.
  intros (future & os & s0 & Hcreate & Hne & Hrun).
  eapply dll_run_ops_valid; [|done]. by eapply dll_create_list_valid.
Qed.

Lemma dll_reachable (os : list op) :
  run_ops (Some 1%positive) (map (pair dll_fuel) os)
    (state_of (create_list (initial dll_future)))
  = Ret tt (dll_state os) →
  reachable (Some 1%positive) (dll_state os).
Proof.
  intros Hrun.
  exists dll_future, (map (pair dll_fuel) os),
    (state_of (create_list (initial dll_future))).
  split_and!; [|done|done]. vm_compute. reflexivity.
Qed.

(** ** Observing the list *)

Lemma dll_contents_chain (s : St) pv cs fuel :
  chain (heap s) pv cs → (length cs ≤ fuel)%nat →
  contents fuel (first cs) s = Ret (values cs) s.
Proof.
  revert pv fuel; induction cs as [|c cs IH]; intros pv fuel Hc Hfuel.
  - by destruct fuel.
  - destruct Hc as (Hn & Hrest).
    destruct fuel as [|fuel]; [cbn in Hfuel; lia|].
    cbn [first contents].
    step dll_get_value_live.
    step dll_get_next_live.
    eapply bind_Ret; [eapply IH; [done|cbn in Hfuel; lia]|]. done.
Qed.

Lemma dll_list_values_list (s : St) head cs fuel :
  is_list (heap s) head cs → (length cs ≤ fuel)%nat →
  list_values fuel (Some head) s = Ret (values cs) s.
Proof.
  intros [Hh Hc] Hfuel. unfold list_values.
  step dll_get_next_live. by eapply dll_contents_chain.
Qed.

(** ** Release of the list *)

Lemma dll_lookup_deleted (h : gmap loc block) (ls : list loc) (l : loc) :
  l ∈ ls → foldr delete h ls !! l = None.
Proof.
  induction ls as [|x ls IH]; cbn [foldr]; [by intros ?%elem_of_nil|].
  destruct (decide (l = x)) as [->|Hne]; [by rewrite lookup_delete_eq|].
  intros [?|Hin]%elem_of_cons; [done|]. rewrite lookup_delete_ne by done. by apply IH.
Qed.

Lemma dll_lookup_kept (h : gmap loc block) (ls : list loc) (l : loc) :
  l ∉ ls → foldr delete h ls !! l = h !! l.
Proof.
  induction ls as [|x ls IH]; cbn [foldr]; [done|].
  intros [Hne Hin]%not_elem_of_cons. rewrite lookup_delete_ne by done. by apply IH.
Qed.

Lemma dll_delete_list_chain (s : St) pv cs fuel :
  chain (heap s) pv cs →
  NoDup (nodes cs) →
  (length cs ≤ fuel)%nat →
  delete_list fuel (first cs) s
  = Ret tt (mk_state (foldr delete (heap s) (nodes cs)) (allocs s)
              (freed s ++ reverse (nodes cs)) (output s)).
Proof.
  revert pv fuel; induction cs as [|c cs IH]; intros pv fuel Hc Hnd Hfuel.
  - destruct fuel; cbn; unfold ret; rewrite app_nil_r; by destruct s.
  - destruct Hc as (Hn & Hrest). rewrite dll_nodes_cons in Hnd.
    apply NoDup_cons in Hnd as [Hc Hnd].
    destruct fuel as [|fuel]; [cbn in Hfuel; lia|].
    cbn [first delete_list].
    step dll_get_next_live.
    eapply bind_Ret; [eapply IH; [done|done|cbn in Hfuel; lia]|]. cbn beta.
    erewrite free_live.
    + cbn [heap allocs freed output]. rewrite dll_nodes_cons, reverse_cons.
      cbn [foldr]. by rewrite <- app_assoc.
    + cbn [heap]. rewrite dll_lookup_kept by done. exact Hn.
Qed.

Lemma dll_delete_list_list (s : St) head cs fuel :
  is_list (heap s) head cs →
  NoDup (head :: nodes cs) →
  (length cs < fuel)%nat →
  delete_list fuel (Some head) s
  = Ret tt (mk_state (released head cs (heap s)) (allocs s)
              (freed s ++ reverse (head :: nodes cs)) (output s)).
Proof.
  intros [Hh Hc] Hnd Hfuel.
  apply (dll_delete_list_chain s NULL (mk_cell head SENTINEL :: cs) fuel).
  - split; [exact Hh|exact Hc].
  - exact Hnd.
  - cbn. lia.
Qed.

(** ** The list of doubly-linked-list.c, as a client sees it *)

(** X24: in every state that a client can bring the list to (creation, then
    insertions, searches and removals of entries found), the list starts
    with the sentinel node, whose value is [INT_MAX] and which has no
    predecessor, no other node of the list holds [INT_MAX], nothing was
    released, and the sentinel is protected: [insert_entry] and
    [find_entry] refuse the value [INT_MAX] and [remove_entry] refuses the
    sentinel node, each with its message and without changing the memory. *)
Theorem dll_sentinel_protected (list_head : ptr) (s : St) (fuel0 : nat) :
  reachable list_head s →
  (∃ n, load_node list_head s = Ret n s ∧ value n = INT_MAX ∧ prev n = NULL)
  ∧ (∃ vs N, (INT_MAX ∉ vs)
       ∧ ∀ fuel, (N ≤ fuel)%nat → list_values fuel list_head s = Ret vs s)
  ∧ freed s = []
  ∧ insert_entry list_head INT_MAX s
    = Ret false (mk_state (heap s) (allocs s) (freed s)
                   (output s ++ [Cannot_insert_sentinel]))
  ∧ find_entry fuel0 list_head INT_MAX s
    = Ret NULL (mk_state (heap s) (allocs s) (freed s)
                  (output s ++ [Cannot_locate_sentinel]))
  ∧ remove_entry list_head s
    = Ret false (mk_state (heap s) (allocs s) (freed s)
                   (output s ++ [Cannot_remove_sentinel])).
Proof.
  intros (head & cs & lost & -> & Hrep & Hfr)%dll_reachable_valid.
  pose proof (rep_list _ _ _ _ Hrep) as [Hh Hc].
  split_and!; [| |done|done|done|].
  - eexists. split; [by apply dll_load_node_live|done].
  - exists (values cs), (length cs). split.
    + intros (c & E & Hin)%list_elem_of_fmap.
      apply (rep_user _ _ _ _ Hrep c Hin). by rewrite <- E.
    + intros fuel Hfuel. by apply dll_list_values_list.
  - unfold remove_entry.
    eapply bind_Ret; [by apply dll_get_value_live|]. done.
Qed.

Lemma dll_sentinel_protected_witness :
  (∃ n, load_node (Some 1%positive) (dll_state [Insert 7; Insert 9; Remove 7])
        = Ret n (dll_state [Insert 7; Insert 9; Remove 7])
        ∧ value n = INT_MAX ∧ prev n = NULL)
  ∧ freed (dll_state [Insert 7; Insert 9; Remove 7]) = []
  ∧ remove_entry (Some 1%positive) (dll_state [Insert 7; Insert 9; Remove 7])
    = Ret false
        (mk_state (heap (dll_state [Insert 7; Insert 9; Remove 7]))
           (allocs (dll_state [Insert 7; Insert 9; Remove 7]))
           (freed (dll_state [Insert 7; Insert 9; Remove 7]))
           (output (dll_state [Insert 7; Insert 9; Remove 7])
              ++ [Cannot_remove_sentinel])).
Proof.
  destruct (dll_sentinel_protected (Some 1%positive)
              (dll_state [Insert 7; Insert 9; Remove 7]) 0)
    as (H1 & _ & H3 & _ & _ & H6).
  - apply dll_reachable. vm_compute. reflexivity.
  - exact (conj H1 (conj H3 H6)).
Defined.

(** X25: a successful [insert_entry] on a reachable list allocates one node,
    puts the value in front of the values that the list held, and a search
    for the value then returns this new node: the newest entry shadows the
    older ones with the same value. *)
Theorem dll_insert_then_find (list_head : ptr) (s s' : St) (v : Z) :
  reachable list_head s →
  insert_entry list_head v s = Ret true s' →
  v ≠ INT_MAX
  ∧ ∃ (new_entry : loc) (rest : list ptr) (old : node),
      allocs s = Some new_entry :: rest
      ∧ heap s !! new_entry = None
      ∧ load_node list_head s = Ret old s
      ∧ heap s' !! new_entry = Some (Node (mk_node v list_head (next old)))
      ∧ load_node list_head s' = Ret (mk_node INT_MAX NULL (Some new_entry)) s'
      ∧ ∃ vs N, ∀ fuel, (N ≤ fuel)%nat →
          list_values fuel list_head s = Ret vs s
          ∧ list_values fuel list_head s' = Ret (v :: vs) s'
          ∧ find_entry fuel list_head v s' = Ret (Some new_entry) s'.
Proof.
  intros (head & cs & lost & -> & Hrep & Hfr)%dll_reachable_valid Hrun.
  pose proof (rep_list _ _ _ _ Hrep) as Hlist.
  apply (dll_insert_entry_outcome _ _ _ cs) in Hrun
    as [(? & _)|(_ & Hv & a & Hal & Ha & ->)]; [done| |done].
  pose proof (dll_rep_insert _ _ _ _ a v Hrep Hv Ha) as Hrep'.
  pose proof (rep_list _ _ _ _ Hrep') as [Hh' Hchain'].
  destruct Hchain' as [Hnew _]. destruct Hlist as [Hh Hc].
  split; [done|]. eexists a, (allocs s'), _. split_and!; [done|done| | | |].
  - by apply dll_load_node_live.
  - exact Hnew.
  - by apply dll_load_node_live.
  - exists (values cs), (S (S (length cs))). intros fuel Hfuel. split_and!.
    + apply dll_list_values_list; [done|lia].
    + apply (dll_list_values_list _ head (mk_cell a v :: cs));
        [apply (rep_list _ _ _ _ Hrep')|cbn; lia].
    + rewrite (dll_find_entry_list _ head (mk_cell a v :: cs));
        [|apply (rep_list _ _ _ _ Hrep')|done|cbn; lia].
      unfold first_match. cbn. by rewrite Z.eqb_refl.
Qed.

Lemma dll_insert_then_find_witness :
  ∃ s', insert_entry (Some 1%positive) 7 (dll_state [Insert 7; Insert 9])
        = Ret true s'
        ∧ ∃ (new_entry : loc) (rest : list ptr),
            allocs (dll_state [Insert 7; Insert 9]) = Some new_entry :: rest
            ∧ ∃ vs N, ∀ fuel, (N ≤ fuel)%nat →
                list_values fuel (Some 1%positive) (dll_state [Insert 7; Insert 9])
                = Ret vs (dll_state [Insert 7; Insert 9])
                ∧ list_values fuel (Some 1%positive) s' = Ret (7 :: vs) s'
                ∧ find_entry fuel (Some 1%positive) 7 s' = Ret (Some new_entry) s'.
Proof.
  eexists. split; [vm_compute; reflexivity|].
  destruct (dll_insert_then_find (Some 1%positive) (dll_state [Insert 7; Insert 9])
              (state_of (insert_entry (Some 1%positive) 7
                           (dll_state [Insert 7; Insert 9]))) 7)
    as (_ & a & rest & old & H1 & _ & _ & _ & _ & H2).
  - apply dll_reachable. vm_compute. reflexivity.
  - vm_compute. reflexivity.
  - exists a, rest. split; [exact H1|exact H2].
Defined.

(** X26: on a reachable list the search for a value other than [INT_MAX]
    returns (given the fuel to walk the list) and changes nothing; it
    returns a null pointer exactly when the list does not hold the value,
    and otherwise a live node that holds it. *)
Theorem dll_find_iff_stored (list_head : ptr) (s : St) (v : Z) :
  reachable list_head s → v ≠ INT_MAX →
  ∃ vs r N,
    (r = NULL ↔ v ∉ vs)
    ∧ (∀ l, r = Some l → ∃ n, heap s !! l = Some (Node n) ∧ value n = v)
    ∧ ∀ fuel, (N ≤ fuel)%nat →
        list_values fuel list_head s = Ret vs s
        ∧ find_entry fuel list_head v s = Ret r s.
Proof.
  intros (head & cs & lost & -> & Hrep & Hfr)%dll_reachable_valid Hv.
  pose proof (rep_list _ _ _ _ Hrep) as Hlist.
  exists (values cs), (c_node <$> first_match v cs), (S (length cs)). split_and!.
  - rewrite <- dll_first_match_None. by destruct (first_match v cs).
  - intros l Hl. destruct (first_match v cs) as [c|] eqn:Hfm; [|done].
    cbn in Hl. simplify_eq.
    destruct (dll_first_match_Some _ _ _ Hfm) as [Hin Hcv].
    destruct Hlist as [_ Hchain].
    destruct (dll_chain_cell _ _ _ _ Hchain Hin) as (pv' & nx & Hn).
    eexists. split; [exact Hn|done].
  - intros fuel Hfuel. split.
    + apply dll_list_values_list; [done|lia].
    + apply dll_find_entry_list; [done|done|lia].
Qed.

Lemma dll_find_iff_stored_witness :
  ∃ vs r N,
    (r = NULL ↔ 9 ∉ vs)
    ∧ ∀ fuel, (N ≤ fuel)%nat →
        list_values fuel (Some 1%positive) (dll_state [Insert 7; Insert 9; Insert 3])
        = Ret vs (dll_state [Insert 7; Insert 9; Insert 3])
        ∧ find_entry fuel (Some 1%positive) 9 (dll_state [Insert 7; Insert 9; Insert 3])
          = Ret r (dll_state [Insert 7; Insert 9; Insert 3]).
Proof.
  destruct (dll_find_iff_stored (Some 1%positive)
              (dll_state [Insert 7; Insert 9; Insert 3]) 9)
    as (vs & r & N & H1 & _ & H2).
  - apply dll_reachable. vm_compute. reflexivity.
  - discriminate.
  - exists vs, r, N. split; [exact H1|exact H2].
Defined.

(** X27: on a reachable list, [remove_entry] on the node that a search for
    [v] returns succeeds and unlinks the node: the list then holds the
    values it held without the first [v].  But the node is not released:
    it is still allocated with its contents, the log of releases is still
    empty and exactly the same blocks are live as before; no pointer of the
    list refers to the node any more, so it is leaked. *)
Theorem dll_remove_unlinks_and_leaks (list_head : ptr) (s s0 : St) (v : Z)
    (l : loc) (fuel0 : nat) :
  reachable list_head s →
  find_entry fuel0 list_head v s = Ret (Some l) s0 →
  ∃ (n : node) (s' : St),
    heap s !! l = Some (Node n) ∧ value n = v
    ∧ remove_entry (Some l) s = Ret true s'
    ∧ heap s' !! l = Some (Node n)
    ∧ freed s' = []
    ∧ (∀ l', is_Some (heap s' !! l') ↔ is_Some (heap s !! l'))
    ∧ ∃ vs N, ∀ fuel, (N ≤ fuel)%nat →
        list_values fuel list_head s = Ret vs s
        ∧ list_values fuel list_head s' = Ret (without_first v vs) s'
        ∧ ∀ w r, find_entry fuel list_head w s' = Ret r s' → r ≠ Some l.
Proof.
  intros (head & cs & lost & -> & Hrep & Hfr)%dll_reachable_valid Hfind.
  pose proof (rep_list _ _ _ _ Hrep) as Hlist.
  assert (Hv : v ≠ SENTINEL).
  { intros ->. by rewrite dll_find_entry_sentinel in Hfind. }
  apply (dll_find_entry_partial _ _ _ cs) in Hfind as [-> Hl]; [|done|done].
  destruct (first_match v cs) as [c|] eqn:Hfm; cbn in Hl; [|done]. simplify_eq.
  destruct (dll_remove_found _ _ _ _ _ _ Hrep Hfm)
    as (pre & post & np & -> & Hcv & Hvals & Hnp & Hpc & Hfc & Hrem & Hrep').
  destruct Hlist as [Hh Hchain].
  assert (Hin : c ∈ pre ++ c :: post) by (rewrite elem_of_app, elem_of_cons; tauto).
  destruct (dll_chain_cell _ _ _ _ Hchain Hin) as (pv' & nx & Hn).
  eexists _, _. split_and!; [exact Hn|done|exact Hrem| |done| |].
  - cbn [heap]. rewrite dll_unlinked_frame by done. exact Hn.
  - intros l'. cbn [heap]. apply dll_unlinked_live; [eauto|].
    intros l1 E%dll_first_in_nodes. eapply dll_chain_node; [exact Hchain|].
    rewrite dll_nodes_app, dll_nodes_cons, elem_of_app, elem_of_cons. tauto.
  - exists (values (pre ++ c :: post)), (S (length (pre ++ c :: post))).
    intros fuel Hfuel.
    assert (length (pre ++ post) ≤ length (pre ++ c :: post))%nat
      by (rewrite !length_app; cbn; lia).
    split_and!.
    + apply dll_list_values_list; [done|lia].
    + rewrite <- Hvals.
      apply dll_list_values_list; [apply (rep_list _ _ _ _ Hrep')|cbn [heap]; lia].
    + intros w r Hw.
      destruct (decide (w = SENTINEL)) as [->|Hw'].
      { rewrite dll_find_entry_sentinel in Hw. by simplify_eq. }
      apply (dll_find_entry_partial _ _ _ (pre ++ post)) in Hw as [_ ->];
        [|apply (rep_list _ _ _ _ Hrep')|done].
      destruct (first_match w (pre ++ post)) as [c'|] eqn:Hfm'; [|done].
      cbn. intros [= E].
      destruct (dll_first_match_Some _ _ _ Hfm') as [Hin' _].
      pose proof (rep_separate _ _ _ _ Hrep') as Hnd.
      apply NoDup_cons in Hnd as [_ Hnd].
      apply NoDup_app in Hnd as (_ & Hsep & _).
      apply (Hsep (c_node c')); [|rewrite E; left].
      apply list_elem_of_fmap. eauto.
Qed.

Lemma dll_remove_unlinks_and_leaks_witness :
  ∃ (n : node) (s' : St),
    heap (dll_state [Insert 7; Insert 9]) !! 2%positive = Some (Node n)
    ∧ value n = 7
    ∧ remove_entry (Some 2%positive) (dll_state [Insert 7; Insert 9]) = Ret true s'
    ∧ heap s' !! 2%positive = Some (Node n)
    ∧ freed s' = [].
Proof.
  destruct (dll_remove_unlinks_and_leaks (Some 1%positive)
              (dll_state [Insert 7; Insert 9]) (dll_state [Insert 7; Insert 9])
              7 2%positive dll_fuel)
    as (n & s' & H1 & H2 & H3 & H4 & H5 & _).
  - apply dll_reachable. vm_compute. reflexivity.
  - vm_compute. reflexivity.
  - exists n, s'. split_and!; assumption.
Defined.

(** ** The nodes on the list and the nodes unlinked from it *)

Lemma dll_list_nodes_chain (s : St) pv cs fuel :
  chain (heap s) pv cs → (length cs ≤ fuel)%nat →
  list_nodes fuel (first cs) s = Ret (nodes cs) s.
Proof.
  revert pv fuel; induction cs as [|c cs IH]; intros pv fuel Hc Hfuel.
  - by destruct fuel.
  - destruct Hc as (Hn & Hrest).
    destruct fuel as [|fuel]; [cbn in Hfuel; lia|].
    cbn [first list_nodes].
    step dll_get_next_live.
    eapply bind_Ret; [eapply IH; [done|cbn in Hfuel; lia]|]. done.
Qed.

Lemma dll_list_nodes_partial (s s' : St) pv cs fuel ns :
  chain (heap s) pv cs →
  list_nodes fuel (first cs) s = Ret ns s' →
  s' = s ∧ ns = nodes cs ∧ (length cs ≤ fuel)%nat.
Proof.
  revert pv fuel ns s'; induction cs as [|c cs IH]; intros pv fuel ns s' Hc.
  - destruct fuel; cbn; unfold ret; intros [= <- <-];
      (split_and!; [done|done|cbn; lia]).
  - destruct Hc as (Hn & Hrest).
    destruct fuel as [|fuel]; [done|].
    cbn [first list_nodes]. intros Hrun.
    step dll_get_next_live in Hrun.
    apply bind_inv in Hrun as (rest & s1 & Hrun & Hret).
    apply (IH _ _ _ _ Hrest) in Hrun as (-> & -> & Hfuel).
    unfold ret in Hret. simplify_eq. split_and!; [done|done|cbn; lia].
Qed.

Lemma dll_list_nodes_list (s s' : St) head cs fuel ns :
  is_list (heap s) head cs →
  list_nodes fuel (Some head) s = Ret ns s' →
  s' = s ∧ ns = head :: nodes cs ∧ (length cs < fuel)%nat.
Proof.
  intros [Hh Hc] Hrun.
  apply (dll_list_nodes_partial s s' NULL (mk_cell head SENTINEL :: cs)) in Hrun
    as (-> & -> & Hfuel); [|by split].
  split_and!; [done|done|cbn in Hfuel; lia].
Qed.

(** The operations keep the nodes that were unlinked out of the list. *)
Lemma dll_run_op_lost (fuel : nat) (head : loc) (o : op) (s s' : St) cs lost :
  list_rep (heap s) head cs lost →
  run_op fuel (Some head) o s = Ret tt s' →
  ∃ cs' lost', list_rep (heap s') head cs' lost' ∧ ∀ l, l ∈ lost → l ∈ lost'.
Proof.
  intros Hrep Hrun.
  destruct o as [v|v|v]; cbn [run_op] in Hrun.
  - apply bind_inv in Hrun as (ok & s1 & Hop & Hret).
    unfold ret in Hret. simplify_eq.
    apply (dll_insert_entry_outcome _ _ _ cs) in Hop
      as [(_ & E & E')|(_ & Hv & a & _ & Ha & ->)];
      [| |apply (rep_list _ _ _ _ Hrep)].
    + exists cs, lost. by rewrite E.
    + exists (mk_cell a v :: cs), lost. cbn [heap].
      split; [by apply dll_rep_insert|done].
  - apply bind_inv in Hrun as (r & s1 & Hop & Hret).
    unfold ret in Hret. simplify_eq.
    destruct (decide (v = SENTINEL)) as [->|Hv].
    + rewrite dll_find_entry_sentinel in Hop. simplify_eq.
      by exists cs, lost.
    + apply (dll_find_entry_partial _ _ _ cs) in Hop as [-> _];
        [|apply (rep_list _ _ _ _ Hrep)|done].
      by exists cs, lost.
  - apply bind_inv in Hrun as (r & s1 & Hop & Hrun).
    destruct (decide (v = SENTINEL)) as [->|Hv].
    { rewrite dll_find_entry_sentinel in Hop. simplify_eq. cbn in Hrun.
      unfold ret in Hrun. simplify_eq. by exists cs, lost. }
    apply (dll_find_entry_partial _ _ _ cs) in Hop as [-> ->];
      [|apply (rep_list _ _ _ _ Hrep)|done].
    destruct (first_match v cs) as [c|] eqn:Hfm; cbn in Hrun.
    + destruct (dll_remove_found _ _ _ _ _ _ Hrep Hfm)
        as (pre & post & np & -> & _ & _ & _ & _ & _ & Hrem & Hrep').
      erewrite bind_Ret_eq in Hrun by exact Hrem.
      unfold ret in Hrun. simplify_eq.
      exists (pre ++ post), (c_node c :: lost). split; [done|].
      intros l Hl. by right.
    + unfold ret in Hrun. simplify_eq. by exists cs, lost.
Qed.

Lemma dll_run_ops_lost (head : loc) (os : list (nat * op)) (s s' : St) cs lost :
  list_rep (heap s) head cs lost →
  run_ops (Some head) os s = Ret tt s' →
  ∃ cs' lost', list_rep (heap s') head cs' lost' ∧ ∀ l, l ∈ lost → l ∈ lost'.
Proof.
  revert s cs lost; induction os as [|[fuel o] os IH]; intros s cs lost Hrep Hrun;
    cbn [run_ops] in Hrun.
  - unfold ret in Hrun. simplify_eq. by exists cs, lost.
  - apply bind_inv in Hrun as ([] & s1 & Hop & Hrun).
    destruct (dll_run_op_lost _ _ _ _ _ _ _ Hrep Hop) as (cs1 & lost1 & Hrep1 & Hsub).
    destruct (IH _ _ _ Hrep1 Hrun) as (cs2 & lost2 & Hrep2 & Hsub2).
    exists cs2, lost2. split; [done|]. intros l Hl. by apply Hsub2, Hsub.
Qed.

(** A node that a removal unlinked is allocated and is not on the list. *)
Lemma dll_removed_node_lost (head l : loc) (s : St) :
  removed_node (Some head) l s →
  ∃ cs lost, list_rep (heap s) head cs lost ∧ l ∈ lost.
Proof.
  intros (s0 & s1 & fuel & v & os & Hreach & Hfind & Hrem & Hrun).
  apply dll_reachable_valid in Hreach as (head' & cs0 & lost0 & E & Hrep & _).
  simplify_eq.
  assert (Hv : v ≠ SENTINEL).
  { intros ->. by rewrite dll_find_entry_sentinel in Hfind. }
  apply (dll_find_entry_partial _ _ _ cs0) in Hfind as [_ Hl];
    [|apply (rep_list _ _ _ _ Hrep)|done].
  destruct (first_match v cs0) as [c|] eqn:Hfm; cbn in Hl; [|done]. simplify_eq.
  destruct (dll_remove_found _ _ _ _ _ _ Hrep Hfm)
    as (pre & post & np & -> & _ & _ & _ & _ & _ & Hrem' & Hrep').
  rewrite Hrem' in Hrem. simplify_eq.
  destruct (dll_run_ops_lost head' os
              (mk_state (unlinked (heap s0) (last_node head' pre) np post)
                 (allocs s0) (freed s0) (output s0))
              s (pre ++ post) (c_node c :: lost0))
    as (cs & lost & Hrep1 & Hsub); [exact Hrep'|exact Hrun|].
  exists cs, lost. split; [done|]. apply Hsub. left.
Qed.

(** X28: [delete_list] on a reachable list returns, given the fuel that a
    walk along the list takes, without a fault, and releases exactly the
    nodes on the list, the sentinel and the nodes linked behind it, each
    once, the last node first and the sentinel last: one block more than
    the list has values.  Every other block is left as it is.  In
    particular every node that a removal had unlinked is not on the list,
    is not released and is still allocated when [main] returns. *)
Theorem dll_delete_list_releases_list (list_head : ptr) (s : St) :
  reachable list_head s →
  freed s = []
  ∧ (∃ N, ∀ fuel, (N ≤ fuel)%nat → ∃ ns, list_nodes fuel list_head s = Ret ns s)
  ∧ ∀ fuel ns, list_nodes fuel list_head s = Ret ns s →
      NoDup ns
      ∧ head ns = list_head
      ∧ (∃ vs, list_values fuel list_head s = Ret vs s
               ∧ length ns = S (length vs))
      ∧ ∃ s', delete_list fuel list_head s = Ret tt s'
          ∧ freed s' = reverse ns
          ∧ allocs s' = allocs s
          ∧ output s' = output s
          ∧ (∀ l, l ∈ ns → is_Some (heap s !! l) ∧ heap s' !! l = None)
          ∧ (∀ l, l ∉ ns → heap s' !! l = heap s !! l)
          ∧ (∀ l, removed_node list_head l s →
                  (l ∉ ns) ∧ is_Some (heap s' !! l)).
Proof.
  intros (hd & cs & lost & -> & Hrep & Hfr)%dll_reachable_valid.
  pose proof (rep_list _ _ _ _ Hrep) as Hlist.
  pose proof (dll_rep_nodup _ _ _ _ Hrep) as Hnd.
  split_and!; [done| |].
  { exists (S (length cs)). intros fuel Hfuel. exists (hd :: nodes cs).
    destruct Hlist as [Hh Hc].
    apply (dll_list_nodes_chain s NULL (mk_cell hd SENTINEL :: cs)); [by split|done]. }
  intros fuel ns Hwalk.
  pose proof Hwalk as Hwalk'.
  apply (dll_list_nodes_list _ _ _ cs) in Hwalk' as (_ & -> & Hfuel); [|done].
  split_and!; [done|done| |].
  { exists (values cs). split; [apply dll_list_values_list; [done|lia]|].
    cbn. unfold nodes, values. by rewrite !length_map. }
  eexists. split; [apply dll_delete_list_list; [done|done|lia]|].
  cbn [heap freed allocs output]. rewrite Hfr. unfold released.
  split_and!; [done|done|done| | |].
  - intros l Hl. split; [|by apply dll_lookup_deleted].
    apply (rep_live _ _ _ _ Hrep). rewrite app_comm_cons, elem_of_app. tauto.
  - intros l Hl. by apply dll_lookup_kept.
  - intros l (cs' & lost' & Hrep' & Hl)%dll_removed_node_lost.
    apply (dll_list_nodes_list _ _ _ cs') in Hwalk as (_ & E & _);
      [|apply (rep_list _ _ _ _ Hrep')].
    assert (Hout : l ∉ hd :: nodes cs).
    { rewrite E. pose proof (rep_separate _ _ _ _ Hrep') as Hsep.
      rewrite app_comm_cons in Hsep. apply NoDup_app in Hsep as (_ & Hsep & _).
      intros Hin. by apply (Hsep l). }
    split; [done|]. rewrite dll_lookup_kept by done.
    apply (rep_live _ _ _ _ Hrep'). rewrite app_comm_cons, elem_of_app. tauto.
Qed.

Lemma dll_delete_list_releases_list_witness :
  list_nodes dll_fuel (Some 1%positive) (dll_state [Insert 7; Insert 9; Remove 7; Insert 4])
  = Ret [1; 4; 3]%positive (dll_state [Insert 7; Insert 9; Remove 7; Insert 4])
  ∧ removed_node (Some 1%positive) 2%positive
      (dll_state [Insert 7; Insert 9; Remove 7; Insert 4])
  ∧ ∃ s', delete_list dll_fuel (Some 1%positive)
            (dll_state [Insert 7; Insert 9; Remove 7; Insert 4])
          = Ret tt s'
          ∧ freed s' = [3; 4; 1]%positive
          ∧ heap s' !! 3%positive = None
          ∧ heap s' !! 4%positive = None
          ∧ heap s' !! 1%positive = None
          ∧ is_Some (heap s' !! 2%positive).
Proof.
  assert (Hwalk : list_nodes dll_fuel (Some 1%positive)
                    (dll_state [Insert 7; Insert 9; Remove 7; Insert 4])
                  = Ret [1; 4; 3]%positive
                      (dll_state [Insert 7; Insert 9; Remove 7; Insert 4])).
  { vm_compute. reflexivity. }
  assert (Hlost : removed_node (Some 1%positive) 2%positive
                    (dll_state [Insert 7; Insert 9; Remove 7; Insert 4])).
  { exists (dll_state [Insert 7; Insert 9]),
      (state_of (remove_entry (Some 2%positive) (dll_state [Insert 7; Insert 9]))),
      dll_fuel, 7, [(dll_fuel, Insert 4)].
    split_and!; [apply dll_reachable| | |]; vm_compute; reflexivity. }
  destruct (dll_delete_list_releases_list (Some 1%positive)
              (dll_state [Insert 7; Insert 9; Remove 7; Insert 4])) as (_ & _ & H).
  { apply dll_reachable. vm_compute. reflexivity. }
  destruct (H dll_fuel [1; 4; 3]%positive Hwalk)
    as (_ & _ & _ & s' & Hdel & Hfreed & _ & _ & Hin & _ & Hrem).
  split; [exact Hwalk|]. split; [exact Hlost|].
  exists s'. split_and!; [exact Hdel|exact Hfreed| | | |].
  - apply Hin. rewrite !elem_of_cons. tauto.
  - apply Hin. rewrite !elem_of_cons. tauto.
  - apply Hin. rewrite !elem_of_cons. tauto.
  - by apply Hrem.
Defined.

(** X29: the operations on the list never go wrong: in a reachable state an
    insertion, a search and the removal of the entry that a search finds all
    return, given the fuel to walk the list; no access goes through a null
    or dangling pointer, whether [malloc] succeeds or not. *)
Theorem dll_operations_return (list_head : ptr) (s : St) (o : op) :
  reachable list_head s →
  ∃ N, ∀ fuel, (N ≤ fuel)%nat →
    ∃ s', run_op fuel list_head o s = Ret tt s' ∧ reachable list_head s'.
Proof.
  intros Hreach.
  assert (Hstep : ∀ fuel s', run_op fuel list_head o s = Ret tt s' →
                             reachable list_head s').
  { intros fuel s' Hrun. destruct Hreach as (future & os & s0 & Hcreate & Hne & Hops).
    exists future, (os ++ [(fuel, o)]), s0. split_and!; [done|done|].
    clear -Hops Hrun. revert s0 Hops. induction os as [|[f1 o1] os IH]; intros s0 Hops.
    - cbn in Hops. unfold ret in Hops. simplify_eq. cbn [app run_ops].
      eapply bind_Ret; [exact Hrun|done].
    - cbn [app run_ops] in Hops |- *.
      apply bind_inv in Hops as ([] & s1 & Hop & Hops).
      eapply bind_Ret; [exact Hop|]. by apply IH. }
  apply dll_reachable_valid in Hreach as (head & cs & lost & -> & Hrep & Hfr).
  pose proof (rep_list _ _ _ _ Hrep) as Hlist.
  exists (S (length cs)). intros fuel Hfuel.
  assert (∃ s', run_op fuel (Some head) o s = Ret tt s') as [s' Hrun];
    [|exists s'; split; [done|by eapply Hstep]].
  destruct o as [v|v|v]; cbn [run_op].
  - destruct (decide (v = SENTINEL)) as [->|Hv].
    { eexists. eapply bind_Ret; [apply dll_insert_entry_sentinel|done]. }
    destruct (malloc_cases Uninit s) as [(rest & Hma)|(a & rest & Hal & Ha & Hma)].
    + eexists. eapply bind_Ret; [by eapply dll_insert_entry_no_node|done].
    + eexists. eapply bind_Ret; [by eapply dll_insert_entry_run|done].
  - destruct (decide (v = SENTINEL)) as [->|Hv].
    { eexists. eapply bind_Ret; [apply dll_find_entry_sentinel|done]. }
    eexists. eapply bind_Ret; [by apply dll_find_entry_list|done].
  - destruct (decide (v = SENTINEL)) as [->|Hv].
    { eexists. eapply bind_Ret; [apply dll_find_entry_sentinel|done]. }
    destruct (first_match v cs) as [c|] eqn:Hfm.
    + destruct (dll_remove_found _ _ _ _ _ _ Hrep Hfm)
        as (pre & post & np & _ & _ & _ & _ & _ & _ & Hrem & _).
      eexists. eapply bind_Ret; [by apply dll_find_entry_list|].
      rewrite Hfm. cbn. eapply bind_Ret; [exact Hrem|done].
    + eexists. eapply bind_Ret; [by apply dll_find_entry_list|].
      rewrite Hfm. done.
Qed.

Lemma dll_operations_return_witness :
  ∃ N, ∀ fuel, (N ≤ fuel)%nat →
    ∃ s', run_op fuel (Some 1%positive) (Remove 9) (dll_state [Insert 7; Insert 9])
          = Ret tt s'
          ∧ reachable (Some 1%positive) s'.
Proof.
  apply (dll_operations_return (Some 1%positive)).
  apply dll_reachable. vm_compute. reflexivity.
Defined.

End DoublyLinkedListFacts.

(** ** trie.c *)

Section TrieFacts.
Import Trie.

Lemma isalpha_cases (c : Z) :
  isalpha c = true ↔ (65 <= c <= 90) ∨ (97 <= c <= 122).
Proof. unfold isalpha, isupper, islower. lia. Qed.

Lemma index_range (c : Z) :
  isalpha c = true → 0 <= get_alphabetical_index c < 26.
Proof.
  intros H. unfold get_alphabetical_index. rewrite H.
  apply isalpha_cases in H. unfold tolower.
  destruct (isupper c) eqn:E; unfold isupper in E.
  - assert (Hc : 65 <= c <= 90) by lia.
    rewrite Z.rem_mod_nonneg by lia.
    pose proof (Z.mod_unique (c + 32) 97 1 (c - 65)). lia.
  - assert (Hc : 97 <= c <= 122) by lia.
    rewrite Z.rem_mod_nonneg by lia.
    pose proof (Z.mod_unique c 97 1 (c - 97)). lia.
Qed.

Lemma index_not_alpha (c : Z) :
  isalpha c = false → get_alphabetical_index c = -1.
Proof. intros H. unfold get_alphabetical_index. by rewrite H. Qed.

Lemma index_tolower (c : Z) :
  get_alphabetical_index (tolower c) = get_alphabetical_index c.
Proof.
  unfold get_alphabetical_index, tolower.
  destruct (isupper c) eqn:E; [|by rewrite E].
  unfold isalpha. rewrite E. cbn [orb].
  unfold isupper in E.
  assert (isupper (c + 32) = false) as -> by (unfold isupper; lia).
  assert (islower (c + 32) = true) as -> by (unfold islower; lia).
  done.
Qed.

(** [insert_entry] and [find_entry] read the string through
    [get_alphabetical_index] only, which ignores the case. *)
Lemma insert_entry_lowercase (value : cstr) (allocs : list bool) (t : trie) :
  insert_entry allocs t (lowercase value) = insert_entry allocs t value.
Proof.
  revert allocs t; induction value as [|c value IH]; intros allocs t; [done|].
  cbn [lowercase map insert_entry]. fold (lowercase value).
  rewrite index_tolower.
  destruct (get_alphabetical_index c <? 0); [done|].
  destruct (paths t !! Z.to_nat (get_alphabetical_index c)) as [[next|]|]; [| |done].
  - by rewrite IH.
  - destruct (create_trie allocs) as [[new|] allocs']; [|done]. by rewrite IH.
Qed.

Lemma find_entry_lowercase (value : cstr) (t : trie) :
  find_entry t (lowercase value) = find_entry t value.
Proof.
  revert t; induction value as [|c value IH]; intros t; [done|].
  cbn [lowercase map find_entry]. fold (lowercase value).
  rewrite index_tolower.
  destruct (get_alphabetical_index c <? 0); [done|].
  destruct (paths t !! Z.to_nat (get_alphabetical_index c)) as [[next|]|]; done.
Qed.

Lemma well_formed_paths (t : trie) :
  well_formed t → length (paths t) = TRIE_PATHS.
Proof. by intros []. Qed.

Lemma well_formed_sub (t : trie) i sub :
  well_formed t → paths t !! i = Some (Some sub) → well_formed sub.
Proof. intros [d ps Hlen Hsub]. apply Hsub. Qed.

Lemma well_formed_update (t : trie) d i sub :
  well_formed t → well_formed sub →
  well_formed (mk_trie d (<[i := Some sub]> (paths t))).
Proof.
  intros [d0 ps Hlen Hsub] Hwf. cbn [paths]. constructor.
  - by rewrite length_insert.
  - intros j t'. destruct (decide (i = j)) as [->|Hne].
    + destruct (decide (j < length ps)%nat).
      * rewrite list_lookup_insert_eq by done. by intros [= <-].
      * rewrite list_insert_ge by lia. apply Hsub.
    + rewrite list_lookup_insert_ne by done. apply Hsub.
Qed.

Lemma create_trie_well_formed allocs new allocs' :
  create_trie allocs = (Some new, allocs') → well_formed new.
Proof.
  unfold create_trie. destruct allocs as [|[] rest]; intros [= <- <-].
  constructor; [done|].
  intros i t Hi. apply list_elem_of_lookup_2 in Hi.
  repeat (apply elem_of_cons in Hi as [Hi|Hi]; [done|]).
  by apply elem_of_nil in Hi.
Qed.

Lemma path_in_range (t : trie) (c : Z) :
  well_formed t → isalpha c = true →
  ∃ o, paths t !! Z.to_nat (get_alphabetical_index c) = Some o.
Proof.
  intros Hwf Hc. apply lookup_lt_is_Some_2.
  rewrite (well_formed_paths _ Hwf). unfold TRIE_PATHS.
  pose proof (index_range c Hc). lia.
Qed.

(** With a well-formed trie no access is out of bounds: [insert_entry]
    returns, and the trie it leaves is well formed. *)
Lemma insert_entry_total (value : cstr) (allocs : list bool) (t : trie) :
  well_formed t →
  ∃ ok t' allocs', insert_entry allocs t value = Some (ok, t', allocs')
                   ∧ well_formed t'.
Proof.
  revert allocs t; induction value as [|c value IH]; intros allocs t Hwf.
  - cbn. eexists _, _, _. split; [done|]. destruct Hwf. by constructor.
  - cbn [insert_entry].
    destruct (isalpha c) eqn:Hc.
    + pose proof (index_range c Hc) as Hr.
      destruct (Z.ltb_spec (get_alphabetical_index c) 0); [lia|].
      destruct (path_in_range t c Hwf Hc) as [[next|] Hp]; rewrite Hp.
      * destruct (IH allocs next) as (ok & sub & allocs' & -> & Hsub);
          [by eapply well_formed_sub|].
        eexists _, _, _. split; [done|]. by apply well_formed_update.
      * destruct (create_trie allocs) as [[new|] allocs1] eqn:Hnew; [|by eauto 6].
        destruct (IH allocs1 new) as (ok & sub & allocs' & -> & Hsub);
          [by eapply create_trie_well_formed|].
        eexists _, _, _. split; [done|]. by apply well_formed_update.
    + rewrite (index_not_alpha c Hc). cbn. eauto 6.
Qed.

Lemma missing_empty (value : cstr) : missing empty_trie value = length value.
Proof.
  destruct value as [|c value]; [done|]. cbn [missing].
  by destruct (paths empty_trie !! Z.to_nat (get_alphabetical_index c)) as [[next|]|] eqn:Hp;
    [apply list_elem_of_lookup_2, elem_of_replicate in Hp as [? _]|..].
Qed.

(** An insertion of letters succeeds exactly when the elements that its
    path lacks are all allocated, and the search then reaches the element
    that it marked. *)
Lemma insert_entry_letters (value : cstr) (allocs : list bool) (t : trie) :
  well_formed t →
  Forall (λ c, isalpha c = true) value →
  ∃ ok t' allocs',
    insert_entry allocs t value = Some (ok, t', allocs')
    ∧ (ok = true ↔ take (missing t value) allocs = replicate (missing t value) true)
    ∧ (ok = true → ∃ e, find_entry t' value = Some (Some e) ∧ is_data e = true).
Proof.
  revert allocs t; induction value as [|c value IH]; intros allocs t Hwf Halpha.
  - cbn. eexists _, _, _. split_and!; [done|done|]. intros _. by eexists.
  - apply Forall_cons in Halpha as [Hc Halpha].
    cbn [insert_entry missing].
    pose proof (index_range c Hc) as Hr.
    destruct (Z.ltb_spec (get_alphabetical_index c) 0); [lia|].
    assert (Hlt : (Z.to_nat (get_alphabetical_index c) < length (paths t))%nat).
    { rewrite (well_formed_paths _ Hwf). unfold TRIE_PATHS. lia. }
    destruct (path_in_range t c Hwf Hc) as [[next|] Hp]; rewrite Hp.
    + destruct (IH allocs next) as (ok & sub & allocs' & -> & Hok & Hfind);
        [by eapply well_formed_sub|done|].
      eexists _, _, _. split_and!; [done|done|].
      intros E. destruct (Hfind E) as (e & He & Hd). exists e. split; [|done].
      cbn [find_entry].
      destruct (Z.ltb_spec (get_alphabetical_index c) 0); [lia|].
      cbn [paths]. by rewrite list_lookup_insert_eq.
    + destruct allocs as [|[] allocs]; cbn [create_trie].
      * eexists _, _, _. split_and!; [done| |done]. cbn. split; done.
      * destruct (IH allocs (mk_trie false (replicate TRIE_PATHS None)))
          as (ok & sub & allocs' & -> & Hok & Hfind); [|done|].
        { by eapply (create_trie_well_formed (true :: allocs)). }
        fold empty_trie in Hok. rewrite missing_empty in Hok.
        eexists _, _, _. split_and!; [done| |].
        -- rewrite Hok. cbn [length take replicate]. split; [by intros ->|by intros [= ?]].
        -- intros E. destruct (Hfind E) as (e & He & Hd). exists e. split; [|done].
           cbn [find_entry].
           destruct (Z.ltb_spec (get_alphabetical_index c) 0); [lia|].
           cbn [paths]. by rewrite list_lookup_insert_eq.
      * eexists _, _, _. split_and!; [done| |done]. cbn. split; done.
Qed.

Lemma find_entry_not_alpha (value : cstr) (t : trie) :
  well_formed t →
  Exists (λ c, isalpha c = false) value →
  find_entry t value = Some None.
Proof.
  revert t; induction value as [|c value IH]; intros t Hwf Hex.
  - by apply Exists_nil in Hex.
  - cbn [find_entry]. destruct (isalpha c) eqn:Hc.
    + apply Exists_cons in Hex as [Hex|Hex]; [congruence|].
      pose proof (index_range c Hc) as Hr.
      destruct (Z.ltb_spec (get_alphabetical_index c) 0); [lia|].
      destruct (path_in_range t c Hwf Hc) as [[next|] Hp]; rewrite Hp; [|done].
      apply IH; [by eapply well_formed_sub|done].
    + by rewrite (index_not_alpha c Hc).
Qed.

Lemma insert_entry_not_alpha (value : cstr) (allocs : list bool) (t : trie) :
  well_formed t →
  Exists (λ c, isalpha c = false) value →
  ∃ t' allocs', insert_entry allocs t value = Some (false, t', allocs').
Proof.
  revert allocs t; induction value as [|c value IH]; intros allocs t Hwf Hex.
  - by apply Exists_nil in Hex.
  - cbn [insert_entry]. destruct (isalpha c) eqn:Hc.
    + apply Exists_cons in Hex as [Hex|Hex]; [congruence|].
      pose proof (index_range c Hc) as Hr.
      destruct (Z.ltb_spec (get_alphabetical_index c) 0); [lia|].
      destruct (path_in_range t c Hwf Hc) as [[next|] Hp]; rewrite Hp.
      * destruct (IH allocs next) as (sub & allocs' & ->);
          [by eapply well_formed_sub|done|]. eauto.
      * destruct (create_trie allocs) as [[new|] allocs1] eqn:Hnew; [|by eauto].
        destruct (IH allocs1 new) as (sub & allocs' & ->);
          [by eapply create_trie_well_formed|done|]. eauto.
    + rewrite (index_not_alpha c Hc). cbn. eauto.
Qed.
(** C10, as the code has it: the trie ignores the case.  Inserting or
    searching a string is the same as inserting or searching its lower-case
    form.  The insertion of a string of letters only, upper or lower case,
    returns [true] exactly when [create_trie] succeeds for each element
    that the path of the string lacks in the trie, and [false] when one of
    these allocations fails; after a successful insertion the string is
    found under its own spelling and under the lower-case one.  A string
    with a character that is not a letter makes [insert_entry] return
    [false] and [find_entry] return a null pointer. *)
Theorem trie_case_insensitive (t : trie) (value : cstr) (allocs : list bool) :
  well_formed t →
  insert_entry allocs t value = insert_entry allocs t (lowercase value)
  ∧ find_entry t value = find_entry t (lowercase value)
  ∧ (Forall (λ c, isalpha c = true) value →
     ∃ ok t' allocs',
       insert_entry allocs t value = Some (ok, t', allocs')
       ∧ (ok = true
          ↔ take (missing t value) allocs = replicate (missing t value) true)
       ∧ (ok = true →
          ∃ e, find_entry t' value = Some (Some e)
               ∧ find_entry t' (lowercase value) = Some (Some e)
               ∧ is_data e = true))
  ∧ (Exists (λ c, isalpha c = false) value →
     (∃ t' allocs', insert_entry allocs t value = Some (false, t', allocs'))
     ∧ find_entry t value = Some None).
Proof.
  intros Hwf. split_and!.
  - by rewrite insert_entry_lowercase.
  - by rewrite find_entry_lowercase.
  - intros Halpha.
    destruct (insert_entry_letters value allocs t Hwf Halpha)
      as (ok & t' & allocs' & Hins & Hok & Hfind).
    exists ok, t', allocs'. split_and!; [done|done|].
    intros E. destruct (Hfind E) as (e & He & Hd). exists e.
    by rewrite find_entry_lowercase.
  - intros Hex. split.
    + by apply insert_entry_not_alpha.
    + by apply find_entry_not_alpha.
Qed.

Lemma empty_well_formed : well_formed empty_trie.
Proof. by apply (create_trie_well_formed [true] empty_trie []). Qed.

Lemma insert_words_well_formed (words : list cstr) (allocs : list bool) (t : trie)
    oks t' allocs' :
  well_formed t →
  insert_words allocs t words = Some (oks, t', allocs') → well_formed t'.
Proof.
  revert allocs t oks; induction words as [|v words IH]; intros allocs t oks Hwf Hrun.
  - cbn in Hrun. by simplify_eq.
  - cbn [insert_words] in Hrun.
    destruct (insert_entry_total v allocs t Hwf) as (ok & t1 & al1 & Hins & Hwf1).
    rewrite Hins in Hrun.
    destruct (insert_words al1 t1 words) as [[[oks1 t2] al2]|] eqn:Hrest; [|done].
    simplify_eq. by eapply IH.
Qed.

Lemma trie_of_well_formed (words : list cstr) : well_formed (trie_of words).
Proof.
  unfold trie_of.
  destruct (insert_words _ empty_trie words) as [[[oks t] al]|] eqn:Hrun;
    [|apply empty_well_formed].
  eapply insert_words_well_formed; [apply empty_well_formed|done].
Qed.

Lemma trie_case_insensitive_witness :
  (∃ t' allocs' e,
     insert_entry (replicate 5 true) empty_trie (lit "Hello") = Some (true, t', allocs')
     ∧ find_entry t' (lit "Hello") = Some (Some e)
     ∧ find_entry t' (lowercase (lit "Hello")) = Some (Some e)
     ∧ is_data e = true)
  ∧ (∃ t' allocs',
       insert_entry [] (trie_of [lit "hi"]) (lit "HI") = Some (true, t', allocs'))
  ∧ (∃ t' allocs',
       insert_entry [true; false] empty_trie (lit "Hello") = Some (false, t', allocs')).
Proof.
  split_and!.
  - destruct (trie_case_insensitive empty_trie (lit "Hello") (replicate 5 true)
                empty_well_formed) as (_ & _ & H & _).
    destruct H as (ok & t' & allocs' & Hins & Hok & Hfind);
      [vm_compute; repeat constructor|].
    assert (ok = true) as -> by (apply Hok; vm_compute; reflexivity).
    destruct (Hfind eq_refl) as (e & H1 & H2 & H3).
    exists t', allocs', e. exact (conj Hins (conj H1 (conj H2 H3))).
  - destruct (trie_case_insensitive (trie_of [lit "hi"]) (lit "HI") []
                (trie_of_well_formed _)) as (_ & _ & H & _).
    destruct H as (ok & t' & allocs' & Hins & Hok & _);
      [vm_compute; repeat constructor|].
    assert (ok = true) as -> by (apply Hok; vm_compute; reflexivity).
    by exists t', allocs'.
  - destruct (trie_case_insensitive empty_trie (lit "Hello") [true; false]
                empty_well_formed) as (_ & _ & H & _).
    destruct H as (ok & t' & allocs' & Hins & Hok & _);
      [vm_compute; repeat constructor|].
    destruct ok; [|by exists t', allocs'].
    destruct Hok as [Hok _]. specialize (Hok eq_refl). vm_compute in Hok. discriminate.
Defined.

(** A string of one letter whose insertion fails: the trie lacks the element
    for the letter and [create_trie] returns a null pointer.  The trie is
    left as it was and the string is not found. *)
Lemma insert_letters_can_fail :
  well_formed empty_trie
  ∧ Forall (λ c, isalpha c = true) (lit "a")
  ∧ insert_entry [false] empty_trie (lit "a") = Some (false, empty_trie, [])
  ∧ find_entry empty_trie (lit "a") = Some None.
Proof.
  split_and!; [apply empty_well_formed|by repeat constructor|reflexivity|reflexivity].
Qed.

(** ** Membership in the trie *)

Lemma index_alpha (c : Z) : 0 <= get_alphabetical_index c → isalpha c = true.
Proof.
  intros H. destruct (isalpha c) eqn:E; [done|].
  rewrite (index_not_alpha c E) in H. lia.
Qed.

Lemma index_value (c : Z) :
  isalpha c = true → get_alphabetical_index c = tolower c - 97.
Proof.
  intros H. unfold get_alphabetical_index. rewrite H.
  apply isalpha_cases in H. unfold tolower.
  destruct (isupper c) eqn:E; unfold isupper in E.
  - assert (Hc : 65 <= c <= 90) by lia.
    rewrite Z.rem_mod_nonneg by lia.
    pose proof (Z.mod_unique (c + 32) 97 1 (c - 65)). lia.
  - assert (Hc : 97 <= c <= 122) by lia.
    rewrite Z.rem_mod_nonneg by lia.
    pose proof (Z.mod_unique c 97 1 (c - 97)). lia.
Qed.

Lemma index_same (c d : Z) :
  0 <= get_alphabetical_index c →
  get_alphabetical_index d = get_alphabetical_index c →
  tolower d = tolower c.
Proof.
  intros Hc E. pose proof (index_alpha c Hc) as Ac.
  assert (Ad : isalpha d = true) by (apply index_alpha; lia).
  rewrite (index_value c Ac), (index_value d Ad) in E. lia.
Qed.

Lemma contains_nil (t : trie) : contains t [] = is_data t.
Proof. unfold contains. cbn. by destruct (is_data t). Qed.

Lemma contains_cons (t : trie) (c : Z) (w : cstr) :
  contains t (c :: w)
  = if get_alphabetical_index c <? 0 then false
    else match paths t !! Z.to_nat (get_alphabetical_index c) with
         | Some (Some next) => contains next w
         | _ => false
         end.
Proof.
  unfold contains. cbn [find_entry].
  destruct (get_alphabetical_index c <? 0); [done|].
  by destruct (paths t !! Z.to_nat (get_alphabetical_index c)) as [[next|]|].
Qed.

Lemma contains_lowercase (t : trie) (w : cstr) :
  contains t (lowercase w) = contains t w.
Proof. unfold contains. by rewrite find_entry_lowercase. Qed.

Lemma contains_same_word (t : trie) (v w : cstr) :
  lowercase w = lowercase v → contains t w = contains t v.
Proof. intros E. by rewrite <- (contains_lowercase t w), E, contains_lowercase. Qed.

Lemma contains_empty (w : cstr) : contains empty_trie w = false.
Proof.
  destruct w as [|c w]; [done|]. rewrite contains_cons.
  destruct (get_alphabetical_index c <? 0); [done|].
  unfold empty_trie. cbn [paths].
  destruct (replicate TRIE_PATHS None !! Z.to_nat (get_alphabetical_index c))
    as [[next|]|] eqn:E; [|done|done].
  by apply lookup_replicate in E as [? _].
Qed.

Lemma create_trie_empty allocs new allocs' :
  create_trie allocs = (Some new, allocs') → new = empty_trie.
Proof. unfold create_trie. destruct allocs as [|[] rest]; by intros [= <- <-]. Qed.

Lemma lowercase_cons (c : Z) (w : cstr) : lowercase (c :: w) = tolower c :: lowercase w.
Proof. done. Qed.

Lemma contains_update (t : trie) (d : bool) (i : nat) (sub : trie) (o : option trie)
    (c : Z) (w : cstr) :
  paths t !! i = Some o →
  contains (mk_trie d (<[i := Some sub]> (paths t))) (c :: w)
  = if get_alphabetical_index c <? 0 then false
    else if bool_decide (Z.to_nat (get_alphabetical_index c) = i) then contains sub w
         else contains t (c :: w).
Proof.
  intros Hi. rewrite !contains_cons. cbn [paths].
  destruct (get_alphabetical_index c <? 0); [done|].
  case_bool_decide as E.
  - subst i. rewrite list_lookup_insert_eq; [done|]. by eapply lookup_lt_Some.
  - by rewrite list_lookup_insert_ne.
Qed.

(** The first characters apart, two words spell the same when the rest
    does and the first characters have the same index. *)
Lemma same_word_cons (c d : Z) (v w : cstr) :
  0 <= get_alphabetical_index c →
  Z.to_nat (get_alphabetical_index d) = Z.to_nat (get_alphabetical_index c) →
  0 <= get_alphabetical_index d →
  bool_decide (lowercase (d :: w) = lowercase (c :: v))
  = bool_decide (lowercase w = lowercase v).
Proof.
  intros Hc E Hd. rewrite !lowercase_cons.
  assert (tolower d = tolower c) as -> by (apply index_same; [done|lia]).
  apply bool_decide_ext. split; [by intros [= ->]|by intros ->].
Qed.

Lemma other_word_cons (c d : Z) (v w : cstr) :
  Z.to_nat (get_alphabetical_index d) ≠ Z.to_nat (get_alphabetical_index c) →
  bool_decide (lowercase (d :: w) = lowercase (c :: v)) = false.
Proof.
  intros E. apply bool_decide_eq_false. rewrite !lowercase_cons. intros [= H _].
  apply E. by rewrite <- (index_tolower d), H, index_tolower.
Qed.

Lemma not_letter_word (c d : Z) (v w : cstr) :
  0 <= get_alphabetical_index c → get_alphabetical_index d < 0 →
  bool_decide (lowercase (d :: w) = lowercase (c :: v)) = false.
Proof.
  intros Hc Hd. apply bool_decide_eq_false. rewrite !lowercase_cons. intros [= H _].
  rewrite <- (index_tolower d), H, index_tolower in Hd. lia.
Qed.

(** What an insertion changes in the answers of the searches. *)
Lemma insert_entry_contains (v : cstr) (allocs : list bool) (t : trie) ok t' allocs' :
  insert_entry allocs t v = Some (ok, t', allocs') →
  ∀ w, contains t' w
       = contains t w || (ok && bool_decide (lowercase w = lowercase v)).
Proof.
  revert allocs t ok t' allocs'.
  induction v as [|c v IH]; intros allocs t ok t' allocs' Hrun w.
  - cbn in Hrun. simplify_eq. cbn [andb].
    destruct w as [|d w].
    + rewrite !contains_nil. cbn. by rewrite orb_true_r.
    + rewrite !contains_cons. cbn [paths].
      rewrite (bool_decide_eq_false_2 (lowercase (d :: w) = lowercase [])) by done.
      by rewrite orb_false_r.
  - cbn [insert_entry] in Hrun.
    destruct (Z.ltb_spec (get_alphabetical_index c) 0) as [Hneg|Hpos].
    { simplify_eq. cbn [andb]. by rewrite orb_false_r. }
    destruct (paths t !! Z.to_nat (get_alphabetical_index c)) as [o|] eqn:Hp;
      [|done].
    assert (Hsub : ∀ al sub0 ok sub al',
              insert_entry al sub0 v = Some (ok, sub, al') →
              (∀ w, contains sub0 w
                    = match o with Some next => contains next w | None => false end) →
              ∀ w, contains
                     (mk_trie (is_data t)
                        (<[Z.to_nat (get_alphabetical_index c) := Some sub]> (paths t)))
                     w
                   = contains t w || (ok && bool_decide (lowercase w = lowercase (c :: v)))).
    { intros al sub0 ok0 sub al' Hins Hold [|d w0].
      - rewrite !contains_nil. cbn [is_data].
        rewrite (bool_decide_eq_false_2 (lowercase [] = lowercase (c :: v))) by done.
        by rewrite andb_false_r, orb_false_r.
      - rewrite (contains_update t _ _ _ o) by done.
        destruct (Z.ltb_spec (get_alphabetical_index d) 0) as [Hd|Hd].
        { rewrite contains_cons.
          destruct (Z.ltb_spec (get_alphabetical_index d) 0); [|lia].
          by rewrite not_letter_word, andb_false_r. }
        case_bool_decide as E.
        + rewrite (IH _ _ _ _ _ Hins), Hold, same_word_cons by done.
          f_equal. rewrite contains_cons.
          destruct (Z.ltb_spec (get_alphabetical_index d) 0); [lia|].
          rewrite E, Hp. by destruct o.
        + by rewrite other_word_cons, andb_false_r, orb_false_r. }
    destruct o as [next|].
    + destruct (insert_entry allocs next v) as [[[ok0 sub] al']|] eqn:Hins; [|done].
      simplify_eq. by eapply Hsub.
    + destruct (create_trie allocs) as [[new|] al1] eqn:Hnew.
      * destruct (insert_entry al1 new v) as [[[ok0 sub] al']|] eqn:Hins; [|done].
        simplify_eq. eapply Hsub; [done|].
        intros w0. rewrite (create_trie_empty _ _ _ Hnew). apply contains_empty.
      * simplify_eq. cbn [andb]. by rewrite orb_false_r.
Qed.

(** What the removal of a word that is found changes. *)
Lemma clear_entry_contains (v : cstr) (t : trie) :
  contains t v = true →
  ∀ w, contains (clear_entry t v) w
       = contains t w && negb (bool_decide (lowercase w = lowercase v)).
Proof.
  revert t. induction v as [|c v IH]; intros t Hfound w.
  - cbn [clear_entry]. destruct w as [|d w].
    + rewrite !contains_nil. cbn. by rewrite andb_false_r.
    + rewrite !contains_cons. cbn [paths].
      rewrite (bool_decide_eq_false_2 (lowercase (d :: w) = lowercase [])) by done.
      by rewrite andb_true_r.
  - rewrite contains_cons in Hfound. cbn [clear_entry].
    destruct (Z.ltb_spec (get_alphabetical_index c) 0) as [Hneg|Hpos]; [done|].
    destruct (paths t !! Z.to_nat (get_alphabetical_index c)) as [[next|]|] eqn:Hp;
      [|done|done].
    destruct w as [|d w].
    + rewrite !contains_nil. cbn [is_data].
      rewrite (bool_decide_eq_false_2 (lowercase [] = lowercase (c :: v))) by done.
      by rewrite andb_true_r.
    + rewrite (contains_update t _ _ _ (Some next)) by done.
      destruct (Z.ltb_spec (get_alphabetical_index d) 0) as [Hd|Hd].
      { rewrite contains_cons.
        destruct (Z.ltb_spec (get_alphabetical_index d) 0); [done|lia]. }
      case_bool_decide as E.
      * rewrite (IH _ Hfound), same_word_cons by done.
        f_equal. rewrite contains_cons.
        destruct (Z.ltb_spec (get_alphabetical_index d) 0); [lia|].
        by rewrite E, Hp.
      * by rewrite other_word_cons, andb_true_r.
Qed.

Lemma well_formed_clear (v : cstr) (t : trie) :
  well_formed t → well_formed (clear_entry t v).
Proof.
  revert t. induction v as [|c v IH]; intros t Hwf.
  - cbn. destruct Hwf. by constructor.
  - cbn [clear_entry].
    destruct (paths t !! Z.to_nat (get_alphabetical_index c)) as [[next|]|] eqn:Hp;
      [|done|done].
    apply well_formed_update; [done|]. apply IH. by eapply well_formed_sub.
Qed.

Lemma find_entry_total (v : cstr) (t : trie) :
  well_formed t → ∃ r, find_entry t v = Some r.
Proof.
  revert t. induction v as [|c v IH]; intros t Hwf; [by eexists|].
  cbn [find_entry]. destruct (isalpha c) eqn:Hc.
  - pose proof (index_range c Hc) as Hr.
    destruct (Z.ltb_spec (get_alphabetical_index c) 0); [lia|].
    destruct (path_in_range t c Hwf Hc) as [[next|] Hp]; rewrite Hp; [|by eexists].
    apply IH. by eapply well_formed_sub.
  - rewrite (index_not_alpha c Hc). by eexists.
Qed.

Lemma elements_paths (d d' : bool) (ps : list (option trie)) :
  elements (mk_trie d ps) = elements (mk_trie d' ps).
Proof. done. Qed.

Lemma elements_update (t : trie) (d : bool) (i : nat) (sub sub' : trie) :
  paths t !! i = Some (Some sub) → elements sub' = elements sub →
  elements (mk_trie d (<[i := Some sub']> (paths t))) = elements t.
Proof.
  destruct t as [d0 ps]. cbn [paths]. intros Hi E. cbn [elements]. f_equal.
  revert i Hi. induction ps as [|o ps IH]; intros i Hi; [done|].
  destruct i as [|i]; cbn in Hi |- *.
  - simplify_eq. by rewrite E.
  - f_equal. by apply IH.
Qed.

Lemma elements_clear (v : cstr) (t : trie) :
  elements (clear_entry t v) = elements t.
Proof.
  revert t. induction v as [|c v IH]; intros t.
  - destruct t. done.
  - cbn [clear_entry].
    destruct (paths t !! Z.to_nat (get_alphabetical_index c)) as [[next|]|] eqn:Hp;
      [|done|done].
    by apply (elements_update t _ _ next).
Qed.

(** X19: [get_alphabetical_index] returns -1 for a character that is not a
    letter and, for a letter, its position in the alphabet, from 0 for 'a'
    or 'A' to 25 for 'z' or 'Z'; two letters have the same index exactly
    when they are the same letter, the case ignored. *)
Theorem alphabetical_index_spec (c d : Z) :
  (isalpha c = false → get_alphabetical_index c = -1)
  ∧ (isalpha c = true →
     get_alphabetical_index c = tolower c - 97
     ∧ 0 <= get_alphabetical_index c < Z.of_nat TRIE_PATHS)
  ∧ (isalpha c = true → isalpha d = true →
     get_alphabetical_index c = get_alphabetical_index d ↔ tolower c = tolower d).
Proof.
  split_and!.
  - apply index_not_alpha.
  - intros Hc. split; [by apply index_value|].
    pose proof (index_range c Hc). unfold TRIE_PATHS. lia.
  - intros Hc Hd. rewrite (index_value c Hc), (index_value d Hd). lia.
Qed.

Lemma alphabetical_index_spec_witness :
  get_alphabetical_index 72 = tolower 72 - 97
  ∧ 0 <= get_alphabetical_index 72 < Z.of_nat TRIE_PATHS
  ∧ (get_alphabetical_index 72 = get_alphabetical_index 104 ↔ tolower 72 = tolower 104)
  ∧ get_alphabetical_index 45 = -1.
Proof.
  destruct (alphabetical_index_spec 72 104) as (_ & H2 & H3).
  destruct (alphabetical_index_spec 45 45) as (H1 & _).
  destruct (H2 eq_refl) as [H4 H5].
  exact (conj H4 (conj H5 (conj (H3 eq_refl eq_refl) (H1 eq_refl)))).
Defined.

(** X20: on a well-formed trie [insert_entry] returns, without an access out
    of bounds, and leaves a well-formed trie in which the searches answer as
    before, except that after a successful insertion the word inserted is
    found, under every spelling that differs by case only.  A failed
    insertion changes no answer. *)
Theorem insert_adds_one_word (allocs : list bool) (t : trie) (v : cstr) :
  well_formed t →
  ∃ ok t' allocs',
    insert_entry allocs t v = Some (ok, t', allocs')
    ∧ well_formed t'
    ∧ ∀ w, contains t' w
           = contains t w || (ok && bool_decide (lowercase w = lowercase v)).
Proof.
  intros Hwf.
  destruct (insert_entry_total v allocs t Hwf) as (ok & t' & allocs' & Hrun & Hwf').
  exists ok, t', allocs'. split_and!; [done|done|].
  by eapply insert_entry_contains.
Qed.

Lemma insert_adds_one_word_witness :
  ∃ ok t' allocs',
    insert_entry [true; true; true] empty_trie (lit "Cat") = Some (ok, t', allocs')
    ∧ well_formed t'
    ∧ ∀ w, contains t' w
           = contains empty_trie w
             || (ok && bool_decide (lowercase w = lowercase (lit "Cat"))).
Proof.
  apply (insert_adds_one_word [true; true; true] empty_trie (lit "Cat")).
  apply empty_well_formed.
Defined.

(** X21: on a well-formed trie [remove_entry] returns [true] exactly when
    the word is found; afterwards the word is not found any more, under any
    spelling that differs by case only, and the searches for every other
    word answer as before.  Only a flag is cleared: the trie keeps all its
    elements, none is released. *)
Theorem remove_deletes_one_word (t : trie) (v : cstr) :
  well_formed t →
  ∃ t', remove_entry t v = Some (contains t v, t')
        ∧ well_formed t'
        ∧ elements t' = elements t
        ∧ ∀ w, contains t' w
               = contains t w && negb (bool_decide (lowercase w = lowercase v)).
Proof.
  intros Hwf. unfold remove_entry.
  destruct (find_entry_total v t Hwf) as (r & Hfind).
  destruct (contains t v) eqn:Hc; unfold contains in Hc; rewrite Hfind in Hc |- *.
  - destruct r as [e|]; [|done].
    exists (clear_entry t v). split_and!; [done| | |].
    + by apply well_formed_clear.
    + apply elements_clear.
    + apply clear_entry_contains. unfold contains. by rewrite Hfind.
  - destruct r as [e|]; [done|].
    exists t. split_and!; [done|done|done|].
    intros w. case_bool_decide as E; cbn [negb]; [|by rewrite andb_true_r].
    rewrite andb_false_r, (contains_same_word t v w E).
    unfold contains. by rewrite Hfind.
Qed.

Lemma remove_deletes_one_word_witness :
  ∃ t', remove_entry (trie_of [lit "cat"; lit "car"]) (lit "Cat") = Some (true, t')
        ∧ well_formed t'
        ∧ elements t' = elements (trie_of [lit "cat"; lit "car"])
        ∧ contains (trie_of [lit "cat"; lit "car"]) (lit "cat") = true
        ∧ contains t' (lit "cat") = false
        ∧ contains t' (lit "CAT") = false
        ∧ contains t' (lit "car") = true.
Proof.
  destruct (remove_deletes_one_word (trie_of [lit "cat"; lit "car"]) (lit "Cat"))
    as (t' & Hrun & Hwf & Hel & Hc); [apply trie_of_well_formed|].
  exists t'. split_and!; [exact Hrun|exact Hwf|exact Hel|reflexivity| | |].
  - rewrite Hc. vm_compute. reflexivity.
  - rewrite Hc. vm_compute. reflexivity.
  - rewrite Hc. vm_compute. reflexivity.
Defined.

(** X22: inserting a word that the trie already holds returns [true] and
    changes nothing: the trie is the same and no allocation is made. *)
Theorem insert_present_word (allocs : list bool) (t : trie) (v : cstr) :
  contains t v = true →
  insert_entry allocs t v = Some (true, t, allocs).
Proof.
  revert t. induction v as [|c v IH]; intros t Hfound.
  - rewrite contains_nil in Hfound. cbn. destruct t as [d ps].
    cbn in Hfound |- *. by rewrite Hfound.
  - rewrite contains_cons in Hfound. cbn [insert_entry].
    destruct (get_alphabetical_index c <? 0); [done|].
    destruct (paths t !! Z.to_nat (get_alphabetical_index c)) as [[next|]|] eqn:Hp;
      [|done|done].
    rewrite (IH next Hfound). destruct t as [d ps]. cbn [is_data paths] in *.
    by rewrite list_insert_id.
Qed.

Lemma insert_present_word_witness :
  ∃ t, insert_entry [true; true] empty_trie (lit "hi") = Some (true, t, [])
       ∧ insert_entry [false] t (lit "HI") = Some (true, t, [false]).
Proof.
  eexists. split; [vm_compute; reflexivity|].
  apply (insert_present_word [false]). vm_compute. reflexivity.
Defined.

Lemma insert_words_contains (words : list cstr) (allocs : list bool) (t : trie)
    oks t' allocs' :
  insert_words allocs t words = Some (oks, t', allocs') →
  ∀ w, contains t' w
       = contains t w
         || bool_decide (lowercase w ∈ map lowercase (accepted words oks)).
Proof.
  revert allocs t oks t' allocs'.
  induction words as [|v words IH]; intros allocs t oks t' allocs' Hrun w.
  - cbn in Hrun. simplify_eq. cbn.
    rewrite bool_decide_eq_false_2 by apply not_elem_of_nil. by rewrite orb_false_r.
  - cbn [insert_words] in Hrun.
    destruct (insert_entry allocs t v) as [[[ok t1] al1]|] eqn:Hins; [|done].
    destruct (insert_words al1 t1 words) as [[[oks1 t2] al2]|] eqn:Hrest; [|done].
    simplify_eq.
    rewrite (IH _ _ _ _ _ Hrest), (insert_entry_contains _ _ _ _ _ _ Hins).
    rewrite <- orb_assoc. f_equal. cbn [accepted].
    destruct ok; cbn [andb orb map]; [|done].
    apply eq_true_iff_eq. rewrite orb_true_iff, !bool_decide_eq_true, elem_of_cons.
    done.
Qed.

(** X23: after the insertion loop of [main] over a list of words, from the
    trie that [create_trie] returns, a search finds a word exactly when it
    spells, the case ignored, one of the words whose insertion returned
    [true]. *)
Theorem insert_words_membership (words : list cstr) (allocs : list bool)
    oks t' allocs' (w : cstr) :
  insert_words allocs empty_trie words = Some (oks, t', allocs') →
  contains t' w = true ↔ lowercase w ∈ map lowercase (accepted words oks).
Proof.
  intros Hrun. rewrite (insert_words_contains _ _ _ _ _ _ Hrun), contains_empty.
  cbn [orb]. apply bool_decide_eq_true.
Qed.

Lemma insert_words_membership_witness :
  ∃ t' allocs',
    insert_words (replicate 8 true) empty_trie [lit "Cat"; lit "do-g"; lit "cow"]
    = Some ([true; false; true], t', allocs')
    ∧ (contains t' (lit "CAT") = true
       ↔ lowercase (lit "CAT")
         ∈ map lowercase (accepted [lit "Cat"; lit "do-g"; lit "cow"]
                            [true; false; true])).
Proof.
  eexists _, _. split; [vm_compute; reflexivity|].
  eapply (insert_words_membership [lit "Cat"; lit "do-g"; lit "cow"] (replicate 8 true)
            [true; false; true]).
  vm_compute. reflexivity.
Defined.

(** ** The elements that an insertion allocates *)

Lemma list_sum_insert {A} (f : A → nat) (l : list A) (i : nat) (x y : A) :
  l !! i = Some x →
  (list_sum (map f (<[i := y]> l)) + f x = list_sum (map f l) + f y)%nat.
Proof.
  revert i. induction l as [|a l IH]; intros i Hi; [done|].
  destruct i as [|i]; simpl in *.
  - simplify_eq. lia.
  - specialize (IH i Hi). lia.
Qed.

Lemma elements_replace (t : trie) (d : bool) (i : nat) (next sub : trie) :
  paths t !! i = Some (Some next) →
  (elements (mk_trie d (<[i := Some sub]> (paths t))) + elements next
   = elements t + elements sub)%nat.
Proof.
  destruct t as [d0 ps]. cbn [paths]. intros Hi. cbn [elements].
  pose proof (list_sum_insert
                (λ o, match o with Some sub => elements sub | None => O end)
                ps i (Some next) (Some sub) Hi) as H.
  cbn beta iota in H. lia.
Qed.

Lemma elements_grow (t : trie) (d : bool) (i : nat) (sub : trie) :
  paths t !! i = Some None →
  elements (mk_trie d (<[i := Some sub]> (paths t))) = (elements t + elements sub)%nat.
Proof.
  destruct t as [d0 ps]. cbn [paths]. intros Hi. cbn [elements].
  pose proof (list_sum_insert
                (λ o, match o with Some sub => elements sub | None => O end)
                ps i None (Some sub) Hi) as H.
  cbn beta iota in H. lia.
Qed.

(** X30: every element that [insert_entry] allocates is linked into the
    trie, also when the insertion then fails on a later character or on a
    later allocation: the calls of [malloc] made are a prefix of the coming
    ones, and the trie grows by as many elements as these calls
    succeeded.  A failed insertion is not undone. *)
Theorem insert_links_every_allocation (v : cstr) (allocs : list bool) (t : trie)
    ok t' allocs' :
  insert_entry allocs t v = Some (ok, t', allocs') →
  ∃ used, allocs = used ++ allocs'
          ∧ (length used ≤ length v)%nat
          ∧ elements t' = (elements t + length (filter (λ b, b = true) used))%nat.
Proof.
  assert (Hnil : length (filter (λ b : bool, b = true) []) = 0%nat) by done.
  revert allocs t ok t' allocs'.
  induction v as [|c v IH]; intros allocs t ok t' allocs' Hrun.
  - cbn in Hrun. simplify_eq. exists []. split_and!; [done|done|].
    rewrite Hnil, Nat.add_0_r. destruct t as [d ps]. apply elements_paths.
  - cbn [insert_entry] in Hrun.
    destruct (get_alphabetical_index c <? 0).
    { simplify_eq. exists []. split_and!; [done|cbn; lia|].
      by rewrite Hnil, Nat.add_0_r. }
    destruct (paths t !! Z.to_nat (get_alphabetical_index c)) as [[next|]|] eqn:Hp;
      [| |done].
    + destruct (insert_entry allocs next v) as [[[ok0 sub] al']|] eqn:Hins; [|done].
      simplify_eq. destruct (IH _ _ _ _ _ Hins) as (used & -> & Hlen & Hel).
      exists used. split_and!; [done|cbn; lia|].
      pose proof (elements_replace t (is_data t) _ next sub Hp). lia.
    + unfold create_trie in Hrun. destruct allocs as [|[] rest].
      * simplify_eq. exists []. split_and!; [done|cbn; lia|].
        by rewrite Hnil, Nat.add_0_r.
      * destruct (insert_entry rest (mk_trie false (replicate TRIE_PATHS None)) v)
          as [[[ok0 sub] al']|] eqn:Hins; [|done].
        simplify_eq. destruct (IH _ _ _ _ _ Hins) as (used & -> & Hlen & Hel).
        exists (true :: used). split_and!; [done|cbn; lia|].
        rewrite (elements_grow t _ _ sub Hp), Hel.
        rewrite filter_cons_True by done. cbn [length].
        change (elements (mk_trie false (replicate TRIE_PATHS None))) with 1%nat. lia.
      * simplify_eq. exists [false]. split_and!; [done|cbn; lia|].
        rewrite filter_cons_False by done. by rewrite Hnil, Nat.add_0_r.
Qed.

Lemma insert_links_every_allocation_witness :
  ∃ t', insert_entry [true; true; true] empty_trie (lit "ab-") = Some (false, t', [true])
        ∧ ∃ used, [true; true; true] = used ++ [true]
                  ∧ (length used ≤ length (lit "ab-"))%nat
                  ∧ elements t'
                    = (elements empty_trie + length (filter (λ b, b = true) used))%nat.
Proof.
  eexists. split; [vm_compute; reflexivity|].
  eapply (insert_links_every_allocation (lit "ab-") [true; true; true] empty_trie false).
  vm_compute. reflexivity.
Defined.

End TrieFacts.
